(** * microstructure_ve: finite-element input decks for periodic microstructures

    A shallow embedding of [microstructure_ve.py] and the properties of its
    mesh builder, node-set extractor, periodic boundary constraint builder,
    element-set builder, interphase classifier and viscoelastic table
    writer.

    Conventions of the embedding.
    - A two-dimensional numpy array is a shape together with its C-contiguous
      (row-major) buffer, as numpy stores it: [ravel] is the buffer itself.
    - Node and element numbers are [nat]: numpy's [intp] arithmetic is not
      reached by any grid that fits in memory.
    - A [to_inp] method is modelled by the sequence of records it writes,
      each record holding the values of the format fields in the order of
      the format string; the rendering of a number as text ([:d], [.6e]) is
      not modelled.
    - A Python exception is [None] in a pure function and [mem.Raised] in
      a function on array objects. *)

From Stdlib Require Import Reals Lra.
From stdpp Require Import base option list sorting gmap strings.

(** ** numpy arrays of rank two *)

Module np.

Record ndarray (A : Type) : Type := NDArray {
  shape : nat * nat;
  ravel : list A
}.
Arguments NDArray {A} _ _.
Arguments shape {A} _.
Arguments ravel {A} _.

(** [a.shape == (h, w)] for an array numpy could have built: the buffer
    holds [h * w] items. *)
Definition has_shape {A} (h w : nat) (a : ndarray A) : Prop :=
  shape a = (h, w) ∧ length (ravel a) = h * w.

(** The array of shape [(h, w)] holding [f r c] at row [r], column [c]. *)
Definition tabulate {A} (h w : nat) (f : nat → nat → A) : ndarray A :=
  NDArray (h, w) (r ← seq 0 h; f r <$> seq 0 w).

(** [a[r, c]] for in-range non-negative [r], [c]. *)
Definition item {A} (a : ndarray A) (r c : nat) : option A :=
  if decide (r < (shape a).1 ∧ c < (shape a).2)
  then ravel a !! (r * (shape a).2 + c) else None.

Definition item_total `{Inhabited A} (a : ndarray A) (r c : nat) : A :=
  default inhabitant (item a r c).

(** [np.indices(shape)] for a shape of length two: the row-index grid and
    the column-index grid. *)
Definition indices (sh : nat * nat) : ndarray nat * ndarray nat :=
  (tabulate sh.1 sh.2 (λ r _, r), tabulate sh.1 sh.2 (λ _ c, c)).

(** [np.ravel_multi_index((rows, cols), dims)] on index grids that lie
    inside [dims]: the row-major position, item by item. *)
Definition ravel_multi_index (ix : ndarray nat * ndarray nat)
    (dims : nat * nat) : ndarray nat :=
  NDArray (shape ix.1)
          (zip_with (λ r c, r * dims.2 + c) (ravel ix.1) (ravel ix.2)).

(** [k + a], item by item. *)
Definition add_scalar (k : nat) (a : ndarray nat) : ndarray nat :=
  NDArray (shape a) ((λ x, k + x) <$> ravel a).

(** A Python slice [start:stop] (step 1); [None] is an omitted bound. *)
Record slice : Type := Slice { start : option Z; stop : option Z }.

(** CPython's [PySlice_AdjustIndices] for a positive step: a negative bound
    counts from the end, and both bounds are clamped to [0, n]. *)
Definition adjust (n : nat) (b : Z) : nat :=
  let b' := if decide (b < 0)%Z then (b + Z.of_nat n)%Z else b in
  Z.to_nat (Z.min (Z.max b' 0) (Z.of_nat n)).

Definition slice_bounds (n : nat) (s : slice) : nat * nat :=
  let lo := from_option (adjust n) 0 (start s) in
  let hi := from_option (adjust n) n (stop s) in
  (lo, hi).

(** [a[s0, s1]] for two slices: a window of the array. *)
Definition getslice `{Inhabited A} (a : ndarray A) (s0 s1 : slice)
    : ndarray A :=
  let '(lo0, hi0) := slice_bounds (shape a).1 s0 in
  let '(lo1, hi1) := slice_bounds (shape a).2 s1 in
  tabulate (hi0 - lo0) (hi1 - lo1) (λ r c, item_total a (lo0 + r) (lo1 + c)).

(** [f(a)] and [f(a, b)] item by item, for arrays of one shape. *)
Definition map {A B} (f : A → B) (a : ndarray A) : ndarray B :=
  NDArray (shape a) (f <$> ravel a).

Definition map2 {A B C} (f : A → B → C) (a : ndarray A) (b : ndarray B)
    : ndarray C :=
  NDArray (shape a) (zip_with f (ravel a) (ravel b)).

(** [np.tile(a, (n, m))] *)
Definition tile `{Inhabited A} (a : ndarray A) (reps : nat * nat) : ndarray A :=
  let '(h, w) := shape a in
  tabulate (reps.1 * h) (reps.2 * w)
    (λ r c, item_total a (r `mod` h) (c `mod` w)).

(** An integer index along an axis of length [n]: a negative index counts
    from the end; out of range is an [IndexError]. *)
Definition index (n : nat) (i : Z) : option nat :=
  let i' := if decide (i < 0)%Z then (i + Z.of_nat n)%Z else i in
  if decide (0 ≤ i' < Z.of_nat n)%Z then Some (Z.to_nat i') else None.

End np.

(** The slices of the source, written as numpy's [np.s_] writes them. *)
Definition s_all : np.slice := np.Slice None None.              (* [:]    *)
Definition s_but_last : np.slice := np.Slice None (Some (-1)%Z).  (* [:-1]  *)
Definition s_from_1 : np.slice := np.Slice (Some 1%Z) None.     (* [1:]   *)
Definition s_inner : np.slice := np.Slice (Some 1%Z) (Some (-1)%Z). (* [1:-1] *)

(** ** Keyword classes *)

(** *** GridNodes *)

Record GridNodes : Type := {
  gn_shape : list nat;          (* [shape]: the 1-d array of grid extents *)
  node_nums : list nat;         (* [range(1, 1 + prod(shape))] *)
  virtual_node : nat
}.

Definition prod_list (l : list nat) : nat := foldr Nat.mul 1 l.

(** [GridNodes(shape, scale).__post_init__]; [node_nums[-1]] raises an
    [IndexError] on an empty range. The scale only enters the coordinates
    written by [GridNodes.to_inp] and is left out. *)
Definition GridNodes_init (sh : list nat) : option GridNodes :=
  let nums := seq 1 (prod_list sh) in
  lst ← last nums;
  Some {| gn_shape := sh; node_nums := nums; virtual_node := lst + 1 |}.

(** [GridNodes.from_intph_img]: [np.array(intph_img.shape) + 1]. *)
Definition from_intph_img {A} (intph_img : np.ndarray A) : option GridNodes :=
  let '(h, w) := np.shape intph_img in
  GridNodes_init [h + 1; w + 1].

(** The shape of a node grid as the pair the rank-two numpy functions take;
    the mesh builder and the node-set extractor index the grid with two
    subscripts, so only rank two is modelled. *)
Definition shape2 (nodes : GridNodes) : option (nat * nat) :=
  match gn_shape nodes with
  | [h; w] => Some (h, w)
  | _ => None
  end.

(** *** RectangularElements *)

Record RectangularElements : Type := {
  re_nodes : GridNodes;
  element_nums : list nat      (* [range(1, 1 + prod(nodes.shape - 1))] *)
}.

(** [RectangularElements(nodes).__post_init__]. The extents of a grid that
    [GridNodes] could build are positive, so [nodes.shape - 1] stays in
    [nat]. *)
Definition RectangularElements_init (nodes : GridNodes) : RectangularElements :=
  {| re_nodes := nodes;
     element_nums := seq 1 (prod_list ((λ n, n - 1) <$> gn_shape nodes)) |}.

(** One record of the [*Element] block: the fields of
    [f"{elem_num:d},\t{tn:d},\t{kn:d},\t{rn:d},\t{trn:d},\t\n"], in order. *)
Definition element_record : Type := list nat.

Definition zip5 {A B C D E F} (f : A → B → C → D → E → F)
    (la : list A) (lb : list B) (lc : list C) (ld : list D) (le : list E)
    : list F :=
  zip_with (λ '(a, b, c) '(d, e), f a b c d e)
    (zip_with (λ '(a, b) c, (a, b, c)) (zip la lb) lc)
    (zip ld le).

Definition RectangularElements_to_inp (self : RectangularElements)
    : option (list element_record) :=
  sh ← shape2 (re_nodes self);
  let all_nodes := np.add_scalar 1 (np.ravel_multi_index (np.indices sh) sh) in
  let right_nodes := np.ravel (np.getslice all_nodes s_but_last s_from_1) in
  let key_nodes := np.ravel (np.getslice all_nodes s_but_last s_but_last) in
  let top_nodes := np.ravel (np.getslice all_nodes s_from_1 s_but_last) in
  let topright_nodes := np.ravel (np.getslice all_nodes s_from_1 s_from_1) in
  Some (zip5 (λ elem_num tn kn rn trn, [elem_num; tn; kn; rn; trn])
          (element_nums self) top_nodes key_nodes right_nodes topright_nodes).

(** The mesh of a phase image: its node grid and the elements on it. *)
Definition mesh_elements {A} (intph_img : np.ndarray A)
    : option (list element_record) :=
  nodes ← from_intph_img intph_img;
  RectangularElements_to_inp (RectangularElements_init nodes).

(** The number of the grid node at [(row, col)] of a grid with [w + 1]
    columns: 1-based, row-major. *)
Definition node_at (w row col : nat) : nat := 1 + (row * (w + 1) + col).

(** *** Node sets *)

(** One subscript of a numpy index expression: an integer or a slice. *)
Inductive subscript : Type :=
  | Idx (i : Z)
  | Slc (s : np.slice).

(** The positions one subscript selects along an axis of length [n]. *)
Definition selected (n : nat) (s : subscript) : option (list nat) :=
  match s with
  | Idx i => i' ← np.index n i; Some [i']
  | Slc s => let '(lo, hi) := np.slice_bounds n s in Some (seq lo (hi - lo))
  end.

(** [a[sl].ravel()] for a pair of subscripts [sl]: the selected rows crossed
    with the selected columns, in raster order. An integer subscript drops
    its axis, which [ravel] does not see. *)
Definition getitem_ravel `{Inhabited A} (a : np.ndarray A)
    (sl : subscript * subscript) : option (list A) :=
  rows ← selected (np.shape a).1 sl.1;
  cols ← selected (np.shape a).2 sl.2;
  Some (r ← rows; c ← cols; [np.item_total a r c]).

(** ["top" is image rather than matrix convention] *)
Definition sides : gmap string (subscript * subscript) :=
  list_to_map [
    ("LeftSurface",  (Slc s_all, Idx 0));
    ("RightSurface", (Slc s_all, Idx (-1)));
    ("BotmSurface",  (Idx 0, Slc s_inner));
    ("TopSurface",   (Idx (-1), Slc s_inner));
    ("BotmLeft",     (Idx 0, Idx 0));
    ("TopLeft",      (Idx (-1), Idx 0));
    ("BotmRight",    (Idx 0, Idx (-1)));
    ("TopRight",     (Idx (-1), Idx (-1)))
  ].

(** [@dataclass(eq=False)]: two node sets are equal only when they are the
    same object. [ns_ident] is the identity of the object. *)
Record NodeSet : Type := {
  ns_ident : nat;
  ns_name : string;
  node_inds : list nat
}.

(** [NodeSet.from_side_name(name, nodes)], building the object [ident].
    A name that is not a key of [sides] is a [KeyError]; a grid that is not
    of rank two fails to unpack [np.indices]. *)
Definition from_side_name (ident : nat) (name : string) (nodes : GridNodes)
    : option NodeSet :=
  sl ← sides !! name;
  sh ← shape2 nodes;
  let '(row_ind, col_ind) := np.indices sh in
  rows ← getitem_ravel row_ind sl;
  cols ← getitem_ravel col_ind sl;
  let node_inds :=
    (λ x, 1 + x) <$> zip_with (λ r c, r * sh.2 + c) rows cols in
  Some {| ns_ident := ident; ns_name := name; node_inds := node_inds |}.

(** One record of the deck. *)
Inductive inp_record : Type :=
  | NsetHeader (name : string)          (* [*Nset, nset={name}] *)
  | NsetLine (i : nat)                  (* [{i:d}] *)
  | EquationHeader (terms : nat)        (* [*Equation] and the term count *)
  | EquationTerm (who : string + Z) (dof : nat) (coeff : Z)
                                        (* [{who}, {dof}, {coeff}.] *)
  | BoundaryLine (who : string + Z) (first_dof last_dof : Z)
      (displacement : R).               (* [*Boundary, type=displacement] *)

Definition NodeSet_to_inp (self : NodeSet) : list inp_record :=
  NsetHeader (ns_name self) :: (NsetLine <$> node_inds self).

(** *** Equations *)

(** [Union[NodeSet, int]]: a node set or a node number. *)
Inductive target : Type :=
  | OfSet (ns : NodeSet)
  | OfNode (n : Z).

(** [str(t)]: [NodeSet.__str__] is the name of the set. *)
Definition target_str (t : target) : string + Z :=
  match t with
  | OfSet ns => inl (ns_name ns)
  | OfNode n => inr n
  end.

(** [a == b] between targets: identity for node sets, value for node numbers. *)
Definition target_eqb (a b : target) : bool :=
  match a, b with
  | OfSet x, OfSet y => bool_decide (ns_ident x = ns_ident y)
  | OfNode n, OfNode m => bool_decide (n = m)
  | _, _ => false
  end.

(** [x in p] for a list [p]. *)
Definition contains (p : list target) (x : target) : bool :=
  existsb (target_eqb x) p.

Inductive Equation : Type :=
  | EqualityEquation (nsets : list target) (dof : nat)
  | DriveEquation (nsets : list target) (dof : nat) (drive_node : target).

Definition Equation_to_inp (self : Equation) : option (list inp_record) :=
  match self with
  | EqualityEquation nsets dof =>
      n0 ← nsets !! 0; n1 ← nsets !! 1;
      Some [EquationHeader 2;
            EquationTerm (target_str n0) dof 1;
            EquationTerm (target_str n1) dof (-1)]
  | DriveEquation nsets dof drive_node =>
      n0 ← nsets !! 0; n1 ← nsets !! 1;
      Some [EquationHeader 3;
            EquationTerm (target_str n0) dof 1;
            EquationTerm (target_str n1) dof (-1);
            EquationTerm (target_str drive_node) dof 1]
  end.

(** *** Periodic boundary condition *)

Record PeriodicBoundaryCondition : Type := {
  nset : target;
  first_dof : Z;
  last_dof : Z;
  displacement : R;
  pbc_nodes : GridNodes;
  driven_nset : NodeSet;
  node_pairs : list (list target);
  eq_pairs : list (list Equation)
}.

(** [x in range(a, b)] *)
Definition in_range (x : nat) (a b : Z) : bool :=
  bool_decide (a ≤ Z.of_nat x < b)%Z.

(** [PeriodicBoundaryCondition(nset, first_dof, last_dof, displacement,
    nodes).__post_init__]. The six node sets are new objects, numbered from
    [next] in the order Python evaluates the calls of [make_set]. *)
Definition PeriodicBoundaryCondition_init (next : nat)
    (nset : target) (first_dof last_dof : Z) (displacement : R)
    (nodes : GridNodes)
    : option PeriodicBoundaryCondition :=
  let make_set ident name := from_side_name ident name nodes in
  let ndim := length (gn_shape nodes) in
  driven_nset ← make_set next "RightSurface";
  left ← make_set (next + 1) "LeftSurface";
  botm ← make_set (next + 2) "BotmSurface";
  top ← make_set (next + 3) "TopSurface";
  botm_right ← make_set (next + 4) "BotmRight";
  top_right ← make_set (next + 5) "TopRight";
  let node_pairs := [
    [OfSet left; OfSet driven_nset];
    [OfSet botm; OfSet top];
    [OfSet botm_right; OfSet top_right]
  ] in
  let eq_pairs :=
    (λ p,
      if negb (contains p (OfSet driven_nset))
      then (λ x, EqualityEquation p (x + 1)) <$> seq 0 ndim
      else (λ x,
              if in_range x (first_dof - 1) last_dof
              then DriveEquation p (x + 1) nset
              else EqualityEquation p (x + 1)) <$> seq 0 ndim)
    <$> node_pairs in
  Some {| nset := nset; first_dof := first_dof; last_dof := last_dof;
          displacement := displacement;
          pbc_nodes := nodes; driven_nset := driven_nset;
          node_pairs := node_pairs; eq_pairs := eq_pairs |}.

Definition target_to_inp (t : target) : option (list inp_record) :=
  match t with
  | OfSet ns => Some (NodeSet_to_inp ns)
  | OfNode _ => None          (* an [int] has no [to_inp] *)
  end.

(** [PeriodicBoundaryCondition.to_inp]: per pair the two node sets and the
    two equations, then the [*Boundary] line of the parent class. *)
Definition PeriodicBoundaryCondition_to_inp (self : PeriodicBoundaryCondition)
    : option (list inp_record) :=
  blocks ← mapM (λ '(node_pair, eq_pair),
      n0 ← node_pair !! 0; n1 ← node_pair !! 1;
      e0 ← eq_pair !! 0; e1 ← eq_pair !! 1;
      r0 ← target_to_inp n0; r1 ← target_to_inp n1;
      q0 ← Equation_to_inp e0; q1 ← Equation_to_inp e1;
      Some (r0 ++ r1 ++ q0 ++ q1))
    (zip (node_pairs self) (eq_pairs self));
  Some (mjoin blocks ++
        [BoundaryLine (target_str (nset self)) (first_dof self) (last_dof self)
           (displacement self)]).

(** *** Element sets *)

Record ElementSet : Type := {
  matl_code : Z;
  elements : list nat
}.

(** [np.unique]: the distinct values, sorted. *)
Definition unique (l : list Z) : list Z := merge_sort Z.le (remove_dups l).

(** [a[mask]] for a boolean mask as long as [a]. *)
Definition select {A} (a : list A) (mask : list bool) : list A :=
  (zip a mask) ≫= λ '(x, b), if b : bool then [x] else [].

(** [ElementSet.from_intph_image] *)
Definition from_intph_image (intph_img : np.ndarray Z) : list ElementSet :=
  let intph_img := np.ravel intph_img in
  let uniq := unique intph_img in
  let indices := seq 1 (length intph_img) in
  (λ matl_code,
     {| matl_code := matl_code;
        elements :=
          select indices ((λ v, bool_decide (v = matl_code)) <$> intph_img) |})
  <$> uniq.

(** ** Helper functions *)

(** *** The distance transform of scipy *)

(** The positions of the zero (filler) pixels, in raster order. *)
Definition zero_pixels (input : np.ndarray Z) : list (nat * nat) :=
  let '(h, w) := np.shape input in
  r ← seq 0 h; c ← seq 0 w;
  if decide (np.item input r c = Some 0%Z) then [(r, c)] else [].

(** The square of the Euclidean distance between two pixels. *)
Definition sq_dist (p q : nat * nat) : Z :=
  ((Z.of_nat p.1 - Z.of_nat q.1) ^ 2 + (Z.of_nat p.2 - Z.of_nat q.2) ^ 2)%Z.

(** The square of the distance from [p] to the nearest of [q :: qs]. *)
Definition nearest_sq (p : nat * nat) (q : nat * nat) (qs : list (nat * nat))
    : Z :=
  foldr (λ q' d, Z.min (sq_dist p q') d) (sq_dist p q) qs.

(** Modelled from the documentation of scipy:
    [scipy.ndimage.distance_transform_edt(input)] is, at every pixel, the
    Euclidean distance to the nearest zero pixel of [input]. scipy is not
    part of the repository. The distance is the float square root of an
    integer; the model keeps that integer, the squared distance. The
    classifier only compares a distance with integers, and for a correctly
    rounded square root and integers below 2^26 the comparisons of the
    squares give the same answers ([dist_ne_0], [dist_gt]).
    [None] is an input without any zero pixel: the classifier's docstring
    excludes it, and the documentation does not say what scipy computes
    there; scipy does not raise, see [edt_array]. *)
Definition distance_transform_edt (input : np.ndarray Z)
    : option (np.ndarray Z) :=
  match zero_pixels input with
  | [] => None
  | q :: qs =>
      let '(h, w) := np.shape input in
      Some (np.tabulate h w (λ r c, nearest_sq (r, c) q qs))
  end.

(** The array scipy returns, for every input. scipy does not check its
    input: on an input without a zero pixel it still returns an array of
    the shape of the input, of numbers that its documentation does not
    give. These items are left open: [unspecified input r c] stands for
    the item at [(r, c)], in the representation of the distances by their
    squares (a non-negative number is kept as the least integer that is
    not below its square, which compares with the integer thresholds as
    the number does). *)
Definition edt_array (unspecified : np.ndarray Z → nat → nat → Z)
    (input : np.ndarray Z) : np.ndarray Z :=
  match distance_transform_edt input with
  | Some d => d
  | None =>
      np.tabulate (np.shape input).1 (np.shape input).2 (unspecified input)
  end.

(** [dist != 0] and [dist > n], on the squared distance. *)
Definition dist_ne_0 (d2 : Z) : bool := negb (bool_decide (d2 = 0%Z)).
Definition dist_gt (d2 : Z) (n : Z) : bool :=
  bool_decide (n < 0 ∨ n * n < d2)%Z.

(** *** The interphase classifier *)

(** A numpy boolean seen as an unsigned byte ([.view("u1")]). *)
Definition u1_of_bool (b : bool) : Z := if b then 1%Z else 0%Z.

(** [x += b] on an unsigned byte: the sum wraps around at 256. *)
Definition iadd_u1 (x : Z) (b : bool) : Z := ((x + u1_of_bool b) `mod` 256)%Z.

(** [sorted(l)] on integers. *)
Definition sorted (l : list Z) : list Z := merge_sort Z.le l.

(** [assign_intph(microstructure, num_layers_list)] *)
Definition assign_intph (microstructure : np.ndarray Z)
    (num_layers_list : list Z) : option (np.ndarray Z) :=
  dists ← distance_transform_edt microstructure;
  let intph_img := np.map (λ d, u1_of_bool (dist_ne_0 d)) dists in
  Some (foldl
          (λ intph_img num_layers,
             np.map2 iadd_u1 intph_img
               (np.map (λ d, dist_gt d num_layers) dists))
          intph_img (sorted num_layers_list)).

(** [a[lo:hi]] with non-negative bounds. *)
Definition s_range (lo hi : nat) : np.slice :=
  np.Slice (Some (Z.of_nat lo)) (Some (Z.of_nat hi)).

(** [periodic_assign_intph(microstructure, num_layers_list)]; [copy] is the
    identity on values, the storage of the arrays is the matter of
    [Img.periodic_assign_intph]. *)
Definition periodic_assign_intph (microstructure : np.ndarray Z)
    (num_layers_list : list Z) : option (np.ndarray Z) :=
  let tiled := np.tile microstructure (3, 3) in
  let '(dimx, dimy) := np.shape microstructure in
  intph_tiled ← assign_intph tiled num_layers_list;
  let intph :=
    np.getslice intph_tiled
      (s_range dimx (dimx + dimx)) (s_range dimy (dimy + dimy)) in
  Some intph.

(** *** Viscoelastic material *)

Record complex : Type := Complex { real : R; imag : R }.

(** [np.log10] on a positive float and [10 ** x], over the real numbers. *)
Definition log10 (x : R) : R := (ln x / ln 10)%R.
Definition pow10 (x : R) : R := Rpower 10 x.

(** [np.argmax]: the first position of the largest item; a [ValueError] on
    an empty array. *)
Fixpoint argmax_from (best_i : nat) (best : R) (i : nat) (l : list R) : nat :=
  match l with
  | [] => best_i
  | x :: l' =>
      if Rlt_dec best x then argmax_from i x (S i) l'
      else argmax_from best_i best (S i) l'
  end.

Definition argmax (l : list R) : option nat :=
  match l with
  | [] => None
  | x :: l' => Some (argmax_from 0 x 1 l')
  end.

(** The fields of [ViscoelasticMaterial] that the table depends on; the
    element set, the density and the long-term modulus only enter the
    records written by [Material.to_inp]. *)
Record ViscoelasticMaterial : Type := {
  poisson : R;
  freq : list R;
  youngs_cplx : list complex;
  shift : R;
  left_broadening : R;
  right_broadening : R
}.

(** [ViscoelasticMaterial.apply_shift]. [freq[:i] = e] puts the [i] items
    of [e] in place of the first [i] items of [freq]. The arithmetic is
    that of the real numbers: the rounding of binary64 is not modelled,
    and the ratio [imag / real] is the quotient of the real numbers, which
    is numpy's only for a real part that is not zero (numpy gives an
    infinity or a NaN there, the real numbers have neither). What is
    proved about the pivot assumes real parts that are not zero. *)
Definition apply_shift (self : ViscoelasticMaterial) : option (list R) :=
  let freq := (λ x, log10 x - shift self)%R <$> freq self in
  i ← argmax (zip_with Rdiv (imag <$> youngs_cplx self)
                            (real <$> youngs_cplx self));
  f ← freq !! i;
  let freq :=
    ((λ x, left_broadening self * (x - f) + f)%R <$> take i freq)
      ++ drop i freq in
  let freq :=
    take i freq
      ++ ((λ x, right_broadening self * (x - f) + f)%R <$> drop i freq) in
  Some (pow10 <$> freq).

(** [z / k] for a complex [z] and a real [k]. *)
Definition cdiv (z : complex) (k : R) : complex :=
  Complex (real z / k) (imag z / k).

(** [ViscoelasticMaterial.normalize_modulus]: [(wgstar, wkstar)], with
    the arithmetic of the real numbers; the rounding of binary64, which
    differs between the shear and the bulk path, is not modelled. *)
Definition normalize_modulus (self : ViscoelasticMaterial)
    : option (list complex * list complex) :=
  let shear_cplx :=
    (λ z, cdiv z (2 * (1 + poisson self))) <$> youngs_cplx self in
  let bulk_cplx :=
    (λ z, cdiv z (3 * (1 - 2 * poisson self))) <$> youngs_cplx self in
  shear_inf ← real <$> shear_cplx !! 0;
  let wgstar :=
    (λ z, Complex (imag z / shear_inf) (1 - real z / shear_inf)) <$> shear_cplx in
  bulk_inf ← real <$> bulk_cplx !! 0;
  let wkstar :=
    (λ z, Complex (imag z / bulk_inf) (1 - real z / bulk_inf)) <$> bulk_cplx in
  Some (wgstar, wkstar).

(** One row of the [*Viscoelastic] table: the fields of
    [f"{wgr:.6e}, {wgi:.6e}, {wkr:.6e}, {wki:.6e}, {f:.6e}\n"], in order. *)
Record table_row : Type := Row { wgr : R; wgi : R; wkr : R; wki : R; row_f : R }.

(** [ViscoelasticMaterial.to_inp], the rows after the
    [*Viscoelastic, frequency=TABULAR] line. The locals [real] and [imag]
    of the source are [real_] and [imag_] here, next to the projections. *)
Definition ViscoelasticMaterial_to_inp (self : ViscoelasticMaterial)
    : option (list table_row) :=
  youngs_inf ← real <$> youngs_cplx self !! 0;
  let real_ := (λ z, imag z / youngs_inf)%R <$> youngs_cplx self in
  let imag_ := (λ z, 1 - real z / youngs_inf)%R <$> youngs_cplx self in
  freq ← apply_shift self;
  Some (zip5 Row real_ imag_ real_ imag_ freq).

(** ** Arrays as objects: buffers, views and copies *)

(** A store of buffers. An array object refers to a buffer by its address;
    numpy builds a new buffer for the result of an operation, a view shares
    the buffer of its base, and an assignment to a slice or an in-place
    operator writes into the buffer. Addresses are positions in the store
    and are never used again. An exception leaves the store as it is at
    the point of the [raise]. *)
Module mem.

Inductive outcome (A : Type) : Type :=
  | Returned (a : A)
  | Raised.
Arguments Returned {A} _.
Arguments Raised {A}.

Definition M (B A : Type) : Type := list B → outcome A * list B.

Definition ret {B A} (a : A) : M B A := λ σ, (Returned a, σ).

Definition bind {B A A'} (m : M B A) (k : A → M B A') : M B A' :=
  λ σ, match m σ with
       | (Returned a, σ') => k a σ'
       | (Raised, σ') => (Raised, σ')
       end.

Definition raise {B A} : M B A := λ σ, (Raised, σ).

(** A new buffer, at the next address. *)
Definition new {B} (b : B) : M B nat :=
  λ σ, (Returned (length σ), σ ++ [b]).

Definition get {B} (a : nat) : M B B :=
  λ σ, match σ !! a with
       | Some b => (Returned b, σ)
       | None => (Raised, σ)
       end.

Definition put {B} (a : nat) (b : B) : M B unit :=
  λ σ, if decide (a < length σ) then (Returned (), <[a := b]> σ)
       else (Raised, σ).

(** [for x in l: body(x)] *)
Fixpoint for_each {B X} (l : list X) (body : X → M B unit) : M B unit :=
  match l with
  | [] => ret ()
  | x :: l' => bind (body x) (λ _, for_each l' body)
  end.

End mem.

#[global] Instance mem_ret {B} : MRet (mem.M B) := λ A, mem.ret.
#[global] Instance mem_bind {B} : MBind (mem.M B) := λ A A' k m, mem.bind m k.

(** *** The classifier on array objects *)

Module Img.

Abbreviation M := (mem.M (np.ndarray Z)).

(** An array object of rank two: a window on a buffer. *)
Record array : Type := Array {
  base : nat;               (* the address of the buffer *)
  origin : nat * nat;       (* where the window starts in the buffer *)
  extent : nat * nat        (* [shape] *)
}.

(** What the window [v] shows of the buffer [b]. *)
Definition window (b : np.ndarray Z) (v : array) : np.ndarray Z :=
  np.tabulate (extent v).1 (extent v).2
    (λ r c, np.item_total b ((origin v).1 + r) ((origin v).2 + c)).

(** The items of an array object. *)
Definition value (v : array) : M (np.ndarray Z) :=
  b ← mem.get (base v); mret (window b v).

(** A new array that owns its buffer. *)
Definition make (x : np.ndarray Z) : M array :=
  a ← mem.new x; mret (Array a (0, 0) (np.shape x)).

(** [v[s0, s1]]: a view, on the buffer of [v]. *)
Definition getslice (v : array) (s0 s1 : np.slice) : array :=
  let '(lo0, hi0) := np.slice_bounds (extent v).1 s0 in
  let '(lo1, hi1) := np.slice_bounds (extent v).2 s1 in
  Array (base v) ((origin v).1 + lo0, (origin v).2 + lo1)
        (hi0 - lo0, hi1 - lo1).

(** [v.copy()] *)
Definition copy (v : array) : M array := x ← value v; make x.

(** [np.tile(v, reps)] *)
Definition tile (v : array) (reps : nat * nat) : M array :=
  x ← value v; make (np.tile x reps).

(** [distance_transform_edt(v)]: a new array, for every input; the call
    does not raise. *)
Definition distance_transform_edt
    (unspecified : np.ndarray Z → nat → nat → Z) (v : array) : M array :=
  x ← value v; make (edt_array unspecified x).

(** [(dists != 0).view("u1")]: the comparison builds an array of booleans,
    and the view is on that array's buffer. *)
Definition ne_0_view_u1 (dists : array) : M array :=
  d ← value dists; make (np.map (λ d2, u1_of_bool (dist_ne_0 d2)) d).

(** [dists > n]: a new array of booleans. *)
Definition gt (dists : array) (n : Z) : M array :=
  d ← value dists; make (np.map (λ d2, u1_of_bool (dist_gt d2 n)) d).

(** The buffer [b] with the window [v] holding the items of [x]. *)
Definition overlay (b : np.ndarray Z) (v : array) (x : np.ndarray Z)
    : np.ndarray Z :=
  np.tabulate (np.shape b).1 (np.shape b).2
    (λ r c,
       if decide ((origin v).1 ≤ r < (origin v).1 + (extent v).1 ∧
                  (origin v).2 ≤ c < (origin v).2 + (extent v).2)
       then np.item_total x (r - (origin v).1) (c - (origin v).2)
       else np.item_total b r c).

(** [v += w] on unsigned bytes, in place. *)
Definition iadd (v w : array) : M unit :=
  x ← value v; y ← value w;
  b ← mem.get (base v);
  mem.put (base v)
    (overlay b v (np.map2 (λ a c, ((a + c) `mod` 256)%Z) x y)).

(** [assign_intph(microstructure, num_layers_list)] *)
Definition assign_intph (unspecified : np.ndarray Z → nat → nat → Z)
    (microstructure : array) (num_layers_list : list Z) : M array :=
  dists ← distance_transform_edt unspecified microstructure;
  intph_img ← ne_0_view_u1 dists;
  mem.for_each (sorted num_layers_list)
    (λ num_layers, mask ← gt dists num_layers; iadd intph_img mask);;
  mret intph_img.

(** [periodic_assign_intph(microstructure, num_layers_list)] *)
Definition periodic_assign_intph (unspecified : np.ndarray Z → nat → nat → Z)
    (microstructure : array) (num_layers_list : list Z) : M array :=
  tiled ← tile microstructure (3, 3);
  let '(dimx, dimy) := extent microstructure in
  intph_tiled ← assign_intph unspecified tiled num_layers_list;
  (* trim tiling *)
  let intph :=
    getslice intph_tiled
      (s_range dimx (dimx + dimx)) (s_range dimy (dimy + dimy)) in
  (* free intph's view on intph_tiled's memory *)
  intph ← copy intph;
  mret intph.

End Img.

(** *** The frequency transform on array objects *)

Module Vec.

Inductive buffer : Type :=
  | Reals (l : list R)
  | Complexes (l : list complex).

Abbreviation M := (mem.M buffer).

(** An array object of rank one. *)
Inductive array : Type :=
  | Whole (base : nat)                (* the array that owns the buffer *)
  | Window (base : nat) (lo hi : nat) (* [a[lo:hi]], a view *)
  | RealPart (base : nat)             (* [z.real], a view *)
  | ImagPart (base : nat).            (* [z.imag], a view *)

(** The items of a real array object. *)
Definition value (v : array) : M (list R) :=
  match v with
  | Whole a =>
      b ← mem.get a;
      match b with Reals l => mret l | Complexes _ => mem.raise end
  | Window a lo hi =>
      b ← mem.get a;
      match b with
      | Reals l => mret (take (hi - lo) (drop lo l))
      | Complexes _ => mem.raise
      end
  | RealPart a =>
      b ← mem.get a;
      match b with Complexes l => mret (real <$> l) | Reals _ => mem.raise end
  | ImagPart a =>
      b ← mem.get a;
      match b with Complexes l => mret (imag <$> l) | Reals _ => mem.raise end
  end.

(** [z.real] and [z.imag] for an array that owns its buffer: views. *)
Definition real_of (v : array) : M array :=
  match v with Whole a => mret (RealPart a) | _ => mem.raise end.

Definition imag_of (v : array) : M array :=
  match v with Whole a => mret (ImagPart a) | _ => mem.raise end.

(** A new real array that owns its buffer. *)
Definition make (l : list R) : M array := a ← mem.new (Reals l); mret (Whole a).

(** [f(v)] and [f(v, w)] item by item: a new array. *)
Definition map (f : R → R) (v : array) : M array :=
  x ← value v; make (f <$> x).

Definition map2 (f : R → R → R) (v w : array) : M array :=
  x ← value v; y ← value w;
  if decide (length x = length y) then make (zip_with f x y) else mem.raise.

(** [np.argmax(v)] *)
Definition argmax (v : array) : M nat :=
  x ← value v;
  match argmax x with Some i => mret i | None => mem.raise end.

(** [v[i]] for [i >= 0]: a scalar, not a view. *)
Definition item (v : array) (i : nat) : M R :=
  x ← value v;
  match x !! i with Some f => mret f | None => mem.raise end.

(** [v[lo:hi]] for an array that owns its buffer, with the bounds of
    Python's slices. *)
Definition getslice (v : array) (s : np.slice) : M array :=
  x ← value v;
  match v with
  | Whole a =>
      let '(lo, hi) := np.slice_bounds (length x) s in mret (Window a lo hi)
  | _ => mem.raise
  end.

(** [v[...] = w] for a view [v] on a real buffer: the items of [w] are
    written into the buffer. The shapes must agree. *)
Definition assign (v w : array) : M unit :=
  y ← value w;
  match v with
  | Window a lo hi =>
      b ← mem.get a;
      match b with
      | Reals l =>
          if decide (length y = hi - lo ∧ hi ≤ length l)
          then mem.put a (Reals (take lo l ++ y ++ drop hi l))
          else mem.raise
      | Complexes _ => mem.raise
      end
  | _ => mem.raise
  end.

(** The material as an object: its arrays are references. *)
Record ViscoelasticMaterial : Type := {
  freq : array;
  youngs_cplx : array;
  shift : R;
  left_broadening : R;
  right_broadening : R
}.

(** The statement [freq[s] = c * (freq[s] - f) + f]: the right-hand side
    is evaluated first, each operation into a new array, and then written
    into the window [freq[s]]. *)
Definition scale_about (freq : array) (s : np.slice) (c f : R) : M unit :=
  src ← getslice freq s;
  t1 ← map (λ x, x - f)%R src;
  t2 ← map (λ x, c * x)%R t1;
  t3 ← map (λ x, x + f)%R t2;
  dst ← getslice freq s;
  assign dst t3.

(** [ViscoelasticMaterial.apply_shift] *)
Definition apply_shift (self : ViscoelasticMaterial) : M array :=
  t ← map log10 (freq self);
  freq ← map (λ x, x - shift self)%R t;
  (* shift relative to tand peak *)
  im ← imag_of (youngs_cplx self);
  re ← real_of (youngs_cplx self);
  tand ← map2 Rdiv im re;
  i ← argmax tand;
  f ← item freq i;
  scale_about freq (np.Slice None (Some (Z.of_nat i)))
    (left_broadening self) f;;
  scale_about freq (np.Slice (Some (Z.of_nat i)) None)
    (right_broadening self) f;;
  map pow10 freq.

End Vec.

(** ** More of the source *)

(** *** The node block *)

(** One record of the [*Node] block: the fields of
    [f"{node_num:d},\t{x:.6e},\t{y:.6e}\n"], in order. *)
Record node_record : Type := NodeRecord { nr_num : nat; nr_x : R; nr_y : R }.

(** [zip(a, b, c)] with a function on the triples. *)
Definition zip3 {A B C D} (f : A → B → C → D)
    (la : list A) (lb : list B) (lc : list C) : list D :=
  zip_with (λ '(a, b) c, f a b c) (zip la lb) lc.

(** [GridNodes.to_inp]. [scale] is the field of the object that the record
    [GridNodes] leaves out. [self.scale * np.indices(self.shape)] unpacks
    into two grids for a shape of rank two only. The record of the virtual
    node is written with the [x] and [y] the loop left behind, which are
    unbound when the loop did not run. *)
Definition GridNodes_to_inp (self : GridNodes) (scale : R)
    : option (list node_record) :=
  sh ← shape2 self;
  let '(row_ind, col_ind) := np.indices sh in
  let y_pos := np.map (λ r, scale * INR r)%R row_ind in
  let x_pos := np.map (λ c, scale * INR c)%R col_ind in
  let written :=
    zip3 NodeRecord (node_nums self) (np.ravel x_pos) (np.ravel y_pos) in
  left_behind ← last written;
  Some (written ++
        [NodeRecord (virtual_node self) (nr_x left_behind) (nr_y left_behind)]).

(** *** [in_sorted] *)

(** [np.searchsorted(arr, val)] for one key, as numpy's binary search for
    the left side runs it: [lo] and [hi] close in on the position, and the
    item in the middle is compared with the key. The distance of [lo] and
    [hi] shrinks with every round, so [length arr] rounds are enough. *)
Fixpoint bisect_left (rounds : nat) (arr : list Z) (val : Z) (lo hi : nat)
    : nat :=
  match rounds with
  | 0 => lo
  | S rounds' =>
      if decide (lo < hi) then
        let mid := lo + (hi - lo) `div` 2 in
        match arr !! mid with
        | Some x =>
            if decide (x < val)%Z
            then bisect_left rounds' arr val (mid + 1) hi
            else bisect_left rounds' arr val lo mid
        | None => lo
        end
      else lo
  end.

Definition searchsorted (arr : list Z) (val : Z) : nat :=
  bisect_left (length arr) arr val 0 (length arr).

(** [in_sorted(arr, val)] *)
Definition in_sorted (arr : list Z) (val : Z) : bool :=
  let index := searchsorted arr val in
  if decide (index < length arr)
  then bool_decide (Some val = arr !! index)
  else false.

(** *** [load_viscoelasticity] *)

#[global] Instance Rle_decision (x y : R) : Decision (x <= y)%R := Rle_dec x y.

(** [np.argsort(keys)]: the positions of the items in the order of
    non-decreasing keys. numpy's default sort does not promise an order
    for equal keys; the merge sort of the model keeps them in the order of
    their positions. *)
Definition argsort (keys : list R) : list nat :=
  merge_sort (λ i j, default 0%R (keys !! i) <= default 0%R (keys !! j))%R
    (seq 0 (length keys)).

(** [a[ind]] for an array of positions [ind]; a position outside the array
    is an [IndexError]. *)
Definition take_at {A} (a : list A) (ind : list nat) : option (list A) :=
  mapM (λ i, a !! i) ind.

(** [load_viscoelasticity], from the rows that [np.loadtxt] read: one row
    per sample, holding the frequency and the real and imaginary parts of
    the modulus. [np.loadtxt(..., unpack=True)] gives the three columns as
    arrays for a file of two samples or more; a shorter file gives three
    numbers or nothing to unpack, and the function raises. *)
Definition load_viscoelasticity (rows : list (R * R * R))
    : option (list R * list complex) :=
  guard (2 ≤ length rows);;
  let freq := (λ row, row.1.1) <$> rows in
  let youngs_real := (λ row, row.1.2) <$> rows in
  let youngs_imag := (λ row, row.2) <$> rows in
  let youngs := zip_with Complex youngs_real youngs_imag in
  let sortind := argsort freq in
  freq' ← take_at freq sortind;
  youngs' ← take_at youngs sortind;
  Some (freq', youngs').

(** ** Statements of the specification *)

(** The connectivity the specification lists for the element of pixel
    [(row, col)]: the nodes at [(row, col)], [(row + 1, col)],
    [(row + 1, col + 1)], [(row, col + 1)]. *)
Definition connectivity_in_spec (w row col : nat) : list nat :=
  [node_at w row col; node_at w (row + 1) col;
   node_at w (row + 1) (col + 1); node_at w row (col + 1)].

(** The connectivity the mesh builder writes: the nodes at [(row + 1, col)],
    [(row, col)], [(row, col + 1)], [(row + 1, col + 1)]. *)
Definition connectivity_written (w row col : nat) : list nat :=
  [node_at w (row + 1) col; node_at w row col;
   node_at w row (col + 1); node_at w (row + 1) (col + 1)].

(** Twice the signed area of a quadrilateral whose corners are given as
    (row, col) grid positions, in the coordinates the node block writes:
    [x] is the column and [y] is the row. Positive is counter-clockwise. *)
Definition signed_area2 (corners : list (nat * nat)) : Z :=
  let xy := (λ p : nat * nat, (Z.of_nat p.2, Z.of_nat p.1)) <$> corners in
  match xy with
  | [] => 0%Z
  | p0 :: _ =>
      foldr Z.add 0%Z
        (zip_with (λ p q : Z * Z, (p.1 * q.2 - q.1 * p.2)%Z)
           xy (drop 1 xy ++ [p0]))
  end.

(** The node numbers of a side of the grid; empty when the side cannot be
    built. *)
Definition side_nodes (name : string) (nodes : GridNodes) : list nat :=
  from_option node_inds [] (from_side_name 0 name nodes).

Definition edge_names : list string :=
  ["LeftSurface"; "RightSurface"; "BotmSurface"; "TopSurface"].

(** The edge sets a node is a member of. *)
Definition edges_containing (nodes : GridNodes) (n : nat) : list string :=
  filter (λ name, n ∈ side_nodes name nodes) edge_names.

(** A node grid of shape [(h, w)], as [GridNodes(shape, scale)] builds it. *)
Definition grid (h w : nat) : GridNodes :=
  {| gn_shape := [h; w]; node_nums := seq 1 (prod_list [h; w]);
     virtual_node := prod_list [h; w] + 1 |}.

(** A filler pixel of a microstructure: a pixel of the image that is zero. *)
Definition is_filler (m : np.ndarray Z) (p : nat * nat) : Prop :=
  np.item m p.1 p.2 = Some 0%Z.

#[global] Instance is_filler_dec m p : Decision (is_filler m p) :=
  decide (np.item m p.1 p.2 = Some 0%Z).

(** [d2] is the square of the Euclidean distance from the pixel [p] to the
    nearest filler pixel of [m]. *)
Definition nearest_filler_sq (m : np.ndarray Z) (p : nat * nat) (d2 : Z)
    : Prop :=
  (∃ q, is_filler m q ∧ sq_dist p q = d2) ∧
  (∀ q, is_filler m q → (d2 ≤ sq_dist p q)%Z).

(** The number of thicknesses that a distance strictly exceeds, the
    distance being given by its square. *)
Definition exceeded (d2 : Z) (thicknesses : list Z) : Z :=
  Z.of_nat (length (filter (λ n, n * n < d2)%Z thicknesses)).

(** The label of one pixel, as [assign_intph] computes it from the squared
    distance of the pixel. *)
Definition pixel_label (num_layers_list : list Z) (d2 : Z) : Z :=
  foldl (λ x num_layers, iadd_u1 x (dist_gt d2 num_layers))
    (u1_of_bool (dist_ne_0 d2)) (sorted num_layers_list).

(** [d2] is the square of the distance from the pixel [p] of an image of
    shape [(H, W)] to the nearest filler pixel of the image repeated three
    times along each axis, [p] being taken in the block in the middle: the
    filler pixel [q] of the block [(a, b)] lies at
    [(a * H + q.1, b * W + q.2)]. *)
Definition nearest_image_sq (m : np.ndarray Z) (H W : nat) (p : nat * nat)
    (d2 : Z) : Prop :=
  (∃ q a b, is_filler m q ∧ a < 3 ∧ b < 3 ∧
     sq_dist (H + p.1, W + p.2) (a * H + q.1, b * W + q.2) = d2) ∧
  (∀ q a b, is_filler m q → a < 3 → b < 3 →
     (d2 ≤ sq_dist (H + p.1, W + p.2)%nat (a * H + q.1, b * W + q.2)%nat)%Z).

(** A material for the examples: two samples, the reference sample first. *)
Definition two_samples : ViscoelasticMaterial :=
  {| poisson := 0; freq := [1; 10]%R;
     youngs_cplx := [Complex 2 1; Complex 4 3];
     shift := 0; left_broadening := 1; right_broadening := 1 |}.

(** One round of the loop of [assign_intph]: the labels after the
    threshold [num_layers], [dists] being the distances. *)
Definition threshold_step (dists : np.ndarray Z) (intph_img : np.ndarray Z)
    (num_layers : Z) : np.ndarray Z :=
  np.map2 iadd_u1 intph_img (np.map (λ d, dist_gt d num_layers) dists).

(** The values a material object refers to, as a material of values. *)
Definition snapshot (self : Vec.ViscoelasticMaterial)
    (fs : list R) (ys : list complex) : ViscoelasticMaterial :=
  {| poisson := 0; freq := fs; youngs_cplx := ys;
     shift := Vec.shift self;
     left_broadening := Vec.left_broadening self;
     right_broadening := Vec.right_broadening self |}.

(** The items of the array a call returned, in the store [τ]; [None] when
    the call raised. *)
Definition contents (τ : list Vec.buffer) (out : mem.outcome Vec.array)
    : option (list R) :=
  match out with
  | mem.Returned (Vec.Whole a) =>
      match τ !! a with
      | Some (Vec.Reals l) => Some l
      | _ => None
      end
  | _ => None
  end.

(** A store for the examples: the frequencies at address 0, the moduli at
    address 1. *)
Definition two_samples_store : list Vec.buffer :=
  [Vec.Reals [1; 10]%R; Vec.Complexes [Complex 2 1; Complex 4 3]].

Definition two_samples_object : Vec.ViscoelasticMaterial :=
  {| Vec.freq := Vec.Whole 0; Vec.youngs_cplx := Vec.Whole 1;
     Vec.shift := 0; Vec.left_broadening := 1; Vec.right_broadening := 1 |}.

(** Small images for the examples. *)
Definition img_1x1 : np.ndarray Z := np.NDArray (1, 1) [1%Z].
Definition img_2x3 : np.ndarray Z := np.NDArray (2, 3) [0; 1; 1; 2; 2; 0]%Z.
Definition img_2x2 : np.ndarray Z := np.NDArray (2, 2) [0; 1; 1; 1]%Z.
Definition img_3x3 : np.ndarray Z :=
  np.NDArray (3, 3) [1; 1; 1; 1; 0; 1; 1; 1; 1]%Z.

(** * Properties *)

Section array_lemmas.
Context {A : Type}.

Lemma length_bind_seq (g : nat → list A) w k h :
  (∀ r, length (g r) = w) → length (seq k h ≫= g) = h * w.
Proof.
  intros Hg. revert k. induction h as [|h IH]; intros k; [done|].
  rewrite <- cons_seq, bind_cons, length_app, Hg, IH. done.
Qed.

Lemma lookup_bind_seq (g : nat → list A) w k h r c :
  (∀ r, length (g r) = w) → r < h → c < w →
  (seq k h ≫= g) !! (r * w + c) = g (k + r) !! c.
Proof.
  intros Hg. revert k r. induction h as [|h IH]; intros k r Hr Hc; [lia|].
  rewrite <- cons_seq, bind_cons. destruct r as [|r].
  - rewrite lookup_app_l by (rewrite Hg; lia).
    by rewrite Nat.add_0_r.
  - rewrite lookup_app_r by (rewrite Hg; lia).
    rewrite Hg. replace (S r * w + c - w) with (r * w + c) by lia.
    rewrite IH by lia. do 2 f_equal. lia.
Qed.

Lemma length_tabulate h w (f : nat → nat → A) :
  length (np.ravel (np.tabulate h w f)) = h * w.
Proof.
  apply length_bind_seq. intros r. by rewrite length_fmap, length_seq.
Qed.

Lemma lookup_tabulate h w (f : nat → nat → A) r c :
  r < h → c < w →
  np.ravel (np.tabulate h w f) !! (r * w + c) = Some (f r c).
Proof.
  intros Hr Hc. unfold np.tabulate; simpl.
  rewrite (lookup_bind_seq _ w) by
    (done || intros; by rewrite length_fmap, length_seq).
  by rewrite list_lookup_fmap, lookup_seq_lt.
Qed.

Lemma shape_tabulate h w (f : nat → nat → A) :
  np.shape (np.tabulate h w f) = (h, w).
Proof. done. Qed.

Lemma tabulate_has_shape h w (f : nat → nat → A) :
  np.has_shape h w (np.tabulate h w f).
Proof. split; [done|apply length_tabulate]. Qed.

Lemma item_tabulate h w (f : nat → nat → A) r c :
  r < h → c < w → np.item (np.tabulate h w f) r c = Some (f r c).
Proof.
  intros Hr Hc. unfold np.item.
  rewrite decide_True by (simpl; lia).
  by apply lookup_tabulate.
Qed.
End array_lemmas.

(** ** Mesh builder *)

Section mesh.

Lemma slice_bounds_but_last n : np.slice_bounds n s_but_last = (0, n - 1).
Proof.
  unfold np.slice_bounds, s_but_last, np.adjust; simpl.
  f_equal. lia.
Qed.

Lemma slice_bounds_from_1 n : np.slice_bounds n s_from_1 = (1 `min` n, n).
Proof.
  unfold np.slice_bounds, s_from_1, np.adjust.
  cbn [np.start np.stop from_option]. f_equal.
  rewrite decide_False by lia. lia.
Qed.

Lemma getslice_eq `{Inhabited A} (a : np.ndarray A) s0 s1 lo0 hi0 lo1 hi1 :
  np.slice_bounds (np.shape a).1 s0 = (lo0, hi0) →
  np.slice_bounds (np.shape a).2 s1 = (lo1, hi1) →
  np.getslice a s0 s1 =
    np.tabulate (hi0 - lo0) (hi1 - lo1)
      (λ r c, np.item_total a (lo0 + r) (lo1 + c)).
Proof. intros H0 H1. unfold np.getslice. by rewrite H0, H1. Qed.

(** The node numbers laid out on the grid: item [(r, c)] of
    [1 + np.ravel_multi_index(np.indices(shape), shape)]. *)
Lemma item_all_nodes h w r c :
  r < h → c < w →
  np.item_total
    (np.add_scalar 1 (np.ravel_multi_index (np.indices (h, w)) (h, w))) r c
  = 1 + (r * w + c).
Proof.
  intros Hr Hc.
  unfold np.item_total, np.item, np.add_scalar,
    np.ravel_multi_index, np.indices.
  cbn [np.shape np.ravel fst snd]. rewrite shape_tabulate.
  rewrite decide_True by done.
  rewrite list_lookup_fmap, lookup_zip_with.
  by rewrite !lookup_tabulate.
Qed.

Lemma GridNodes_init_Some sh :
  0 < prod_list sh →
  GridNodes_init sh =
    Some {| gn_shape := sh; node_nums := seq 1 (prod_list sh);
            virtual_node := prod_list sh + 1 |}.
Proof.
  intros Hp. unfold GridNodes_init.
  destruct (prod_list sh) as [|n] eqn:E; [lia|].
  rewrite seq_S, last_snoc. simpl. done.
Qed.

Lemma zip5_length {A B C D E F} (f : A → B → C → D → E → F) la lb lc ld le n :
  length la = n → length lb = n → length lc = n → length ld = n →
  length le = n → length (zip5 f la lb lc ld le) = n.
Proof.
  intros. unfold zip5. rewrite !length_zip_with. lia.
Qed.

Lemma zip5_lookup {A B C D E F} (f : A → B → C → D → E → F)
    la lb lc ld le i a b c d e :
  la !! i = Some a → lb !! i = Some b → lc !! i = Some c →
  ld !! i = Some d → le !! i = Some e →
  zip5 f la lb lc ld le !! i = Some (f a b c d e).
Proof.
  intros Ha Hb Hc Hd He. unfold zip5.
  rewrite !lookup_zip_with, Ha, Hb, Hc, Hd, He. done.
Qed.

(** C1 (amended). For a phase image of shape [(H, W)] the mesh builder
    writes exactly [H * W] element records, one per pixel: the record of
    pixel [(row, col)] is the one at position [row * W + col], it carries
    the element number [row * W + col + 1], and its connectivity lists the
    grid nodes at [(row + 1, col)], [(row, col)], [(row, col + 1)],
    [(row + 1, col + 1)], in that order, field for field. *)
Theorem mesh_elements_connectivity {A} (img : np.ndarray A) H W :
  np.shape img = (H, W) →
  ∃ elems, mesh_elements img = Some elems ∧ length elems = H * W ∧
    ∀ row col, row < H → col < W →
      elems !! (row * W + col) =
        Some ((row * W + col + 1) :: connectivity_written W row col).
Proof.
  intros Hsh. unfold mesh_elements, from_intph_img. rewrite Hsh.
  rewrite GridNodes_init_Some by (simpl; lia).
  cbn [mbind option_bind]. unfold RectangularElements_to_inp.
  cbn [RectangularElements_init re_nodes element_nums shape2 gn_shape
       mbind option_bind fmap list_fmap prod_list foldr].
  set (a := np.add_scalar 1 _).
  assert (Ha : np.shape a = (H + 1, W + 1)) by done.
  assert (R0 : np.slice_bounds (np.shape a).1 s_but_last = (0, H + 0)).
  { rewrite Ha, slice_bounds_but_last. cbn [fst snd]. f_equal; lia. }
  assert (R1 : np.slice_bounds (np.shape a).1 s_from_1 = (1, H + 1)).
  { rewrite Ha, slice_bounds_from_1. cbn [fst snd]. f_equal; lia. }
  assert (C0 : np.slice_bounds (np.shape a).2 s_but_last = (0, W + 0)).
  { rewrite Ha, slice_bounds_but_last. cbn [fst snd]. f_equal; lia. }
  assert (C1 : np.slice_bounds (np.shape a).2 s_from_1 = (1, W + 1)).
  { rewrite Ha, slice_bounds_from_1. cbn [fst snd]. f_equal; lia. }
  rewrite (getslice_eq a _ _ _ _ _ _ R1 C0), (getslice_eq a _ _ _ _ _ _ R0 C0),
    (getslice_eq a _ _ _ _ _ _ R0 C1), (getslice_eq a _ _ _ _ _ _ R1 C1).
  rewrite !Nat.add_sub, Nat.mul_1_r.
  eexists; split; [done|]. split.
  - apply zip5_length; rewrite ?length_seq, ?length_tabulate; done.
  - intros row col Hr Hc.
    assert (row * W + col < H * W) by nia.
    erewrite zip5_lookup;
      [ | apply lookup_seq_lt; done | by apply lookup_tabulate .. ].
    unfold a. rewrite !item_all_nodes by lia.
    unfold connectivity_written, node_at. f_equal.
    repeat (apply (f_equal2 cons); [lia|]). done.
Qed.

Lemma mesh_elements_connectivity_witness :
  np.shape img_2x3 = (2, 3) ∧
  ∃ elems, mesh_elements img_2x3 = Some elems ∧ length elems = 2 * 3 ∧
    ∀ row col, row < 2 → col < 3 →
      elems !! (row * 3 + col) =
        Some ((row * 3 + col + 1) :: connectivity_written 3 row col).
Proof.
  split; [reflexivity|].
  apply (mesh_elements_connectivity img_2x3 2 3). reflexivity.
Defined.

(** The order the mesh builder writes is counter-clockwise in the
    coordinates of the node block, the order of the specification is
    clockwise. *)
Lemma connectivity_written_ccw row col :
  signed_area2 [(row + 1, col); (row, col); (row, col + 1); (row + 1, col + 1)]
  = 2%Z.
Proof. unfold signed_area2. simpl. lia. Qed.

Lemma connectivity_in_spec_cw row col :
  signed_area2 [(row, col); (row + 1, col); (row + 1, col + 1); (row, col + 1)]
  = (-2)%Z.
Proof. unfold signed_area2. simpl. lia. Qed.

(** C1, as stated, fails on the image of one pixel: the record written is
    [1, 3, 1, 2, 4], and the order of the specification would be
    [1, 1, 3, 4, 2]. *)
Lemma mesh_elements_connectivity_counterexample :
  mesh_elements img_1x1 = Some [[1; 3; 1; 2; 4]] ∧
  connectivity_in_spec 1 0 0 = [1; 3; 4; 2] ∧
  ¬ (∀ (img : np.ndarray Z) H W, np.shape img = (H, W) →
       ∃ elems, mesh_elements img = Some elems ∧
         ∀ row col, row < H → col < W →
           elems !! (row * W + col) =
             Some ((row * W + col + 1) :: connectivity_in_spec W row col)).
Proof.
  split; [reflexivity|]. split; [reflexivity|].
  intros Hclaim.
  destruct (Hclaim img_1x1 1 1 eq_refl) as (elems & Hel & Hrec).
  specialize (Hrec 0 0 ltac:(lia) ltac:(lia)).
  vm_compute in Hel. injection Hel as <-. vm_compute in Hrec. discriminate.
Qed.

End mesh.

(** ** Node sets *)

Section node_sets.

Lemma bind_ext_Forall {A B} (P : A → Prop) (f g : A → list B) l :
  Forall P l → (∀ x, P x → f x = g x) → l ≫= f = l ≫= g.
Proof.
  intros Hl Hfg. induction Hl as [|x l Hx _ IH]; [done|].
  by rewrite !bind_cons, IH, Hfg.
Qed.

Lemma bind_singleton_fmap {A B} (f : A → B) (l : list A) :
  l ≫= (λ x, [f x]) = f <$> l.
Proof. induction l as [|x l IH]; [done|]. by rewrite bind_cons, IH. Qed.

Lemma length_bind_const {A B} (f : A → list B) n l :
  (∀ x, length (f x) = n) → length (l ≫= f) = length l * n.
Proof.
  intros Hf. induction l as [|x l IH]; [done|].
  rewrite bind_cons, length_app, Hf, IH. simpl. lia.
Qed.

Lemma zip_with_bind2 {A B C D E} (g : C → D → E) (f1 : A → B → C)
    (f2 : A → B → D) (rows : list A) (cols : list B) :
  zip_with g (r ← rows; c ← cols; [f1 r c]) (r ← rows; c ← cols; [f2 r c])
  = r ← rows; c ← cols; [g (f1 r c) (f2 r c)].
Proof.
  induction rows as [|r rows IH]; [done|].
  rewrite !bind_cons, zip_with_app, IH.
  - f_equal. rewrite !bind_singleton_fmap.
    by rewrite zip_with_fmap_l, zip_with_fmap_r, zip_with_diag.
  - by rewrite !bind_singleton_fmap, !length_fmap.
Qed.

Lemma fmap_bind2 {A B C D} (g : C → D) (f : A → B → C)
    (rows : list A) (cols : list B) :
  g <$> (r ← rows; c ← cols; [f r c]) = r ← rows; c ← cols; [g (f r c)].
Proof.
  induction rows as [|r rows IH]; [done|].
  rewrite !bind_cons, fmap_app, IH. f_equal.
  rewrite !bind_singleton_fmap. by rewrite <- list_fmap_compose.
Qed.

Lemma index_lt n i i' : np.index n i = Some i' → i' < n.
Proof.
  unfold np.index. intros Hi. repeat case_decide; simplify_eq; try lia.
Qed.

Lemma slice_bounds_le n s : (np.slice_bounds n s).2 ≤ n.
Proof.
  unfold np.slice_bounds, np.adjust. destruct s as [lo [hi|]];
    cbn [np.start np.stop from_option snd]; [|done].
  case_decide; lia.
Qed.

Lemma selected_lt n s l : selected n s = Some l → Forall (λ i, i < n) l.
Proof.
  destruct s as [i|s]; cbn [selected].
  - intros Hl. destruct (np.index n i) as [i'|] eqn:Hi; simplify_eq/=.
    repeat constructor. by eapply index_lt.
  - pose proof (slice_bounds_le n s) as Hle.
    destruct (np.slice_bounds n s) as [lo hi]; cbn [snd] in Hle.
    intros [= <-]. apply Forall_forall. intros i Hi%elem_of_seq. lia.
Qed.

Lemma item_total_tabulate `{Inhabited A} h w (f : nat → nat → A) r c :
  r < h → c < w → np.item_total (np.tabulate h w f) r c = f r c.
Proof. intros. unfold np.item_total. by rewrite item_tabulate. Qed.

Lemma getitem_ravel_tabulate `{Inhabited A} h w (f : nat → nat → A)
    sl rows cols :
  selected h sl.1 = Some rows → selected w sl.2 = Some cols →
  getitem_ravel (np.tabulate h w f) sl = Some (r ← rows; c ← cols; [f r c]).
Proof.
  intros Hr Hc. unfold getitem_ravel. rewrite shape_tabulate. simpl.
  rewrite Hr, Hc. simpl. f_equal.
  apply (bind_ext_Forall _ _ _ _ (selected_lt _ _ _ Hr)). intros r Hlt.
  apply (bind_ext_Forall _ _ _ _ (selected_lt _ _ _ Hc)). intros c Hlt'.
  by rewrite item_total_tabulate.
Qed.

(** [from_side_name] on a grid of rank two, in terms of the positions the
    two subscripts of the side select. *)
Lemma from_side_name_eq ident name nodes h w sl rows cols :
  gn_shape nodes = [h; w] →
  sides !! name = Some sl →
  selected h sl.1 = Some rows → selected w sl.2 = Some cols →
  from_side_name ident name nodes =
    Some {| ns_ident := ident; ns_name := name;
            node_inds := r ← rows; c ← cols; [1 + (r * w + c)] |}.
Proof.
  intros Hsh Hsl Hr Hc. unfold from_side_name, shape2.
  rewrite Hsl, Hsh. simpl. unfold np.indices. simpl.
  rewrite !(getitem_ravel_tabulate _ _ _ _ rows cols) by done. simpl.
  do 2 f_equal.
  rewrite (zip_with_bind2 (λ r c, r * w + c) (λ r _, r) (λ _ c, c)).
  by rewrite fmap_bind2.
Qed.

Lemma sides_Left : sides !! "LeftSurface" = Some (Slc s_all, Idx 0).
Proof. reflexivity. Qed.
Lemma sides_Right : sides !! "RightSurface" = Some (Slc s_all, Idx (-1)).
Proof. reflexivity. Qed.
Lemma sides_Botm : sides !! "BotmSurface" = Some (Idx 0, Slc s_inner).
Proof. reflexivity. Qed.
Lemma sides_Top : sides !! "TopSurface" = Some (Idx (-1), Slc s_inner).
Proof. reflexivity. Qed.
Lemma sides_BotmLeft : sides !! "BotmLeft" = Some (Idx 0, Idx 0).
Proof. reflexivity. Qed.
Lemma sides_TopLeft : sides !! "TopLeft" = Some (Idx (-1), Idx 0).
Proof. reflexivity. Qed.
Lemma sides_BotmRight : sides !! "BotmRight" = Some (Idx 0, Idx (-1)).
Proof. reflexivity. Qed.
Lemma sides_TopRight : sides !! "TopRight" = Some (Idx (-1), Idx (-1)).
Proof. reflexivity. Qed.

Lemma selected_all n : selected n (Slc s_all) = Some (seq 0 n).
Proof. cbn. by rewrite Nat.sub_0_r. Qed.

Lemma selected_first n : selected (n + 1) (Idx 0) = Some [0].
Proof.
  cbn [selected]. unfold np.index. cbv zeta.
  repeat case_decide; try lia. done.
Qed.

Lemma selected_last n : selected (n + 1) (Idx (-1)) = Some [n].
Proof.
  cbn [selected]. unfold np.index. cbv zeta.
  repeat case_decide; try lia. simpl. do 2 f_equal. lia.
Qed.

Lemma selected_inner n : selected (n + 1) (Slc s_inner) = Some (seq 1 (n - 1)).
Proof.
  cbn [selected]. unfold np.slice_bounds, s_inner, np.adjust.
  cbn [np.start np.stop from_option]. cbv zeta.
  repeat case_decide; try lia. do 2 f_equal; lia.
Qed.

(** The eight node sets of a grid of shape [(H + 1, W + 1)]. *)
Lemma from_side_name_nodes ident nodes H W :
  gn_shape nodes = [H + 1; W + 1] →
  from_side_name ident "LeftSurface" nodes
    = Some (Build_NodeSet ident "LeftSurface"
              ((λ r, node_at W r 0) <$> seq 0 (H + 1))) ∧
  from_side_name ident "RightSurface" nodes
    = Some (Build_NodeSet ident "RightSurface"
              ((λ r, node_at W r W) <$> seq 0 (H + 1))) ∧
  from_side_name ident "BotmSurface" nodes
    = Some (Build_NodeSet ident "BotmSurface"
              ((λ c, node_at W 0 c) <$> seq 1 (W - 1))) ∧
  from_side_name ident "TopSurface" nodes
    = Some (Build_NodeSet ident "TopSurface"
              ((λ c, node_at W H c) <$> seq 1 (W - 1))) ∧
  from_side_name ident "BotmLeft" nodes
    = Some (Build_NodeSet ident "BotmLeft" [node_at W 0 0]) ∧
  from_side_name ident "TopLeft" nodes
    = Some (Build_NodeSet ident "TopLeft" [node_at W H 0]) ∧
  from_side_name ident "BotmRight" nodes
    = Some (Build_NodeSet ident "BotmRight" [node_at W 0 W]) ∧
  from_side_name ident "TopRight" nodes
    = Some (Build_NodeSet ident "TopRight" [node_at W H W]).
Proof.
  intros Hsh.
  repeat split.
  - erewrite from_side_name_eq;
      [|done|apply sides_Left|apply selected_all|apply selected_first].
    simpl. by rewrite bind_singleton_fmap.
  - erewrite from_side_name_eq;
      [|done|apply sides_Right|apply selected_all|apply selected_last].
    simpl. by rewrite bind_singleton_fmap.
  - erewrite from_side_name_eq;
      [|done|apply sides_Botm|apply selected_first|apply selected_inner].
    simpl. by rewrite app_nil_r, bind_singleton_fmap.
  - erewrite from_side_name_eq;
      [|done|apply sides_Top|apply selected_last|apply selected_inner].
    simpl. by rewrite app_nil_r, bind_singleton_fmap.
  - erewrite from_side_name_eq;
      [|done|apply sides_BotmLeft|apply selected_first|apply selected_first].
    done.
  - erewrite from_side_name_eq;
      [|done|apply sides_TopLeft|apply selected_last|apply selected_first].
    done.
  - erewrite from_side_name_eq;
      [|done|apply sides_BotmRight|apply selected_first|apply selected_last].
    done.
  - erewrite from_side_name_eq;
      [|done|apply sides_TopRight|apply selected_last|apply selected_last].
    done.
Qed.

Lemma side_nodes_eq name nodes ns :
  from_side_name 0 name nodes = Some ns →
  side_nodes name nodes = node_inds ns.
Proof. unfold side_nodes. by intros ->. Qed.

Lemma node_at_inj W r c r' c' :
  c ≤ W → c' ≤ W → node_at W r c = node_at W r' c' → r = r' ∧ c = c'.
Proof.
  unfold node_at. intros Hc Hc' Heq.
  assert (r = r') as -> by nia. lia.
Qed.

Ltac in_side r :=
  apply list_elem_of_fmap; exists r;
  split; [unfold node_at; lia | apply elem_of_seq; lia].

Ltac not_in_side Hin :=
  let Heq := fresh "Heq" in
  apply list_elem_of_fmap in Hin as (? & Heq & ?%elem_of_seq);
  apply node_at_inj in Heq as [? ?]; lia.

Ltac absurd_side r0 r1 :=
  match goal with
  | Hn : ¬ (_ ∈ _ <$> seq _ _) |- _ =>
      exfalso; apply Hn; first [in_side r0 | in_side r1]
  | Hp : _ ∈ _ <$> seq _ _ |- _ => exfalso; not_in_side Hp
  end.

(** The edge sets that hold a corner node: the Left or the Right set of its
    column, and both when the grid has a single column. *)
Lemma edges_containing_corner nodes H W row col :
  gn_shape nodes = [H + 1; W + 1] →
  row = 0 ∨ row = H → col = 0 ∨ col = W →
  edges_containing nodes (node_at W row col) =
    if decide (W = 0) then ["LeftSurface"; "RightSurface"]
    else if decide (col = 0) then ["LeftSurface"] else ["RightSurface"].
Proof.
  intros Hsh Hrow Hcol.
  destruct (from_side_name_nodes 0 nodes H W Hsh)
    as (HL & HR & HB & HT & _).
  unfold edges_containing, edge_names.
  rewrite !filter_cons, filter_nil.
  rewrite (side_nodes_eq _ _ _ HL), (side_nodes_eq _ _ _ HR),
    (side_nodes_eq _ _ _ HB), (side_nodes_eq _ _ _ HT).
  cbn [node_inds].
  repeat case_decide; subst; try done;
    destruct Hrow, Hcol; subst; try lia; absurd_side 0 H.
Qed.

(** C8 (amended). On a node grid of shape [(H + 1, W + 1)] the Left and
    the Right node sets hold the [H + 1] nodes of column 0 and of the last
    column, row after row; each of the four corner sets holds one node; the
    Bottom and the Top sets hold interior columns only, so a corner node is
    a member of one edge set, the Left or the Right set of its column (and
    of both when the grid has a single column). *)
Theorem side_node_sets nodes H W :
  gn_shape nodes = [H + 1; W + 1] →
  side_nodes "LeftSurface" nodes = (λ r, node_at W r 0) <$> seq 0 (H + 1) ∧
  side_nodes "RightSurface" nodes = (λ r, node_at W r W) <$> seq 0 (H + 1) ∧
  length (side_nodes "LeftSurface" nodes) = H + 1 ∧
  length (side_nodes "RightSurface" nodes) = H + 1 ∧
  side_nodes "BotmSurface" nodes = (λ c, node_at W 0 c) <$> seq 1 (W - 1) ∧
  side_nodes "TopSurface" nodes = (λ c, node_at W H c) <$> seq 1 (W - 1) ∧
  side_nodes "BotmLeft" nodes = [node_at W 0 0] ∧
  side_nodes "TopLeft" nodes = [node_at W H 0] ∧
  side_nodes "BotmRight" nodes = [node_at W 0 W] ∧
  side_nodes "TopRight" nodes = [node_at W H W] ∧
  ∀ row col, row = 0 ∨ row = H → col = 0 ∨ col = W →
    edges_containing nodes (node_at W row col) =
      if decide (W = 0) then ["LeftSurface"; "RightSurface"]
      else if decide (col = 0) then ["LeftSurface"] else ["RightSurface"].
Proof.
  intros Hsh.
  destruct (from_side_name_nodes 0 nodes H W Hsh)
    as (HL & HR & HB & HT & HBL & HTL & HBR & HTR).
  apply side_nodes_eq in HL, HR, HB, HT, HBL, HTL, HBR, HTR.
  rewrite HL, HR, HB, HT, HBL, HTL, HBR, HTR. cbn [node_inds].
  rewrite !length_fmap, !length_seq.
  repeat split. intros row col. by apply edges_containing_corner.
Qed.

Lemma side_node_sets_witness :
  gn_shape (grid 3 4) = [2 + 1; 3 + 1] ∧
  side_nodes "LeftSurface" (grid 3 4) = [1; 5; 9] ∧
  side_nodes "RightSurface" (grid 3 4) = [4; 8; 12] ∧
  edges_containing (grid 3 4) (node_at 3 0 0) = ["LeftSurface"].
Proof.
  split; [reflexivity|].
  destruct (side_node_sets (grid 3 4) 2 3 eq_refl)
    as (HL & HR & _ & _ & _ & _ & _ & _ & _ & _ & Hc).
  split; [exact HL|]. split; [exact HR|].
  exact (Hc 0 0 (or_introl eq_refl) (or_introl eq_refl)).
Defined.

(** C8, as stated, fails on the grid of a single pixel: the corner node 1 is
    a member of the Left set only. *)
Lemma side_node_sets_counterexample :
  side_nodes "BotmLeft" (grid 2 2) = [1] ∧
  edges_containing (grid 2 2) 1 = ["LeftSurface"] ∧
  length (edges_containing (grid 2 2) 1) ≠ 2.
Proof. vm_compute. repeat split; discriminate. Qed.

End node_sets.

(** ** Periodic boundary constraint builder *)

Section periodic.

Lemma GridNodes_init_inv sh nodes :
  GridNodes_init sh = Some nodes → gn_shape nodes = sh ∧ 0 < prod_list sh.
Proof.
  unfold GridNodes_init. destruct (prod_list sh) as [|n] eqn:E; [done|].
  rewrite seq_S, last_snoc. simpl. intros [= <-]. split; [done|lia].
Qed.

Lemma in_range_driven x first_dof last_dof :
  (first_dof ≤ 1)%Z → (2 ≤ last_dof)%Z → x < 2 →
  in_range x (first_dof - 1) last_dof = true.
Proof. intros. unfold in_range. apply bool_decide_eq_true. lia. Qed.

(** C2. On a mesh of two dimensions, with a driven range of degrees of
    freedom that covers both, the periodic boundary condition builds the
    three pairs (LeftSurface, RightSurface), (BotmSurface, TopSurface),
    (BotmRight, TopRight) and two equations per pair, six in all. The two
    equations of the pair that holds the driven Right surface are written
    with three terms, first - second + control node, coefficients 1, -1, 1;
    the four equations of the other pairs are written with two terms,
    first - second, coefficients 1, -1. *)
Theorem periodic_boundary_equations next nset first_dof last_dof displacement
    sh nodes :
  length sh = 2 → GridNodes_init sh = Some nodes →
  (first_dof ≤ 1)%Z → (2 ≤ last_dof)%Z →
  ∃ pbc left right botm top botm_right top_right,
    PeriodicBoundaryCondition_init next nset first_dof last_dof displacement
      nodes = Some pbc ∧
    node_pairs pbc =
      [[OfSet left; OfSet right]; [OfSet botm; OfSet top];
       [OfSet botm_right; OfSet top_right]] ∧
    ns_name <$> [left; right; botm; top; botm_right; top_right]
      = ["LeftSurface"; "RightSurface"; "BotmSurface"; "TopSurface";
         "BotmRight"; "TopRight"] ∧
    driven_nset pbc = right ∧
    eq_pairs pbc =
      [[DriveEquation [OfSet left; OfSet right] 1 nset;
        DriveEquation [OfSet left; OfSet right] 2 nset];
       [EqualityEquation [OfSet botm; OfSet top] 1;
        EqualityEquation [OfSet botm; OfSet top] 2];
       [EqualityEquation [OfSet botm_right; OfSet top_right] 1;
        EqualityEquation [OfSet botm_right; OfSet top_right] 2]] ∧
    length (mjoin (eq_pairs pbc)) = 6 ∧
    mapM (mapM Equation_to_inp) (eq_pairs pbc) =
      Some
        [[[EquationHeader 3;
           EquationTerm (inl "LeftSurface") 1 1;
           EquationTerm (inl "RightSurface") 1 (-1);
           EquationTerm (target_str nset) 1 1];
          [EquationHeader 3;
           EquationTerm (inl "LeftSurface") 2 1;
           EquationTerm (inl "RightSurface") 2 (-1);
           EquationTerm (target_str nset) 2 1]];
         [[EquationHeader 2;
           EquationTerm (inl "BotmSurface") 1 1;
           EquationTerm (inl "TopSurface") 1 (-1)];
          [EquationHeader 2;
           EquationTerm (inl "BotmSurface") 2 1;
           EquationTerm (inl "TopSurface") 2 (-1)]];
         [[EquationHeader 2;
           EquationTerm (inl "BotmRight") 1 1;
           EquationTerm (inl "TopRight") 1 (-1)];
          [EquationHeader 2;
           EquationTerm (inl "BotmRight") 2 1;
           EquationTerm (inl "TopRight") 2 (-1)]]].
Proof.
  intros Hlen Hinit Hfirst Hlast.
  destruct (GridNodes_init_inv _ _ Hinit) as [Hsh Hpos].
  destruct sh as [|h [|w [|]]]; simplify_eq/=.
  assert (Hsh' : gn_shape nodes = [(h - 1) + 1; (w - 1) + 1]).
  { rewrite Hsh. f_equal; [|f_equal]; nia. }
  clear Hsh. rename Hsh' into Hsh.
  unfold PeriodicBoundaryCondition_init.
  destruct (from_side_name_nodes next nodes _ _ Hsh) as (_ & -> & _).
  destruct (from_side_name_nodes (next + 1) nodes _ _ Hsh) as (-> & _).
  destruct (from_side_name_nodes (next + 2) nodes _ _ Hsh)
    as (_ & _ & -> & _).
  destruct (from_side_name_nodes (next + 3) nodes _ _ Hsh)
    as (_ & _ & _ & -> & _).
  destruct (from_side_name_nodes (next + 4) nodes _ _ Hsh)
    as (_ & _ & _ & _ & _ & _ & -> & _).
  destruct (from_side_name_nodes (next + 5) nodes _ _ Hsh)
    as (_ & _ & _ & _ & _ & _ & _ & ->).
  cbn [mbind option_bind].
  rewrite Hsh. cbn [length seq fmap list_fmap contains existsb target_eqb
                    ns_ident orb negb].
  rewrite (bool_decide_eq_false_2 (next = next + 1)) by lia.
  rewrite (bool_decide_eq_true_2 (next = next)) by done.
  rewrite (bool_decide_eq_false_2 (next = next + 2)) by lia.
  rewrite (bool_decide_eq_false_2 (next = next + 3)) by lia.
  rewrite (bool_decide_eq_false_2 (next = next + 4)) by lia.
  rewrite (bool_decide_eq_false_2 (next = next + 5)) by lia.
  cbn [orb negb].
  rewrite !in_range_driven by (done || lia).
  do 7 eexists. split; [reflexivity|]. split; [reflexivity|].
  repeat split.
Qed.

Lemma periodic_boundary_equations_witness :
  length [3; 4] = 2 ∧ GridNodes_init [3; 4] = Some (grid 3 4) ∧
  (1 ≤ 1)%Z ∧ (2 ≤ 2)%Z ∧
  ∃ pbc, PeriodicBoundaryCondition_init 0 (OfNode 13) 1 2 0 (grid 3 4)
           = Some pbc ∧
         length (mjoin (eq_pairs pbc)) = 6.
Proof.
  split; [reflexivity|]. split; [reflexivity|].
  split; [apply Z.le_refl|]. split; [apply Z.le_refl|].
  destruct (periodic_boundary_equations 0 (OfNode 13) 1 2 0 [3; 4] (grid 3 4)
              eq_refl eq_refl (Z.le_refl 1) (Z.le_refl 2))
    as (pbc & _ & _ & _ & _ & _ & _ & Hinit & _ & _ & _ & _ & Hlen & _).
  exists pbc. split; [exact Hinit|exact Hlen].
Defined.

End periodic.

(** ** Element sets *)

Section element_sets.

Lemma unique_elem_of l x : x ∈ unique l ↔ x ∈ l.
Proof.
  unfold unique. rewrite merge_sort_Permutation. apply elem_of_remove_dups.
Qed.

Lemma unique_NoDup l : NoDup (unique l).
Proof.
  unfold unique. rewrite merge_sort_Permutation. apply NoDup_remove_dups.
Qed.

Lemma StronglySorted_le_lt (l : list Z) :
  StronglySorted Z.le l → NoDup l → StronglySorted Z.lt l.
Proof.
  induction 1 as [|x l Hs IH Hall]; intros Hnd; [constructor|].
  apply NoDup_cons in Hnd as [Hx Hnd]. constructor; [by apply IH|].
  apply Forall_forall. intros y Hy.
  assert (x ≠ y) by (intros ->; done).
  rewrite Forall_forall in Hall. specialize (Hall y Hy). lia.
Qed.

Lemma unique_sorted l : StronglySorted Z.lt (unique l).
Proof.
  apply StronglySorted_le_lt; [|apply unique_NoDup].
  apply StronglySorted_merge_sort; apply _.
Qed.

Lemma elem_of_select {A} (a : list A) (mask : list bool) x :
  x ∈ select a mask ↔ ∃ i, a !! i = Some x ∧ mask !! i = Some true.
Proof.
  unfold select. revert mask.
  induction a as [|y a IH]; intros [|b mask]; cbn [zip_with].
  - split; [by intros ?%elem_of_nil|by intros (i & ? & ?)].
  - split; [by intros ?%elem_of_nil|by intros (i & ? & ?)].
  - split; [by intros ?%elem_of_nil|by intros (i & ? & ?)].
  - rewrite bind_cons, elem_of_app, IH. split.
    + intros [Hx|(i & ? & ?)]; [|by exists (S i)].
      destruct b; [|by apply elem_of_nil in Hx].
      apply list_elem_of_singleton in Hx as ->. by exists 0.
    + intros ([|i] & Ha & Hm); simplify_eq/=.
      * left. apply list_elem_of_singleton. done.
      * right. by exists i.
Qed.

(** The members of the element set of one material code. *)
Lemma elem_of_elements (flat : list Z) code e :
  e ∈ select (seq 1 (length flat)) ((λ v, bool_decide (v = code)) <$> flat)
  ↔ 1 ≤ e ≤ length flat ∧ flat !! (e - 1) = Some code.
Proof.
  rewrite elem_of_select. split.
  - intros (i & Hi & Hm). apply lookup_seq in Hi as [-> Hlt].
    rewrite list_lookup_fmap in Hm.
    destruct (flat !! i) as [v|] eqn:Hv; simplify_eq/=.
    apply bool_decide_eq_true in Hm as ->.
    rewrite Nat.sub_0_r. split; [lia|done].
  - intros [He Hc]. exists (e - 1). split.
    + apply lookup_seq. lia.
    + rewrite list_lookup_fmap, Hc. simpl. by rewrite bool_decide_eq_true_2.
Qed.

(** C9. The element sets built from a phase-label image of shape [(H, W)]
    partition the element numbers [1 .. H * W]: every element number is a
    member of exactly one of the sets, the one whose material code is the
    label of its pixel; the sets hold nothing else and none is empty; and
    they come in the order of strictly increasing material code. *)
Theorem element_sets_partition (intph_img : np.ndarray Z) H W :
  np.has_shape H W intph_img →
  let sets := from_intph_image intph_img in
  (∀ e, 1 ≤ e ≤ H * W →
     ∃ i s, sets !! i = Some s ∧ e ∈ elements s ∧
       np.ravel intph_img !! (e - 1) = Some (matl_code s) ∧
       ∀ j s', sets !! j = Some s' → e ∈ elements s' → j = i) ∧
  (∀ s e, s ∈ sets → e ∈ elements s → 1 ≤ e ≤ H * W) ∧
  (∀ s, s ∈ sets → elements s ≠ []) ∧
  StronglySorted Z.lt (matl_code <$> sets).
Proof.
  intros [_ Hlen] sets. subst sets. unfold from_intph_image.
  set (flat := np.ravel intph_img) in *. rewrite <- Hlen.
  set (mk := λ code, Build_ElementSet code _).
  assert (Hcodes : matl_code <$> (mk <$> unique flat) = unique flat).
  { rewrite <- list_fmap_compose. apply list_fmap_id. }
  repeat split.
  - intros e He.
    destruct (lookup_lt_is_Some_2 flat (e - 1)) as [code Hcode]; [lia|].
    assert (code ∈ unique flat) as Hin.
    { apply unique_elem_of. by eapply list_elem_of_lookup_2. }
    apply list_elem_of_lookup in Hin as [i Hi].
    exists i, (mk code). split; [by rewrite list_lookup_fmap, Hi|].
    split; [by apply elem_of_elements|]. split; [done|].
    intros j s' Hj Hs'. rewrite list_lookup_fmap in Hj.
    destruct (unique flat !! j) as [code'|] eqn:Hj'; simplify_eq/=.
    apply elem_of_elements in Hs' as [_ Hc']. simplify_eq.
    by eapply NoDup_lookup; [apply unique_NoDup|..].
  - apply list_elem_of_fmap in H0 as (code & -> & _).
    apply elem_of_elements in H1. lia.
  - apply list_elem_of_fmap in H0 as (code & -> & _).
    apply elem_of_elements in H1. lia.
  - intros s (code & -> & Hin)%list_elem_of_fmap.
    apply (proj1 (unique_elem_of _ _)) in Hin.
    apply list_elem_of_lookup in Hin as [k Hk].
    intros Hnil.
    assert (k + 1 ∈ elements (mk code)) as Hmem.
    { apply elem_of_elements. apply lookup_lt_Some in Hk as Hlt.
      replace (k + 1 - 1) with k by lia. split; [lia|done]. }
    rewrite Hnil in Hmem. by apply elem_of_nil in Hmem.
  - rewrite Hcodes. apply unique_sorted.
Qed.

Lemma element_sets_partition_witness :
  np.has_shape 2 3 img_2x3 ∧
  StronglySorted Z.lt (matl_code <$> from_intph_image img_2x3).
Proof.
  assert (Hsh : np.has_shape 2 3 img_2x3) by (split; reflexivity).
  split; [exact Hsh|].
  exact (proj2 (proj2 (proj2 (element_sets_partition img_2x3 2 3 Hsh)))).
Defined.

End element_sets.

(** ** Interphase classifier *)

Section classifier.

Lemma sq_dist_nonneg p q : (0 ≤ sq_dist p q)%Z.
Proof. unfold sq_dist. nia. Qed.

Lemma sq_dist_0 p q : sq_dist p q = 0%Z ↔ p = q.
Proof.
  unfold sq_dist. destruct p as [r c], q as [r' c']; simpl. split.
  - intros Hd. assert (r = r') by nia. assert (c = c') by nia.
    by subst.
  - intros [= -> ->]. lia.
Qed.

Lemma nearest_sq_le p q qs q' :
  q' ∈ q :: qs → (nearest_sq p q qs ≤ sq_dist p q')%Z.
Proof.
  unfold nearest_sq. induction qs as [|q0 qs IH]; simpl.
  - intros ->%list_elem_of_singleton. lia.
  - rewrite !elem_of_cons. intros [->|[->|Hin]].
    + etrans; [apply Z.le_min_r|]. apply IH. by left.
    + apply Z.le_min_l.
    + etrans; [apply Z.le_min_r|]. apply IH. by right.
Qed.

Lemma nearest_sq_in p q qs :
  ∃ q', q' ∈ q :: qs ∧ nearest_sq p q qs = sq_dist p q'.
Proof.
  unfold nearest_sq. induction qs as [|q0 qs (q' & Hin & Heq)]; simpl.
  - exists q. split; [by left|done].
  - destruct (Z.min_spec (sq_dist p q0)
                (foldr (λ q' d, sq_dist p q' `min` d)%Z (sq_dist p q) qs))
      as [[_ ->]|[_ ->]].
    + exists q0. split; [right; by left|done].
    + exists q'. split; [|done].
      apply elem_of_cons in Hin as [->|Hin]; [by left|]. right. by right.
Qed.

Lemma item_has_shape {A} (m : np.ndarray A) H W r c :
  np.has_shape H W m → r < H → c < W → is_Some (np.item m r c).
Proof.
  intros [Hsh Hlen] Hr Hc. unfold np.item. rewrite Hsh. simpl.
  rewrite decide_True by done. apply lookup_lt_is_Some. nia.
Qed.

Lemma item_Some_lt {A} (m : np.ndarray A) r c x :
  np.item m r c = Some x → r < (np.shape m).1 ∧ c < (np.shape m).2.
Proof. unfold np.item. by case_decide. Qed.

Lemma elem_of_zero_pixels m p : p ∈ zero_pixels m ↔ is_filler m p.
Proof.
  unfold zero_pixels, is_filler. destruct p as [r c].
  destruct (np.shape m) as [h w] eqn:Hsh. simpl. split.
  - intros (r' & (c' & Hin & Hc%elem_of_seq)%list_elem_of_bind
              & Hr%elem_of_seq)%list_elem_of_bind.
    case_decide as H0; [|by apply elem_of_nil in Hin].
    by apply list_elem_of_singleton in Hin as [= -> ->].
  - intros Hit. pose proof (item_Some_lt _ _ _ _ Hit) as [Hr Hc].
    rewrite Hsh in Hr, Hc. simpl in Hr, Hc.
    apply list_elem_of_bind. exists r. split; [|apply elem_of_seq; lia].
    apply list_elem_of_bind. exists c. split; [|apply elem_of_seq; lia].
    rewrite decide_True by done. by apply list_elem_of_singleton.
Qed.

(** The distance transform of an image with a filler pixel: the squared
    distance to the nearest filler pixel, at every pixel. *)
Lemma distance_transform_edt_spec m H W :
  np.shape m = (H, W) → (∃ q, is_filler m q) →
  ∃ d2 : nat → nat → Z,
    distance_transform_edt m = Some (np.tabulate H W d2) ∧
    ∀ r c, nearest_filler_sq m (r, c) (d2 r c).
Proof.
  intros Hsh [q0 Hq0]. unfold distance_transform_edt.
  apply elem_of_zero_pixels in Hq0.
  destruct (zero_pixels m) as [|q qs] eqn:Hz; [by apply elem_of_nil in Hq0|].
  rewrite Hsh. eexists. split; [done|]. intros r c. split.
  - destruct (nearest_sq_in (r, c) q qs) as (q' & Hin & Heq).
    exists q'. split; [|done]. apply elem_of_zero_pixels. by rewrite Hz.
  - intros q' Hq'. apply nearest_sq_le. rewrite <- Hz.
    by apply elem_of_zero_pixels.
Qed.

Lemma nearest_filler_sq_nonneg m p d2 : nearest_filler_sq m p d2 → (0 ≤ d2)%Z.
Proof. intros [(q & _ & <-) _]. apply sq_dist_nonneg. Qed.

Lemma nearest_filler_sq_0 m p d2 :
  nearest_filler_sq m p d2 → d2 = 0%Z ↔ is_filler m p.
Proof.
  intros [(q & Hq & <-) Hmin]. split.
  - by intros ->%sq_dist_0.
  - intros Hp. specialize (Hmin p Hp).
    pose proof (sq_dist_nonneg p q).
    rewrite (proj2 (sq_dist_0 p p) eq_refl) in Hmin. lia.
Qed.

Lemma nearest_filler_sq_unique m p d2 d2' :
  nearest_filler_sq m p d2 → nearest_filler_sq m p d2' → d2 = d2'.
Proof.
  intros [(q & Hq & <-) Hmin] [(q' & Hq' & <-) Hmin'].
  specialize (Hmin q' Hq'). specialize (Hmin' q Hq). lia.
Qed.

Lemma assign_intph_loop (dists : np.ndarray Z) (f : Z → Z) s :
  foldl (λ intph_img num_layers,
           np.map2 iadd_u1 intph_img
             (np.map (λ d, dist_gt d num_layers) dists))
        (np.map f dists) s
  = np.map (λ d2, foldl (λ x n, iadd_u1 x (dist_gt d2 n)) (f d2) s) dists.
Proof.
  revert f. induction s as [|n s IH]; intros f; [done|].
  simpl. rewrite <- (IH (λ d2, iadd_u1 (f d2) (dist_gt d2 n))). f_equal.
  unfold np.map2, np.map. simpl. f_equal.
  by rewrite zip_with_fmap_l, zip_with_fmap_r, zip_with_diag.
Qed.

(** What the loop of [assign_intph] computes: the label of every pixel
    from its distance alone. *)
Lemma assign_intph_eq m l :
  assign_intph m l = np.map (pixel_label l) <$> distance_transform_edt m.
Proof.
  unfold assign_intph.
  destruct (distance_transform_edt m) as [dists|]; simpl; [|done]. f_equal.
  apply assign_intph_loop.
Qed.

Lemma foldl_iadd_u1 d2 s x :
  (0 ≤ x)%Z → (x + Z.of_nat (length s) ≤ 255)%Z →
  foldl (λ x n, iadd_u1 x (dist_gt d2 n)) x s
  = (x + Z.of_nat (length (filter (λ n, dist_gt d2 n = true) s)))%Z.
Proof.
  revert x. induction s as [|n s IH]; intros x Hx Hle; simpl in *; [lia|].
  rewrite filter_cons. case_decide as Hgt.
  - rewrite Hgt. unfold iadd_u1 at 2. cbn [u1_of_bool].
    rewrite Z.mod_small by lia. rewrite IH by lia. simpl length. lia.
  - apply not_true_is_false in Hgt. rewrite Hgt.
    unfold iadd_u1 at 2. cbn [u1_of_bool].
    rewrite Z.mod_small by lia. rewrite Z.add_0_r. apply IH; lia.
Qed.

Lemma filter_dist_gt d2 l :
  Forall (λ n, 0 < n)%Z l →
  filter (λ n, dist_gt d2 n = true) l = filter (λ n, n * n < d2)%Z l.
Proof.
  induction 1 as [|n l Hn _ IH]; [done|].
  rewrite !filter_cons, IH. unfold dist_gt.
  destruct (decide (n * n < d2)%Z).
  - rewrite decide_True; [done|]. apply bool_decide_eq_true. by right.
  - rewrite decide_False; [done|]. rewrite bool_decide_eq_true. lia.
Qed.

Lemma exceeded_0 l : exceeded 0 l = 0%Z.
Proof.
  unfold exceeded. induction l as [|n l IH]; [done|].
  rewrite filter_cons, decide_False by nia. done.
Qed.

Lemma exceeded_bounds d2 l : (0 ≤ exceeded d2 l ≤ Z.of_nat (length l))%Z.
Proof.
  unfold exceeded. pose proof (length_filter (λ n, n * n < d2)%Z l). lia.
Qed.

Lemma exceeded_mono d2 d2' l :
  (d2 ≤ d2')%Z → (exceeded d2 l ≤ exceeded d2' l)%Z.
Proof.
  intros Hle. unfold exceeded. induction l as [|n l IH]; [done|].
  rewrite !filter_cons. repeat case_decide; simpl length; lia.
Qed.

(** The label of a pixel in terms of its distance: 0 on the filler,
    otherwise 1 plus the number of thicknesses the distance exceeds. The
    labels are unsigned bytes, which hold the count of up to 254
    thicknesses. *)
Lemma pixel_label_eq l d2 :
  Forall (λ n, 0 < n)%Z l → length l ≤ 254 → (0 ≤ d2)%Z →
  pixel_label l d2 = if decide (d2 = 0%Z) then 0%Z else (1 + exceeded d2 l)%Z.
Proof.
  intros Hpos Hlen Hd2. unfold pixel_label, sorted.
  assert (Hperm : merge_sort Z.le l ≡ₚ l) by apply merge_sort_Permutation.
  assert (Hu1 : (0 ≤ u1_of_bool (dist_ne_0 d2) ≤ 1)%Z)
    by (destruct (dist_ne_0 d2); simpl; lia).
  rewrite foldl_iadd_u1; [|lia|rewrite Hperm; lia].
  rewrite (filter_dist_gt d2 (merge_sort Z.le l)) by by rewrite Hperm.
  rewrite Hperm. fold (exceeded d2 l). unfold dist_ne_0.
  case_decide as Hz.
  - subst. rewrite bool_decide_eq_true_2 by done. by rewrite exceeded_0.
  - by rewrite bool_decide_eq_false_2.
Qed.

Lemma pixel_label_bounds l d2 :
  Forall (λ n, 0 < n)%Z l → length l ≤ 254 → (0 ≤ d2)%Z →
  (0 ≤ pixel_label l d2 ≤ Z.of_nat (length l) + 1)%Z.
Proof.
  intros. rewrite pixel_label_eq by done.
  pose proof (exceeded_bounds d2 l). case_decide; lia.
Qed.

Lemma pixel_label_mono l d2 d2' :
  Forall (λ n, 0 < n)%Z l → length l ≤ 254 → (0 ≤ d2 ≤ d2')%Z →
  (pixel_label l d2 ≤ pixel_label l d2')%Z.
Proof.
  intros. rewrite !pixel_label_eq by (done || lia).
  pose proof (exceeded_mono d2 d2' l). pose proof (exceeded_bounds d2' l).
  repeat case_decide; lia.
Qed.

Lemma item_map {A B} (f : A → B) (a : np.ndarray A) r c :
  np.item (np.map f a) r c = f <$> np.item a r c.
Proof.
  unfold np.item, np.map. simpl. case_decide; [|done].
  by rewrite list_lookup_fmap.
Qed.

Lemma elem_of_tabulate {A} h w (f : nat → nat → A) x :
  x ∈ np.ravel (np.tabulate h w f) → ∃ r c, r < h ∧ c < w ∧ x = f r c.
Proof.
  unfold np.tabulate. simpl.
  intros (r & (c & -> & Hc%elem_of_seq)%list_elem_of_fmap
            & Hr%elem_of_seq)%list_elem_of_bind.
  exists r, c. split; [lia|]. split; [lia|done].
Qed.

(** C3 (amended). For an image of shape [(H, W)] with a filler pixel and a
    list of [k <= 254] positive thicknesses, the classifier returns a label
    image of the same shape. The label of a pixel is 0 on the filler and
    otherwise 1 plus the number of thicknesses that the Euclidean distance
    from the pixel to the nearest filler pixel strictly exceeds. The labels
    lie in [0 .. k + 1], the label 0 occurs, and the label does not
    decrease when that distance grows. *)
Theorem assign_intph_labels m l H W :
  np.shape m = (H, W) → (∃ q, is_filler m q) →
  Forall (λ n, 0 < n)%Z l → length l ≤ 254 →
  ∃ labels, assign_intph m l = Some labels ∧ np.has_shape H W labels ∧
    (∀ r c, r < H → c < W →
       ∃ d2, nearest_filler_sq m (r, c) d2 ∧
         np.item labels r c =
           Some (if decide (is_filler m (r, c)) then 0
                 else 1 + exceeded d2 l)%Z) ∧
    (∀ v, v ∈ np.ravel labels → (0 ≤ v ≤ Z.of_nat (length l) + 1)%Z) ∧
    0%Z ∈ np.ravel labels ∧
    (∀ p q dp dq vp vq,
       nearest_filler_sq m p dp → nearest_filler_sq m q dq →
       np.item labels p.1 p.2 = Some vp → np.item labels q.1 q.2 = Some vq →
       (dp ≤ dq)%Z → (vp ≤ vq)%Z).
Proof.
  intros Hsh Hfill Hpos Hlen.
  destruct (distance_transform_edt_spec m H W Hsh Hfill) as (d2 & Hedt & Hd2).
  rewrite assign_intph_eq, Hedt. simpl. eexists. split; [done|].
  assert (Hitem : ∀ r c, r < H → c < W →
    np.item (np.map (pixel_label l) (np.tabulate H W d2)) r c
    = Some (pixel_label l (d2 r c))).
  { intros r c Hr Hc. by rewrite item_map, item_tabulate. }
  split; [|split; [|split; [|split]]].
  - split; [done|]. simpl. rewrite length_fmap. apply length_tabulate.
  - intros r c Hr Hc. exists (d2 r c). split; [done|].
    rewrite Hitem by done. f_equal.
    rewrite pixel_label_eq
      by (done || by eapply nearest_filler_sq_nonneg).
    pose proof (nearest_filler_sq_0 _ _ _ (Hd2 r c)).
    repeat case_decide; first [done | tauto].
  - simpl. intros v (d & -> & Hd)%list_elem_of_fmap.
    apply elem_of_tabulate in Hd as (r & c & _ & _ & ->).
    apply pixel_label_bounds; [done..|]. by eapply nearest_filler_sq_nonneg.
  - destruct Hfill as [[r c] Hq].
    pose proof (item_Some_lt _ _ _ _ Hq) as [Hr Hc].
    rewrite Hsh in Hr, Hc. simpl in Hr, Hc. simpl.
    apply list_elem_of_fmap. exists (d2 r c). split.
    + rewrite pixel_label_eq
        by (done || by eapply nearest_filler_sq_nonneg).
      rewrite decide_True; [done|].
      by apply (nearest_filler_sq_0 _ _ _ (Hd2 r c)).
    + eapply list_elem_of_lookup_2. by apply lookup_tabulate.
  - intros [pr pc] [qr qc] dp dq vp vq Hdp Hdq Hvp Hvq Hle. simpl in *.
    pose proof (item_Some_lt _ _ _ _ Hvp) as [? ?].
    pose proof (item_Some_lt _ _ _ _ Hvq) as [? ?]. simpl in *.
    rewrite Hitem in Hvp, Hvq by done. simplify_eq.
    rewrite (nearest_filler_sq_unique _ _ _ _ (Hd2 pr pc) Hdp).
    rewrite (nearest_filler_sq_unique _ _ _ _ (Hd2 qr qc) Hdq).
    apply pixel_label_mono; [done..|].
    split; [by eapply nearest_filler_sq_nonneg|done].
Qed.

Lemma assign_intph_labels_witness :
  np.shape img_2x2 = (2, 2) ∧ (∃ q, is_filler img_2x2 q) ∧
  Forall (λ n, 0 < n)%Z [1%Z] ∧ length [1%Z] ≤ 254 ∧
  ∃ labels, assign_intph img_2x2 [1%Z] = Some labels ∧
            np.has_shape 2 2 labels ∧ 0%Z ∈ np.ravel labels.
Proof.
  assert (Hfill : ∃ q, is_filler img_2x2 q) by (by exists (0, 0)).
  assert (Hpos : Forall (λ n, 0 < n)%Z [1%Z]) by (repeat constructor).
  assert (Hlen : length [1%Z] ≤ 254) by (simpl; lia).
  split; [reflexivity|]. split; [exact Hfill|].
  split; [exact Hpos|]. split; [exact Hlen|].
  destruct (assign_intph_labels img_2x2 [1%Z] 2 2 eq_refl Hfill Hpos Hlen)
    as (labels & Heq & Hshape & _ & _ & Hzero & _).
  exists labels. split; [exact Heq|]. split; [exact Hshape|exact Hzero].
Defined.

(** C3, as stated, fails on the 2 x 2 image with its filler pixel in a
    corner. With the one thickness 1 the labels are 0, 1, 1, 2: the label 2
    is outside [0 .. k] for [k = 1]. With the two thicknesses 5 and 6 the
    labels are 0, 1, 1, 1: the label [k = 2] does not occur. *)
Lemma assign_intph_labels_counterexample :
  assign_intph img_2x2 [1%Z] = Some (np.NDArray (2, 2) [0; 1; 1; 2]%Z) ∧
  ¬ (∀ v, v ∈ [0; 1; 1; 2]%Z → (0 ≤ v ≤ Z.of_nat (length [1%Z]))%Z) ∧
  assign_intph img_2x2 [5; 6]%Z = Some (np.NDArray (2, 2) [0; 1; 1; 1]%Z) ∧
  Z.of_nat (length [5; 6]%Z) ∉ [0; 1; 1; 1]%Z.
Proof.
  split; [reflexivity|]. split.
  - intros Hall. specialize (Hall 2%Z). simpl in Hall.
    assert (2%Z ∈ [0; 1; 1; 2]%Z) as Hin by (repeat constructor).
    specialize (Hall Hin). lia.
  - split; [reflexivity|]. simpl. rewrite !elem_of_cons, elem_of_nil. lia.
Qed.

(** *** The periodic classifier *)

Lemma map_tabulate {A B} (g : A → B) h w (f : nat → nat → A) :
  np.map g (np.tabulate h w f) = np.tabulate h w (λ r c, g (f r c)).
Proof.
  unfold np.map, np.tabulate. simpl. f_equal.
  induction (seq 0 h) as [|r rs IH]; [done|].
  rewrite !bind_cons, fmap_app, IH. f_equal.
  by rewrite <- list_fmap_compose.
Qed.

Lemma tabulate_ext {A} h w (f g : nat → nat → A) :
  (∀ r c, r < h → c < w → f r c = g r c) →
  np.tabulate h w f = np.tabulate h w g.
Proof.
  intros Hfg. unfold np.tabulate. f_equal.
  apply (bind_ext_Forall (λ r, r < h)).
  { apply Forall_forall. intros r Hr%elem_of_seq. lia. }
  intros r Hr. apply list_fmap_ext. intros i c Hc%lookup_seq.
  apply Hfg; lia.
Qed.

Lemma slice_bounds_range n lo hi :
  np.slice_bounds n (s_range lo hi) = (lo `min` n, hi `min` n).
Proof.
  unfold np.slice_bounds, s_range, np.adjust.
  cbn [np.start np.stop from_option].
  rewrite !decide_False by lia. f_equal; lia.
Qed.

(** A window of an array commutes with an item-by-item function. *)
Lemma getslice_map (g : Z → Z) h w (f : nat → nat → Z) s0 s1 :
  np.getslice (np.map g (np.tabulate h w f)) s0 s1
  = np.map g (np.getslice (np.tabulate h w f) s0 s1).
Proof.
  unfold np.getslice.
  change (np.shape (np.map g (np.tabulate h w f))) with (h, w).
  change (np.shape (np.tabulate h w f)) with (h, w). cbn [fst snd].
  pose proof (slice_bounds_le h s0) as H0.
  pose proof (slice_bounds_le w s1) as H1.
  destruct (np.slice_bounds h s0) as [lo0 hi0].
  destruct (np.slice_bounds w s1) as [lo1 hi1]. cbn [snd] in H0, H1.
  rewrite (map_tabulate g (hi0 - lo0)). apply tabulate_ext. intros r c Hr Hc.
  unfold np.item_total.
  rewrite item_map, item_tabulate by lia. done.
Qed.

Lemma distance_transform_edt_tabulate m d :
  distance_transform_edt m = Some d →
  ∃ f, d = np.tabulate (np.shape m).1 (np.shape m).2 f.
Proof.
  unfold distance_transform_edt. destruct (zero_pixels m); [done|].
  destruct (np.shape m) as [h w]. intros [= <-]. by eexists.
Qed.

(** The periodic classifier is the classifier on the 3 x 3 tiling, cut
    down to the block in the middle. *)
Lemma periodic_assign_intph_eq m l H W :
  np.shape m = (H, W) →
  periodic_assign_intph m l =
    (λ t, np.getslice t (s_range H (H + H)) (s_range W (W + W)))
      <$> assign_intph (np.tile m (3, 3)) l.
Proof.
  intros Hsh. unfold periodic_assign_intph. rewrite Hsh.
  by destruct (assign_intph _ _).
Qed.

(** C4. On an image that is periodic at its boundary, that is, when the
    distances to the filler computed on the 3 x 3 tiling are, on the block
    in the middle, the distances computed on the image itself, the periodic
    classifier returns the label image of the classifier. *)
Theorem periodic_assign_intph_periodic_image m l H W :
  np.shape m = (H, W) →
  (λ d, np.getslice d (s_range H (H + H)) (s_range W (W + W)))
    <$> distance_transform_edt (np.tile m (3, 3))
  = distance_transform_edt m →
  periodic_assign_intph m l = assign_intph m l.
Proof.
  intros Hsh Hper.
  rewrite (periodic_assign_intph_eq m l H W Hsh), !assign_intph_eq, <- Hper.
  destruct (distance_transform_edt (np.tile m (3, 3))) as [d|] eqn:Hd;
    [|done].
  apply distance_transform_edt_tabulate in Hd as [f ->].
  simpl. f_equal. apply getslice_map.
Qed.

Lemma periodic_assign_intph_periodic_image_witness :
  np.shape img_3x3 = (3, 3) ∧
  (λ d, np.getslice d (s_range 3 (3 + 3)) (s_range 3 (3 + 3)))
    <$> distance_transform_edt (np.tile img_3x3 (3, 3))
  = distance_transform_edt img_3x3 ∧
  periodic_assign_intph img_3x3 [1%Z] = assign_intph img_3x3 [1%Z].
Proof.
  assert (Hper :
    (λ d, np.getslice d (s_range 3 (3 + 3)) (s_range 3 (3 + 3)))
      <$> distance_transform_edt (np.tile img_3x3 (3, 3))
    = distance_transform_edt img_3x3) by (vm_compute; reflexivity).
  split; [reflexivity|]. split; [exact Hper|].
  exact (periodic_assign_intph_periodic_image img_3x3 [1%Z] 3 3 eq_refl Hper).
Defined.

End classifier.

(** ** Material property transformer *)

Section viscoelastic.

Lemma argmax_from_lt l best_i best i :
  best_i < i → argmax_from best_i best i l < i + length l.
Proof.
  revert best_i best i. induction l as [|x l IH]; intros bi b i Hlt; simpl.
  - lia.
  - destruct (Rlt_dec b x).
    + specialize (IH i x (S i) ltac:(lia)). lia.
    + specialize (IH bi b (S i) ltac:(lia)). lia.
Qed.

Lemma argmax_lt l i : argmax l = Some i → i < length l.
Proof.
  destruct l as [|x l]; [done|]. simpl. intros [= <-].
  pose proof (argmax_from_lt l 0 x 1 ltac:(lia)). lia.
Qed.

Lemma argmax_is_Some l : l ≠ [] → is_Some (argmax l).
Proof. destruct l; [done|]. by eexists. Qed.

(** [apply_shift] returns, on a table with as many frequencies as moduli
    and at least one sample, an array as long as the frequency array. *)
Lemma apply_shift_total self :
  youngs_cplx self ≠ [] → length (freq self) = length (youngs_cplx self) →
  ∃ fs, apply_shift self = Some fs ∧ length fs = length (freq self).
Proof.
  intros Hne Hlen. unfold apply_shift.
  set (tand := zip_with Rdiv _ _).
  assert (Htand : length tand = length (youngs_cplx self)).
  { unfold tand. rewrite length_zip_with, !length_fmap. lia. }
  destruct (argmax_is_Some tand) as [i Hi].
  { intros Hnil. rewrite Hnil in Htand. destruct (youngs_cplx self); done. }
  rewrite Hi. cbn [mbind option_bind].
  apply argmax_lt in Hi as Hlt.
  destruct (lookup_lt_is_Some_2
              ((λ x, log10 x - shift self)%R <$> freq self) i) as [f Hf].
  { rewrite length_fmap. lia. }
  rewrite Hf. cbn [mbind option_bind]. eexists. split; [done|].
  rewrite length_fmap, length_app, length_fmap, length_take, length_drop,
    !length_app, !length_fmap, length_take, length_drop, length_fmap.
  lia.
Qed.

Lemma pow10_log10 x : (0 < x)%R → pow10 (log10 x) = x.
Proof.
  intros Hx. unfold pow10, log10, Rpower.
  replace (ln x / ln 10 * ln 10)%R with (ln x).
  - by apply exp_ln.
  - field. apply Rgt_not_eq. rewrite <- ln_1. apply ln_increasing; lra.
Qed.

(** C6. With [shift = 0] and both broadening factors 1 the transform
    returns the frequency array it was given, for a table of positive
    frequencies with as many frequencies as moduli and at least one
    sample, over the real numbers. *)
Theorem apply_shift_neutral self :
  shift self = 0%R → left_broadening self = 1%R → right_broadening self = 1%R →
  Forall (λ x, 0 < x)%R (freq self) →
  youngs_cplx self ≠ [] → length (freq self) = length (youngs_cplx self) →
  apply_shift self = Some (freq self).
Proof.
  intros Hs Hl Hr Hpos Hne Hlen. unfold apply_shift.
  set (tand := zip_with Rdiv _ _).
  assert (Htand : length tand = length (youngs_cplx self)).
  { unfold tand. rewrite length_zip_with, !length_fmap. lia. }
  destruct (argmax_is_Some tand) as [i Hi].
  { intros Hnil. rewrite Hnil in Htand. destruct (youngs_cplx self); done. }
  rewrite Hi. cbn [mbind option_bind].
  apply argmax_lt in Hi as Hlt.
  set (logf := (λ x, log10 x - shift self)%R <$> freq self).
  assert (Hloglen : length logf = length (freq self))
    by (unfold logf; by rewrite length_fmap).
  destruct (lookup_lt_is_Some_2 logf i) as [f Hf]; [lia|].
  rewrite Hf. cbn [mbind option_bind]. f_equal.
  rewrite Hl, Hr.
  assert (Hid : ∀ l : list R, (λ x, 1 * (x - f) + f)%R <$> l = l).
  { intros l. rewrite <- (list_fmap_id l) at 2.
    apply list_fmap_ext. intros ? x _. simpl. lra. }
  rewrite !Hid, !take_drop.
  unfold logf. rewrite <- list_fmap_compose.
  rewrite <- (list_fmap_id (freq self)) at 2.
  apply Forall_fmap_ext_1. eapply Forall_impl; [exact Hpos|].
  intros x Hx. simpl. rewrite Hs, Rminus_0_r. by apply pow10_log10.
Qed.

Lemma apply_shift_neutral_witness :
  shift two_samples = 0%R ∧ left_broadening two_samples = 1%R ∧
  right_broadening two_samples = 1%R ∧ Forall (λ x, 0 < x)%R (freq two_samples) ∧
  youngs_cplx two_samples ≠ [] ∧
  length (freq two_samples) = length (youngs_cplx two_samples) ∧
  apply_shift two_samples = Some (freq two_samples).
Proof.
  assert (Hpos : Forall (λ x, 0 < x)%R (freq two_samples)).
  { repeat constructor; simpl; lra. }
  assert (Hne : youngs_cplx two_samples ≠ []) by discriminate.
  split; [reflexivity|]. split; [reflexivity|]. split; [reflexivity|].
  split; [exact Hpos|]. split; [exact Hne|]. split; [reflexivity|].
  exact (apply_shift_neutral two_samples eq_refl eq_refl eq_refl Hpos Hne
           eq_refl).
Defined.

Lemma zip5_lookup_inv {A B C D E F} (f : A → B → C → D → E → F)
    la lb lc ld le i x :
  zip5 f la lb lc ld le !! i = Some x →
  ∃ a b c d e, la !! i = Some a ∧ lb !! i = Some b ∧ lc !! i = Some c ∧
    ld !! i = Some d ∧ le !! i = Some e ∧ x = f a b c d e.
Proof.
  unfold zip5. rewrite !lookup_zip_with. intros Hx.
  destruct (la !! i) as [a|], (lb !! i) as [b|], (lc !! i) as [c|],
    (ld !! i) as [d|], (le !! i) as [e|]; simplify_eq/=.
  by exists a, b, c, d, e.
Qed.

(** C5. For a table with at least one sample, as many frequencies as
    moduli and a first (reference, lowest-frequency) sample [z0] whose real
    part is not zero, the table is written. Its first row has the
    normalized real complement [1 - Re z0 / Re z0 = 0] and the normalized
    imaginary part [Im z0 / Re z0]; every row holds, for its sample [z],
    [Im z / Re z0] and [1 - Re z / Re z0], and its bulk columns are its
    shear columns. *)
Theorem viscoelastic_table_rows self z0 zs :
  youngs_cplx self = z0 :: zs → real z0 ≠ 0%R →
  length (freq self) = length (youngs_cplx self) →
  ∃ fs rows,
    apply_shift self = Some fs ∧
    ViscoelasticMaterial_to_inp self = Some rows ∧
    length rows = length (youngs_cplx self) ∧
    (∃ f0 rest,
       rows = Row (imag z0 / real z0) 0 (imag z0 / real z0) 0 f0 :: rest) ∧
    ∀ i row, rows !! i = Some row →
      (∃ z f, youngs_cplx self !! i = Some z ∧ fs !! i = Some f ∧
         row = Row (imag z / real z0) (1 - real z / real z0)
                   (imag z / real z0) (1 - real z / real z0) f) ∧
      wkr row = wgr row ∧ wki row = wgi row.
Proof.
  intros Hy Hre Hlen.
  destruct (apply_shift_total self) as (fs & Hfs & Hfslen);
    [by rewrite Hy|done|].
  exists fs. unfold ViscoelasticMaterial_to_inp.
  assert (H0 : youngs_cplx self !! 0 = Some z0) by (by rewrite Hy).
  rewrite Hfs, H0. cbn [fmap option_fmap option_map mbind option_bind].
  eexists. split; [done|]. split; [done|].
  set (rows := zip5 _ _ _ _ _ _).
  assert (Hrows : ∀ i row, rows !! i = Some row →
    ∃ z f, youngs_cplx self !! i = Some z ∧ fs !! i = Some f ∧
      row = Row (imag z / real z0) (1 - real z / real z0)
                (imag z / real z0) (1 - real z / real z0) f).
  { intros i row (a & b & c & d & e & Ha & Hb & Hc & Hd & He & ->)
      %zip5_lookup_inv.
    rewrite list_lookup_fmap in Ha, Hb, Hc, Hd.
    destruct (youngs_cplx self !! i) as [z|]; simplify_eq/=.
    by exists z, e. }
  assert (Hrowslen : length rows = length (youngs_cplx self)).
  { apply zip5_length; rewrite ?length_fmap; congruence. }
  split; [done|]. split.
  - destruct rows as [|row rest] eqn:Hr; [by rewrite Hy in Hrowslen|].
    destruct (Hrows 0 row eq_refl) as (z & f & Hz & _ & ->).
    rewrite Hy in Hz. simplify_eq/=. exists f, rest. do 2 f_equal.
    all: by field.
  - intros i row Hi. destruct (Hrows i row Hi) as (z & f & Hz & Hf & ->).
    split; [by exists z, f|done].
Qed.

Lemma viscoelastic_table_rows_witness :
  youngs_cplx two_samples = [Complex 2 1; Complex 4 3] ∧
  real (Complex 2 1) ≠ 0%R ∧
  length (freq two_samples) = length (youngs_cplx two_samples) ∧
  ∃ rows, ViscoelasticMaterial_to_inp two_samples = Some rows ∧
          length rows = 2.
Proof.
  assert (Hre : real (Complex 2 1) ≠ 0%R) by (simpl; lra).
  split; [reflexivity|]. split; [exact Hre|]. split; [reflexivity|].
  destruct (viscoelastic_table_rows two_samples (Complex 2 1) [Complex 4 3]
              eq_refl Hre eq_refl)
    as (fs & rows & _ & Hrows & Hlen & _).
  exists rows. split; [exact Hrows|exact Hlen].
Defined.

(** [normalize_modulus] gives the same columns: a Poisson ratio that does
    not depend on the frequency drops out of the normalized shear and bulk
    moduli, which are thereby equal. *)
Lemma normalize_modulus_columns self z0 zs :
  youngs_cplx self = z0 :: zs → real z0 ≠ 0%R →
  poisson self ≠ (-1)%R → (2 * poisson self)%R ≠ 1%R →
  let cols :=
    (λ z, Complex (imag z / real z0) (1 - real z / real z0))
      <$> youngs_cplx self in
  normalize_modulus self = Some (cols, cols).
Proof.
  intros Hy Hre Hp1 Hp2 cols. unfold normalize_modulus.
  rewrite !list_lookup_fmap.
  assert (H0 : youngs_cplx self !! 0 = Some z0) by (by rewrite Hy).
  rewrite H0.
  cbn [fmap option_fmap option_map mbind option_bind cdiv real imag].
  unfold cols. rewrite <- !list_fmap_compose. do 2 f_equal.
  - apply list_fmap_ext. intros _ z _. simpl. f_equal; field; lra.
  - apply list_fmap_ext. intros _ z _. simpl. f_equal; field; lra.
Qed.

End viscoelastic.

(** ** Array objects *)

Section memory.
Context {B : Type}.

Lemma run_bind {A A'} (m : mem.M B A) (k : A → mem.M B A') σ :
  (m ≫= k) σ = match m σ with
                | (mem.Returned a, σ') => k a σ'
                | (mem.Raised, σ') => (mem.Raised, σ')
                end.
Proof. done. Qed.

Lemma run_ret {A} (a : A) (σ : list B) :
  (mret a : mem.M B A) σ = (mem.Returned a, σ).
Proof. done. Qed.

Lemma run_new (b : B) σ :
  mem.new b σ = (mem.Returned (length σ), σ ++ [b]).
Proof. done. Qed.

Lemma run_get a (b : B) σ :
  σ !! a = Some b → mem.get a σ = (mem.Returned b, σ).
Proof. unfold mem.get. by intros ->. Qed.

Lemma run_put a (b : B) σ :
  a < length σ → mem.put a b σ = (mem.Returned (), <[a := b]> σ).
Proof. intros. unfold mem.put. by rewrite decide_True. Qed.

End memory.

Section image_objects.

(** An array that holds as many items as its shape says is the table of
    its items. *)
Lemma tabulate_item_total (b : np.ndarray Z) h w :
  np.has_shape h w b → np.tabulate h w (np.item_total b) = b.
Proof.
  destruct b as [sh l]. intros [Hsh Hlen]. simpl in *. subst sh.
  unfold np.tabulate. f_equal. apply list_eq. intros i.
  destruct (decide (i < h * w)) as [Hi|Hi].
  - assert (0 < w) by nia.
    pose proof (Nat.div_mod_eq i w) as Hdm.
    pose proof (Nat.mod_upper_bound i w ltac:(lia)) as Hmod.
    assert (i `div` w < h) as Hdiv.
    { apply Nat.Div0.div_lt_upper_bound. lia. }
    replace i with (i `div` w * w + i `mod` w) at 1 2 by lia.
    rewrite (lookup_bind_seq _ w) by
      (done || intros; by rewrite length_fmap, length_seq).
    rewrite list_lookup_fmap, lookup_seq_lt by done. simpl.
    unfold np.item_total, np.item. simpl. rewrite decide_True by done.
    destruct (lookup_lt_is_Some_2 l (i `div` w * w + i `mod` w)) as [x Hx];
      [lia|].
    rewrite Hx. simpl. done.
  - rewrite !lookup_ge_None_2; [done|lia|].
    rewrite (length_bind_seq _ w); [lia|].
    intros. by rewrite length_fmap, length_seq.
Qed.

(** The window of an array that owns its buffer shows the buffer. *)
Lemma window_whole b a h w :
  np.has_shape h w b → Img.window b (Img.Array a (0, 0) (h, w)) = b.
Proof. intros Hb. unfold Img.window. simpl. by apply tabulate_item_total. Qed.

Lemma window_has_shape b v :
  np.has_shape (Img.extent v).1 (Img.extent v).2 (Img.window b v).
Proof. apply tabulate_has_shape. Qed.

Lemma run_value v b σ :
  σ !! Img.base v = Some b →
  Img.value v σ = (mem.Returned (Img.window b v), σ).
Proof.
  intros Hb. unfold Img.value. by rewrite run_bind, (run_get _ b).
Qed.

Lemma run_make x (σ : list (np.ndarray Z)) :
  Img.make x σ
  = (mem.Returned (Img.Array (length σ) (0, 0) (np.shape x)), σ ++ [x]).
Proof. done. Qed.

Lemma has_shape_map {A B} (f : A → B) a h w :
  np.has_shape h w a → np.has_shape h w (np.map f a).
Proof. intros [Hsh Hlen]. split; [done|]. simpl. by rewrite length_fmap. Qed.

Lemma has_shape_map2 {A B C} (f : A → B → C) a b h w :
  np.has_shape h w a → np.has_shape h w b → np.has_shape h w (np.map2 f a b).
Proof.
  intros [Hsh Hlen] [_ Hlen']. split; [done|]. simpl.
  rewrite length_zip_with. lia.
Qed.

Lemma overlay_whole b x a h w :
  np.has_shape h w b → np.has_shape h w x →
  Img.overlay b (Img.Array a (0, 0) (h, w)) x = x.
Proof.
  intros [Hsh _] Hx. unfold Img.overlay. rewrite Hsh. simpl.
  transitivity (np.tabulate h w (np.item_total x));
    [|by apply tabulate_item_total].
  apply tabulate_ext. intros r c Hr Hc.
  rewrite decide_True by lia. by rewrite !Nat.sub_0_r.
Qed.

Lemma threshold_step_u1 d x n :
  np.map2 (λ a c, ((a + c) `mod` 256)%Z) x
    (np.map (λ d2, u1_of_bool (dist_gt d2 n)) d)
  = threshold_step d x n.
Proof.
  unfold threshold_step, np.map2, np.map. simpl. f_equal.
  by rewrite !zip_with_fmap_r.
Qed.

Lemma has_shape_threshold_step d x n h w :
  np.has_shape h w d → np.has_shape h w x →
  np.has_shape h w (threshold_step d x n).
Proof. intros. apply has_shape_map2; [done|]. by apply has_shape_map. Qed.

(** One round of the loop on array objects: a new buffer for the mask,
    and the buffer of the labels written in place. *)
Lemma run_threshold_round d cur n τ ad ai h w :
  τ !! ad = Some d → τ !! ai = Some cur →
  np.has_shape h w d → np.has_shape h w cur →
  (mask ← Img.gt (Img.Array ad (0, 0) (h, w)) n;
   Img.iadd (Img.Array ai (0, 0) (h, w)) mask) τ
  = (mem.Returned (),
     <[ai := threshold_step d cur n]> τ
       ++ [np.map (λ d2, u1_of_bool (dist_gt d2 n)) d]).
Proof.
  intros Hd Hcur Hds Hcs.
  rewrite run_bind. unfold Img.gt.
  rewrite run_bind, (run_value _ d) by done.
  rewrite (window_whole d ad h w Hds), run_make.
  set (mask := np.map _ d).
  assert (Hms : np.has_shape h w mask) by by apply has_shape_map.
  replace (np.shape mask) with (h, w) by (symmetry; apply Hms).
  unfold Img.iadd.
  assert (Hai : ai < length τ) by by eapply lookup_lt_Some.
  rewrite run_bind, (run_value _ cur) by by rewrite lookup_app_l.
  rewrite (window_whole cur ai h w Hcs).
  rewrite run_bind, (run_value _ mask)
    by (simpl; by rewrite lookup_app_r, Nat.sub_diag).
  rewrite (window_whole mask _ h w Hms).
  rewrite run_bind, (run_get _ cur) by (simpl; by rewrite lookup_app_l).
  simpl Img.base. rewrite run_put by (rewrite length_app; lia).
  unfold mask at 1. rewrite threshold_step_u1, overlay_whole;
    [|done|by apply has_shape_threshold_step].
  by rewrite insert_app_l.
Qed.

(** The loop of [assign_intph] on array objects: the buffer of the labels
    ends with the labels of the pure loop, the buffers that were there are
    otherwise as they were, and the masks are new. *)
Lemma run_threshold_loop d s h w ad ai :
  ad ≠ ai → np.has_shape h w d →
  ∀ cur τ, τ !! ad = Some d → τ !! ai = Some cur → np.has_shape h w cur →
  ∃ temps,
    mem.for_each s
      (λ n, mask ← Img.gt (Img.Array ad (0, 0) (h, w)) n;
            Img.iadd (Img.Array ai (0, 0) (h, w)) mask) τ
    = (mem.Returned (),
       <[ai := foldl (threshold_step d) cur s]> τ ++ temps).
Proof.
  intros Hne Hds. induction s as [|n s IH]; intros cur τ Hd Hcur Hcs.
  - exists []. simpl. rewrite app_nil_r, list_insert_id by done. done.
  - cbn [mem.for_each]. unfold mem.bind.
    rewrite (run_threshold_round d cur n τ ad ai h w) by done.
    set (new := threshold_step d cur n).
    assert (Hai : ai < length τ) by by eapply lookup_lt_Some.
    assert (Had : ad < length τ) by by eapply lookup_lt_Some.
    destruct (IH new (<[ai := new]> τ ++ [np.map (λ d2, u1_of_bool (dist_gt d2 n)) d]))
      as [temps Hrun].
    + rewrite lookup_app_l by (rewrite length_insert; lia).
      by rewrite list_lookup_insert_ne.
    + rewrite lookup_app_l by (rewrite length_insert; lia).
      by rewrite list_lookup_insert_eq.
    + by apply has_shape_threshold_step.
    + rewrite Hrun. eexists. f_equal. simpl foldl. fold new.
      rewrite insert_app_l by (rewrite length_insert; lia).
      rewrite list_insert_insert_eq. by rewrite <- app_assoc.
Qed.

Lemma foldl_threshold_step_has_shape d s h w :
  np.has_shape h w d →
  ∀ cur, np.has_shape h w cur →
         np.has_shape h w (foldl (threshold_step d) cur s).
Proof.
  intros Hd. induction s as [|n s IH]; intros cur Hcur; [done|].
  simpl. apply IH. by apply has_shape_threshold_step.
Qed.

Lemma edt_array_has_shape unspecified (x : np.ndarray Z) :
  np.has_shape (np.shape x).1 (np.shape x).2 (edt_array unspecified x).
Proof.
  unfold edt_array.
  destruct (distance_transform_edt x) as [d|] eqn:Hedt.
  - destruct (distance_transform_edt_tabulate _ _ Hedt) as [f ->].
    apply tabulate_has_shape.
  - apply tabulate_has_shape.
Qed.

(** [assign_intph] on array objects, for every image: the distances and
    the labels are two new buffers, the array returned owns the buffer of
    the labels, and the labels are those of the pure function where the
    distances are those of the documentation of scipy. *)
Lemma run_assign_intph unspecified mv b l σ :
  σ !! Img.base mv = Some b →
  ∃ d labels temps,
    np.has_shape (Img.extent mv).1 (Img.extent mv).2 labels ∧
    Img.assign_intph unspecified mv l σ
    = (mem.Returned (Img.Array (S (length σ)) (0, 0) (Img.extent mv)),
       σ ++ d :: labels :: temps) ∧
    ∀ pure, assign_intph (Img.window b mv) l = Some pure → labels = pure.
Proof.
  intros Hb.
  set (x := Img.window b mv).
  set (d := edt_array unspecified x).
  set (h := (Img.extent mv).1). set (w := (Img.extent mv).2).
  assert (Hxsh : np.shape x = (h, w)) by done.
  assert (Hds : np.has_shape h w d).
  { pose proof (edt_array_has_shape unspecified x) as Hd.
    by rewrite Hxsh in Hd. }
  assert (Hdsh : np.shape d = (h, w)) by apply Hds.
  set (init := np.map (λ d2, u1_of_bool (dist_ne_0 d2)) d).
  assert (His : np.has_shape h w init) by by apply has_shape_map.
  destruct (run_threshold_loop d (sorted l) h w (length σ) (S (length σ))
              ltac:(lia) Hds init (σ ++ [d] ++ [init])) as [temps Hloop].
  { by rewrite lookup_app_r, Nat.sub_diag. }
  { rewrite lookup_app_r by lia.
    by replace (S (length σ) - length σ) with 1 by lia. }
  { done. }
  exists d, (foldl (threshold_step d) init (sorted l)), temps.
  split; [|split].
  - by apply foldl_threshold_step_has_shape.
  - unfold Img.assign_intph.
    rewrite run_bind. unfold Img.distance_transform_edt.
    rewrite run_bind, (run_value _ b), run_make by done.
    fold x. fold d. rewrite Hdsh.
    rewrite run_bind. unfold Img.ne_0_view_u1.
    rewrite run_bind, (run_value _ d)
      by (simpl; by rewrite lookup_app_r, Nat.sub_diag).
    rewrite (window_whole d _ h w Hds), run_make. fold init.
    replace (np.shape init) with (h, w) by (symmetry; apply His).
    rewrite run_bind.
    replace (length (σ ++ [d])) with (S (length σ))
      by (rewrite length_app; simpl; lia).
    rewrite <- app_assoc, Hloop. rewrite run_ret.
    replace (Img.extent mv) with (h, w) by by destruct (Img.extent mv).
    f_equal.
    rewrite insert_app_r_alt by lia.
    replace (S (length σ) - length σ) with 1 by lia.
    by rewrite <- app_assoc.
  - intros pure. unfold assign_intph. fold x. unfold init, d, edt_array.
    destruct (distance_transform_edt x) as [d'|]; [|done].
    by intros [= <-].
Qed.

(** A view cut out of an array that owns its buffer shows the window of
    the buffer that the slices select. *)
Lemma window_getslice x a h w s0 s1 :
  np.shape x = (h, w) →
  Img.window x (Img.getslice (Img.Array a (0, 0) (h, w)) s0 s1)
  = np.getslice x s0 s1.
Proof.
  intros Hsh. unfold Img.getslice, np.getslice. rewrite Hsh. simpl.
  destruct (np.slice_bounds h s0) as [lo0 hi0].
  by destruct (np.slice_bounds w s1) as [lo1 hi1].
Qed.

Lemma shape_getslice_range (x : np.ndarray Z) H W :
  np.shape x = (3 * H, 3 * W) →
  np.shape (np.getslice x (s_range H (H + H)) (s_range W (W + W))) = (H, W).
Proof.
  intros Hsh. unfold np.getslice. rewrite Hsh. cbn [fst snd].
  rewrite !slice_bounds_range. rewrite shape_tabulate. f_equal; lia.
Qed.

Lemma shape_tile (m : np.ndarray Z) H W :
  np.shape m = (H, W) → np.has_shape (3 * H) (3 * W) (np.tile m (3, 3)).
Proof. intros Hsh. unfold np.tile. rewrite Hsh. apply tabulate_has_shape. Qed.

(** C7. For every microstructure of shape [(H, W)] and every thickness
    list, the periodic classifier returns the middle [H x W] block (rows
    [H .. 2H - 1], columns [W .. 2W - 1]) of the labels that the classifier
    computes on the 3 x 3 tiling of the image. On array objects the call
    returns for every image, whatever scipy computes on an image without a
    zero pixel: the tiling and the labels of the tiling are arrays of
    their own, the array returned shows the middle block of the labels of
    the tiling, and it owns a buffer that is built by the final copy: its
    address is not in use before the copy, so it is neither the buffer of
    the tiling nor the buffer of the labels of the tiling, which the
    returned array does not refer to. *)
Theorem periodic_assign_intph_owned unspecified mv b l σ H W :
  σ !! Img.base mv = Some b → Img.extent mv = (H, W) →
  let m := Img.window b mv in
  periodic_assign_intph m l
  = (λ t, np.getslice t (s_range H (H + H)) (s_range W (W + W)))
      <$> assign_intph (np.tile m (3, 3)) l ∧
  ∃ tiled σ1 intph_tiled σ2 result labels_tiled labels,
    Img.tile mv (3, 3) σ = (mem.Returned tiled, σ1) ∧
    Img.value tiled σ1 = (mem.Returned (np.tile m (3, 3)), σ1) ∧
    Img.assign_intph unspecified tiled l σ1
      = (mem.Returned intph_tiled, σ2) ∧
    Img.value intph_tiled σ2 = (mem.Returned labels_tiled, σ2) ∧
    (∀ pure, assign_intph (np.tile m (3, 3)) l = Some pure →
             labels_tiled = pure) ∧
    Img.periodic_assign_intph unspecified mv l σ
      = (mem.Returned result, σ2 ++ [labels]) ∧
    labels
      = np.getslice labels_tiled (s_range H (H + H)) (s_range W (W + W)) ∧
    (∀ pure, periodic_assign_intph m l = Some pure → labels = pure) ∧
    result = Img.Array (length σ2) (0, 0) (H, W) ∧
    Img.value result (σ2 ++ [labels]) = (mem.Returned labels, σ2 ++ [labels]) ∧
    np.has_shape H W labels ∧
    Img.base tiled < length σ2 ∧ Img.base intph_tiled < length σ2 ∧
    Img.base result ≠ Img.base tiled ∧
    Img.base result ≠ Img.base intph_tiled ∧
    σ `prefix_of` σ2.
Proof.
  intros Hb Hext m.
  assert (Hm : np.shape m = (H, W)).
  { unfold m, Img.window. by rewrite shape_tabulate, Hext. }
  split; [by apply periodic_assign_intph_eq|].
  set (T := np.tile m (3, 3)).
  pose proof (shape_tile m H W Hm) as HT. fold T in HT.
  assert (HTsh : np.shape T = (3 * H, 3 * W)) by apply HT.
  assert (Htile : Img.tile mv (3, 3) σ
    = (mem.Returned (Img.Array (length σ) (0, 0) (3 * H, 3 * W)), σ ++ [T])).
  { unfold Img.tile. rewrite run_bind, (run_value _ b) by done.
    fold m. fold T. by rewrite run_make, HTsh. }
  set (tv := Img.Array (length σ) (0, 0) (3 * H, 3 * W)) in *.
  assert (Htv : (σ ++ [T]) !! Img.base tv = Some T).
  { simpl. by rewrite lookup_app_r, Nat.sub_diag. }
  assert (Hwin : Img.window T tv = T) by by apply window_whole.
  destruct (run_assign_intph unspecified tv T l (σ ++ [T]) Htv)
    as (d & labels_t & temps & Hls & Hrun & Hpure).
  rewrite Hwin in Hpure. cbn [Img.extent tv fst snd] in Hls, Hrun.
  assert (Hlsh : np.shape labels_t = (3 * H, 3 * W)) by apply Hls.
  set (σ2 := (σ ++ [T]) ++ d :: labels_t :: temps) in *.
  set (iv := Img.Array (S (length (σ ++ [T]))) (0, 0) (3 * H, 3 * W)) in *.
  set (crop := np.getslice labels_t (s_range H (H + H)) (s_range W (W + W))).
  assert (Hcsh : np.shape crop = (H, W)) by by apply shape_getslice_range.
  assert (Hcrop : np.has_shape H W crop).
  { split; [done|]. unfold crop, np.getslice. rewrite Hlsh. cbn [fst snd].
    rewrite !slice_bounds_range, length_tabulate. nia. }
  assert (Hiv : σ2 !! Img.base iv = Some labels_t).
  { unfold σ2, iv. simpl. rewrite lookup_app_r by lia.
    by replace (S (length (σ ++ [T])) - length (σ ++ [T])) with 1 by lia. }
  assert (Hivwin : Img.window labels_t iv = labels_t) by by apply window_whole.
  exists tv, (σ ++ [T]), iv, σ2, (Img.Array (length σ2) (0, 0) (H, W)),
    labels_t, crop.
  split; [done|].
  split; [by rewrite (run_value _ T), Hwin|].
  split; [done|].
  split; [by rewrite (run_value _ labels_t), Hivwin|].
  split; [done|].
  split.
  { unfold Img.periodic_assign_intph.
    rewrite run_bind, Htile, Hext, run_bind, Hrun. unfold Img.copy.
    rewrite run_bind, run_bind, (run_value _ labels_t) by done.
    unfold iv. rewrite (window_getslice labels_t _ _ _ _ _ Hlsh).
    fold crop. by rewrite run_make, run_ret, Hcsh. }
  split; [done|].
  split.
  { intros pure. rewrite (periodic_assign_intph_eq m l H W Hm). fold T.
    destruct (assign_intph T l) as [pt|] eqn:Hpt; [|done].
    cbn [fmap option_fmap option_map]. intros [= <-]. unfold crop.
    by rewrite (Hpure pt eq_refl). }
  split; [done|].
  split.
  { rewrite (run_value _ crop)
      by (simpl; by rewrite lookup_app_r, Nat.sub_diag).
    by rewrite window_whole. }
  split; [done|].
  assert (Hlen2 : length σ2 = length σ + 3 + length temps).
  { unfold σ2. rewrite !length_app. simpl. lia. }
  simpl Img.base. rewrite length_app. simpl length.
  repeat split; try lia.
  unfold σ2. rewrite <- app_assoc. by apply prefix_app_r.
Qed.

Lemma periodic_assign_intph_owned_witness :
  [img_1x1] !! Img.base (Img.Array 0 (0, 0) (1, 1)) = Some img_1x1 ∧
  Img.extent (Img.Array 0 (0, 0) (1, 1)) = (1, 1) ∧
  distance_transform_edt (Img.window img_1x1 (Img.Array 0 (0, 0) (1, 1)))
  = None ∧
  ∃ result τ labels,
    Img.periodic_assign_intph (λ _ _ _, 4%Z) (Img.Array 0 (0, 0) (1, 1))
      [1%Z] [img_1x1]
    = (mem.Returned result, τ) ∧
    Img.value result τ = (mem.Returned labels, τ) ∧
    np.has_shape 1 1 labels ∧
    length [img_1x1] ≤ Img.base result.
Proof.
  split; [reflexivity|]. split; [reflexivity|]. split; [reflexivity|].
  destruct (periodic_assign_intph_owned (λ _ _ _, 4%Z)
              (Img.Array 0 (0, 0) (1, 1)) img_1x1 [1%Z] [img_1x1] 1 1
              eq_refl eq_refl)
    as (_ & tiled & σ1 & intph_tiled & σ2 & result & labels_tiled & labels
        & _ & _ & _ & _ & _ & Hrun & _ & _ & Hres & Hval & Hshape & _ & _
        & _ & _ & Hprefix).
  exists result, (σ2 ++ [labels]), labels.
  split; [exact Hrun|]. split; [exact Hval|]. split; [exact Hshape|].
  rewrite Hres. cbn [Img.base]. exact (prefix_length _ _ Hprefix).
Defined.

End image_objects.

Section table_objects.

Implicit Types (τ : list Vec.buffer).

Lemma run_value_Whole a l τ :
  τ !! a = Some (Vec.Reals l) →
  Vec.value (Vec.Whole a) τ = (mem.Returned l, τ).
Proof.
  intros Ha. unfold Vec.value.
  by rewrite run_bind, (run_get _ (Vec.Reals l)).
Qed.

Lemma run_value_Window a lo hi l τ :
  τ !! a = Some (Vec.Reals l) →
  Vec.value (Vec.Window a lo hi) τ
  = (mem.Returned (take (hi - lo) (drop lo l)), τ).
Proof.
  intros Ha. unfold Vec.value.
  by rewrite run_bind, (run_get _ (Vec.Reals l)).
Qed.

Lemma run_value_RealPart a l τ :
  τ !! a = Some (Vec.Complexes l) →
  Vec.value (Vec.RealPart a) τ = (mem.Returned (real <$> l), τ).
Proof.
  intros Ha. unfold Vec.value.
  by rewrite run_bind, (run_get _ (Vec.Complexes l)).
Qed.

Lemma run_value_ImagPart a l τ :
  τ !! a = Some (Vec.Complexes l) →
  Vec.value (Vec.ImagPart a) τ = (mem.Returned (imag <$> l), τ).
Proof.
  intros Ha. unfold Vec.value.
  by rewrite run_bind, (run_get _ (Vec.Complexes l)).
Qed.

Lemma run_Vec_map f v x τ :
  Vec.value v τ = (mem.Returned x, τ) →
  Vec.map f v τ
  = (mem.Returned (Vec.Whole (length τ)), τ ++ [Vec.Reals (f <$> x)]).
Proof. intros Hv. unfold Vec.map. by rewrite run_bind, Hv. Qed.

Lemma run_Vec_map2 f v w x y τ :
  Vec.value v τ = (mem.Returned x, τ) →
  Vec.value w τ = (mem.Returned y, τ) →
  length x = length y →
  Vec.map2 f v w τ
  = (mem.Returned (Vec.Whole (length τ)), τ ++ [Vec.Reals (zip_with f x y)]).
Proof.
  intros Hv Hw Hlen. unfold Vec.map2.
  rewrite run_bind, Hv, run_bind, Hw. by rewrite decide_True.
Qed.

Lemma run_Vec_getslice a l s τ :
  τ !! a = Some (Vec.Reals l) →
  Vec.getslice (Vec.Whole a) s τ
  = (mem.Returned (Vec.Window a (np.slice_bounds (length l) s).1
                                (np.slice_bounds (length l) s).2), τ).
Proof.
  intros Ha. unfold Vec.getslice.
  rewrite run_bind, (run_value_Whole _ l) by done.
  by destruct (np.slice_bounds (length l) s).
Qed.

Lemma run_Vec_assign a lo hi w y l τ :
  Vec.value w τ = (mem.Returned y, τ) →
  τ !! a = Some (Vec.Reals l) →
  length y = hi - lo → hi ≤ length l →
  Vec.assign (Vec.Window a lo hi) w τ
  = (mem.Returned (), <[a := Vec.Reals (take lo l ++ y ++ drop hi l)]> τ).
Proof.
  intros Hw Ha Hy Hhi. unfold Vec.assign.
  rewrite run_bind, Hw, run_bind, (run_get _ (Vec.Reals l)) by done.
  rewrite decide_True by done. apply run_put. by eapply lookup_lt_Some.
Qed.

Lemma slice_bounds_upto n i :
  i ≤ n → np.slice_bounds n (np.Slice None (Some (Z.of_nat i))) = (0, i).
Proof.
  intros. unfold np.slice_bounds, np.adjust.
  cbn [np.start np.stop from_option]. rewrite decide_False by lia.
  f_equal. lia.
Qed.

Lemma slice_bounds_from n i :
  i ≤ n → np.slice_bounds n (np.Slice (Some (Z.of_nat i)) None) = (i, n).
Proof.
  intros. unfold np.slice_bounds, np.adjust.
  cbn [np.start np.stop from_option]. rewrite decide_False by lia.
  f_equal. lia.
Qed.

Lemma lookup_local {B} (σ L : list B) k :
  (σ ++ L) !! (length σ + k) = L !! k.
Proof. rewrite lookup_app_r by lia. f_equal. lia. Qed.

Lemma run_Vec_map_local f v x σ L :
  Vec.value v (σ ++ L) = (mem.Returned x, σ ++ L) →
  Vec.map f v (σ ++ L)
  = (mem.Returned (Vec.Whole (length σ + length L)),
     σ ++ (L ++ [Vec.Reals (f <$> x)])).
Proof.
  intros Hv. rewrite (run_Vec_map f v x) by done.
  by rewrite length_app, <- app_assoc.
Qed.

Lemma run_Vec_map2_local f v w x y σ L :
  Vec.value v (σ ++ L) = (mem.Returned x, σ ++ L) →
  Vec.value w (σ ++ L) = (mem.Returned y, σ ++ L) →
  length x = length y →
  Vec.map2 f v w (σ ++ L)
  = (mem.Returned (Vec.Whole (length σ + length L)),
     σ ++ (L ++ [Vec.Reals (zip_with f x y)])).
Proof.
  intros Hv Hw Hlen. rewrite (run_Vec_map2 f v w x y) by done.
  by rewrite length_app, <- app_assoc.
Qed.

Lemma run_Vec_assign_local k lo hi w y l σ L :
  Vec.value w (σ ++ L) = (mem.Returned y, σ ++ L) →
  L !! k = Some (Vec.Reals l) →
  length y = hi - lo → hi ≤ length l →
  Vec.assign (Vec.Window (length σ + k) lo hi) w (σ ++ L)
  = (mem.Returned (),
     σ ++ <[k := Vec.Reals (take lo l ++ y ++ drop hi l)]> L).
Proof.
  intros Hw Hk Hy Hhi.
  rewrite (run_Vec_assign _ lo hi w y l) by (done || by rewrite lookup_local).
  by rewrite insert_app_r.
Qed.

Lemma run_value_local k l σ L :
  L !! k = Some (Vec.Reals l) →
  Vec.value (Vec.Whole (length σ + k)) (σ ++ L) = (mem.Returned l, σ ++ L).
Proof. intros Hk. apply run_value_Whole. by rewrite lookup_local. Qed.

Lemma run_value_Window_local k lo hi l σ L :
  L !! k = Some (Vec.Reals l) →
  Vec.value (Vec.Window (length σ + k) lo hi) (σ ++ L)
  = (mem.Returned (take (hi - lo) (drop lo l)), σ ++ L).
Proof. intros Hk. apply run_value_Window. by rewrite lookup_local. Qed.

Lemma run_Vec_getslice_local k l s σ L :
  L !! k = Some (Vec.Reals l) →
  Vec.getslice (Vec.Whole (length σ + k)) s (σ ++ L)
  = (mem.Returned (Vec.Window (length σ + k)
                     (np.slice_bounds (length l) s).1
                     (np.slice_bounds (length l) s).2), σ ++ L).
Proof. intros Hk. apply run_Vec_getslice. by rewrite lookup_local. Qed.

(** [freq[lo:hi] = c * (freq[lo:hi] - f) + f] on array objects: three new
    buffers for the right-hand side, and the window of [freq] written in
    place. [freq] is the local at position [k]. *)
Lemma run_broaden k (c f : R) s lo hi l σ L :
  L !! k = Some (Vec.Reals l) →
  np.slice_bounds (length l) s = (lo, hi) → lo ≤ hi → hi ≤ length l →
  let rhs := (λ x, c * (x - f) + f)%R <$> take (hi - lo) (drop lo l) in
  Vec.scale_about (Vec.Whole (length σ + k)) s c f (σ ++ L)
  = (mem.Returned (),
     σ ++ (<[k := Vec.Reals (take lo l ++ rhs ++ drop hi l)]> L
           ++ [Vec.Reals ((λ x, x - f)%R <$> take (hi - lo) (drop lo l));
               Vec.Reals ((λ x, c * x)%R <$>
                          ((λ x, x - f)%R <$> take (hi - lo) (drop lo l)));
               Vec.Reals rhs])).
Proof.
  intros Hk Hs Hlohi Hhi rhs.
  assert (Hkl : k < length L) by by eapply lookup_lt_Some.
  unfold Vec.scale_about.
  rewrite run_bind, (run_Vec_getslice_local k l) by done.
  rewrite Hs. cbn [fst snd].
  rewrite run_bind, (run_Vec_map_local _ _ (take (hi - lo) (drop lo l)))
    by by apply run_value_Window_local.
  set (X1 := (λ x, x - f)%R <$> _).
  rewrite run_bind, (run_Vec_map_local _ _ X1)
    by (apply run_value_local; by rewrite lookup_app_r, Nat.sub_diag).
  set (X2 := (λ x, c * x)%R <$> X1).
  rewrite run_bind, (run_Vec_map_local _ _ X2).
  2:{ rewrite length_app. simpl length.
      replace (length σ + (length L + 1)) with (length σ + S (length L)) by lia.
      apply run_value_local.
      rewrite <- app_assoc, lookup_app_r by lia.
      by replace (S (length L) - length L) with 1 by lia. }
  set (X3 := (λ x, x + f)%R <$> X2).
  assert (HX3 : X3 = rhs).
  { unfold X3, X2, X1, rhs. rewrite <- !list_fmap_compose. done. }
  rewrite run_bind, (run_Vec_getslice_local k l)
    by (rewrite <- !app_assoc; by apply lookup_app_l_Some).
  rewrite Hs. cbn [fst snd].
  rewrite !length_app. simpl length.
  replace (length σ + (length L + 1 + 1)) with (length σ + (length L + 2))
    by lia.
  rewrite (run_Vec_assign_local k lo hi _ X3 l).
  - f_equal. f_equal. rewrite <- !app_assoc. simpl app.
    rewrite insert_app_l by done. by rewrite HX3.
  - apply run_value_local. rewrite <- !app_assoc.
    rewrite lookup_app_r by lia.
    by replace (length L + 2 - length L) with 2 by lia.
  - rewrite <- !app_assoc. by apply lookup_app_l_Some.
  - unfold X3, X2, X1. rewrite !length_fmap, length_take, length_drop. lia.
  - done.
Qed.

(** [apply_shift] on array objects: the store it leaves is the store it
    was given followed by the new buffers, and the array it returns holds
    what the function on values computes from the values of the two
    fields; it raises when that function fails. *)
Lemma run_apply_shift self σ af ay fs ys :
  Vec.freq self = Vec.Whole af → Vec.youngs_cplx self = Vec.Whole ay →
  σ !! af = Some (Vec.Reals fs) → σ !! ay = Some (Vec.Complexes ys) →
  ∃ out locals,
    Vec.apply_shift self σ = (out, σ ++ locals) ∧
    ((out = mem.Raised ∧ apply_shift (snapshot self fs ys) = None) ∨
     (∃ k r, out = mem.Returned (Vec.Whole (length σ + k)) ∧
             locals !! k = Some (Vec.Reals r) ∧
             apply_shift (snapshot self fs ys) = Some r)).
Proof.
  intros Hfreq Hyoungs Hf Hy.
  unfold Vec.apply_shift, apply_shift. rewrite Hfreq, Hyoungs.
  cbn [snapshot freq youngs_cplx shift left_broadening right_broadening].
  set (L0 := log10 <$> fs).
  set (L1 := (λ x, log10 x - Vec.shift self)%R <$> fs).
  set (tand := zip_with Rdiv (imag <$> ys) (real <$> ys)).
  rewrite run_bind, (run_Vec_map _ _ fs) by by apply run_value_Whole.
  fold L0.
  rewrite run_bind, (run_Vec_map _ _ L0)
    by (apply run_value_Whole; by rewrite lookup_app_r, Nat.sub_diag).
  replace ((λ x, x - Vec.shift self)%R <$> L0) with L1
    by (unfold L0, L1; by rewrite <- list_fmap_compose).
  rewrite <- app_assoc. cbn [app].
  replace (length (σ ++ [Vec.Reals L0])) with (length σ + 1)
    by (rewrite length_app; done).
  rewrite run_bind. cbn [Vec.imag_of]. rewrite run_ret.
  rewrite run_bind. cbn [Vec.real_of]. rewrite run_ret.
  rewrite run_bind,
    (run_Vec_map2_local _ _ _ (imag <$> ys) (real <$> ys)).
  2:{ apply run_value_ImagPart. by apply lookup_app_l_Some. }
  2:{ apply run_value_RealPart. by apply lookup_app_l_Some. }
  2:{ by rewrite !length_fmap. }
  fold tand. cbn [app length].
  rewrite run_bind. unfold Vec.argmax.
  rewrite run_bind, (run_value_local 2 tand) by done.
  destruct (argmax tand) as [i|] eqn:Hi.
  2:{ eexists _, _. split; [done|]. left. done. }
  rewrite run_ret. cbn [mbind option_bind].
  rewrite run_bind. unfold Vec.item.
  rewrite run_bind, (run_value_local 1 L1) by done.
  destruct (L1 !! i) as [f|] eqn:Hfi.
  2:{ eexists _, _. split; [done|]. left. done. }
  rewrite run_ret. cbn [mbind option_bind].
  assert (Hil : i < length L1) by by eapply lookup_lt_Some.
  rewrite run_bind.
  rewrite (run_broaden 1 (Vec.left_broadening self) f _ 0 i L1);
    [|done|by apply slice_bounds_upto; lia|lia|lia].
  cbn [insert list_insert app].
  rewrite Nat.sub_0_r, drop_0, take_0, app_nil_l.
  set (gl := (λ x, Vec.left_broadening self * (x - f) + f)%R).
  set (F1 := (gl <$> take i L1) ++ drop i L1).
  assert (HF1 : length F1 = length L1).
  { unfold F1. rewrite length_app, length_fmap, length_take, length_drop. lia. }
  rewrite run_bind.
  rewrite (run_broaden 1 (Vec.right_broadening self) f _ i (length F1) F1);
    [|done|by apply slice_bounds_from; lia|lia|lia].
  cbn [insert list_insert app].
  rewrite drop_all, app_nil_r, !(take_ge (drop i F1))
    by (rewrite length_drop; lia).
  set (gr := (λ x, Vec.right_broadening self * (x - f) + f)%R).
  set (F2 := take i F1 ++ (gr <$> drop i F1)).
  rewrite (run_Vec_map_local _ _ F2) by by apply (run_value_local 1).
  eexists _, _. split; [done|]. right.
  exists 9, (pow10 <$> F2). split; [done|]. split; [done|done].
Qed.

Lemma contents_run σ locals out (pure : option (list R)) :
  (out = mem.Raised ∧ pure = None) ∨
  (∃ k r, out = mem.Returned (Vec.Whole (length σ + k)) ∧
          locals !! k = Some (Vec.Reals r) ∧ pure = Some r) →
  contents (σ ++ locals) out = pure ∧
  ∀ more, contents ((σ ++ locals) ++ more) out = pure.
Proof.
  intros [[-> ->]|(k & r & -> & Hk & ->)]; [done|].
  unfold contents. split.
  - by rewrite lookup_local, Hk.
  - intros more. rewrite <- app_assoc, lookup_local.
    by rewrite (lookup_app_l_Some _ _ _ _ Hk).
Qed.

(** C10. A call of the transform leaves the two arrays of the material as
    they were: the store after the call is the store before it followed by
    new buffers, so the buffers of [freq] and [youngs_cplx] hold the values
    they held. A second call right after the first returns an array with
    the same items (or raises as the first did), and leaves the result of
    the first call as it was. *)
Theorem apply_shift_no_mutation self σ af ay fs ys :
  Vec.freq self = Vec.Whole af → Vec.youngs_cplx self = Vec.Whole ay →
  σ !! af = Some (Vec.Reals fs) → σ !! ay = Some (Vec.Complexes ys) →
  ∃ out1 σ1 out2 σ2,
    Vec.apply_shift self σ = (out1, σ1) ∧
    Vec.apply_shift self σ1 = (out2, σ2) ∧
    σ `prefix_of` σ1 ∧ σ1 `prefix_of` σ2 ∧
    σ1 !! af = Some (Vec.Reals fs) ∧ σ1 !! ay = Some (Vec.Complexes ys) ∧
    σ2 !! af = Some (Vec.Reals fs) ∧ σ2 !! ay = Some (Vec.Complexes ys) ∧
    contents σ1 out1 = apply_shift (snapshot self fs ys) ∧
    contents σ2 out2 = contents σ1 out1 ∧
    contents σ2 out1 = contents σ1 out1.
Proof.
  intros Hfreq Hyoungs Hf Hy.
  destruct (run_apply_shift self σ af ay fs ys Hfreq Hyoungs Hf Hy)
    as (out1 & locals1 & Hrun1 & Hout1).
  assert (Hf1 : (σ ++ locals1) !! af = Some (Vec.Reals fs))
    by by apply lookup_app_l_Some.
  assert (Hy1 : (σ ++ locals1) !! ay = Some (Vec.Complexes ys))
    by by apply lookup_app_l_Some.
  destruct (run_apply_shift self (σ ++ locals1) af ay fs ys
              Hfreq Hyoungs Hf1 Hy1)
    as (out2 & locals2 & Hrun2 & Hout2).
  destruct (contents_run _ _ _ _ Hout1) as [Hc1 Hc1'].
  destruct (contents_run _ _ _ _ Hout2) as [Hc2 _].
  exists out1, (σ ++ locals1), out2, ((σ ++ locals1) ++ locals2).
  split; [done|]. split; [done|].
  split; [by apply prefix_app_r|]. split; [by apply prefix_app_r|].
  split; [done|]. split; [done|].
  split; [by apply lookup_app_l_Some|]. split; [by apply lookup_app_l_Some|].
  split; [done|]. split; [by rewrite Hc2, Hc1|].
  by rewrite Hc1', Hc1.
Qed.

Lemma apply_shift_no_mutation_witness :
  Vec.freq two_samples_object = Vec.Whole 0 ∧
  Vec.youngs_cplx two_samples_object = Vec.Whole 1 ∧
  two_samples_store !! 0 = Some (Vec.Reals [1; 10]%R) ∧
  two_samples_store !! 1
    = Some (Vec.Complexes [Complex 2 1; Complex 4 3]) ∧
  ∃ out1 σ1, Vec.apply_shift two_samples_object two_samples_store = (out1, σ1) ∧
             σ1 !! 0 = Some (Vec.Reals [1; 10]%R) ∧
             σ1 !! 1 = Some (Vec.Complexes [Complex 2 1; Complex 4 3]).
Proof.
  split; [reflexivity|]. split; [reflexivity|].
  split; [reflexivity|]. split; [reflexivity|].
  destruct (apply_shift_no_mutation two_samples_object two_samples_store
              0 1 [1; 10]%R [Complex 2 1; Complex 4 3]
              eq_refl eq_refl eq_refl eq_refl)
    as (out1 & σ1 & _ & _ & Hrun & _ & _ & _ & Hf & Hy & _).
  exists out1, σ1. split; [exact Hrun|]. split; [exact Hf|exact Hy].
Defined.

End table_objects.

(** * More properties of the code *)

(** ** The node grid and the elements on it *)

Section grid_more.

Lemma prod_list_0 sh : prod_list sh = 0 ↔ 0 ∈ sh.
Proof.
  induction sh as [|n sh IH]; simpl.
  - split; [done|by intros ?%elem_of_nil].
  - rewrite elem_of_cons, <- IH. nia.
Qed.

(** X1. [GridNodes] cannot be built on a shape with an extent of zero, and
    on every other shape it numbers the grid nodes [1 .. N] without
    repetition and gives the virtual node the number [N + 1], which is not
    the number of a grid node. *)
Theorem GridNodes_init_spec sh :
  (GridNodes_init sh = None ↔ 0 ∈ sh) ∧
  ∀ nodes, GridNodes_init sh = Some nodes →
    gn_shape nodes = sh ∧
    node_nums nodes = seq 1 (prod_list sh) ∧
    NoDup (node_nums nodes) ∧
    virtual_node nodes = prod_list sh + 1 ∧
    virtual_node nodes ∉ node_nums nodes.
Proof.
  split.
  - rewrite <- prod_list_0. unfold GridNodes_init.
    destruct (prod_list sh) as [|n]; [done|].
    rewrite seq_S, last_snoc. simpl. split; [done|lia].
  - intros nodes Hinit.
    destruct (prod_list sh) as [|n] eqn:Hp.
    { unfold GridNodes_init in Hinit. by rewrite Hp in Hinit. }
    rewrite GridNodes_init_Some in Hinit by lia. simplify_eq/=.
    rewrite Hp. split; [done|]. split; [done|].
    split; [apply NoDup_seq|]. split; [done|].
    rewrite elem_of_seq. lia.
Qed.

(** What the mesh builder writes, record by record. *)
Lemma mesh_elements_records {A} (img : np.ndarray A) H W :
  np.shape img = (H, W) →
  ∃ elems, mesh_elements img = Some elems ∧ length elems = H * W ∧
    ∀ row col, row < H → col < W →
      elems !! (row * W + col) =
        Some ((row * W + col + 1) :: connectivity_written W row col).
Proof.
  intros Hsh. unfold mesh_elements, from_intph_img. rewrite Hsh.
  rewrite GridNodes_init_Some by (simpl; lia).
  cbn [mbind option_bind]. unfold RectangularElements_to_inp.
  cbn [RectangularElements_init re_nodes element_nums shape2 gn_shape
       mbind option_bind fmap list_fmap prod_list foldr].
  set (a := np.add_scalar 1 _).
  assert (Ha : np.shape a = (H + 1, W + 1)) by done.
  assert (R0 : np.slice_bounds (np.shape a).1 s_but_last = (0, H + 0)).
  { rewrite Ha, slice_bounds_but_last. cbn [fst snd]. f_equal; lia. }
  assert (R1 : np.slice_bounds (np.shape a).1 s_from_1 = (1, H + 1)).
  { rewrite Ha, slice_bounds_from_1. cbn [fst snd]. f_equal; lia. }
  assert (C0 : np.slice_bounds (np.shape a).2 s_but_last = (0, W + 0)).
  { rewrite Ha, slice_bounds_but_last. cbn [fst snd]. f_equal; lia. }
  assert (C1 : np.slice_bounds (np.shape a).2 s_from_1 = (1, W + 1)).
  { rewrite Ha, slice_bounds_from_1. cbn [fst snd]. f_equal; lia. }
  rewrite (getslice_eq a _ _ _ _ _ _ R1 C0), (getslice_eq a _ _ _ _ _ _ R0 C0),
    (getslice_eq a _ _ _ _ _ _ R0 C1), (getslice_eq a _ _ _ _ _ _ R1 C1).
  rewrite !Nat.add_sub, Nat.mul_1_r.
  eexists; split; [done|]. split.
  - apply zip5_length; rewrite ?length_seq, ?length_tabulate; done.
  - intros row col Hr Hc.
    assert (row * W + col < H * W) by nia.
    erewrite zip5_lookup;
      [ | apply lookup_seq_lt; done | by apply lookup_tabulate .. ].
    unfold a. rewrite !item_all_nodes by lia.
    unfold connectivity_written, node_at. f_equal.
    repeat (apply (f_equal2 cons); [lia|]). done.
Qed.

Lemma grid_position i h w :
  i < h * w → i `div` w < h ∧ i `mod` w < w ∧ i = i `div` w * w + i `mod` w.
Proof.
  intros Hi. assert (0 < w) by nia.
  pose proof (Nat.div_mod_eq i w). pose proof (Nat.mod_upper_bound i w).
  split; [apply Nat.Div0.div_lt_upper_bound; lia|]. lia.
Qed.

Lemma elem_of_mesh_elements {A} (img : np.ndarray A) H W elems rec :
  np.shape img = (H, W) → mesh_elements img = Some elems →
  rec ∈ elems ↔
  ∃ row col, row < H ∧ col < W ∧
    rec = (row * W + col + 1) :: connectivity_written W row col.
Proof.
  intros Hsh Hel.
  destruct (mesh_elements_records img H W Hsh) as (elems' & Hel' & Hlen & Hrec).
  simplify_eq. split.
  - intros (i & Hi)%list_elem_of_lookup.
    assert (i < H * W) as Hlt
      by (rewrite <- Hlen; exact (lookup_lt_Some _ _ _ Hi)).
    destruct (grid_position i H W Hlt) as (Hr & Hc & Heq).
    rewrite Heq, Hrec in Hi by done. simplify_eq. eauto.
  - intros (row & col & Hr & Hc & ->).
    eapply list_elem_of_lookup_2. by apply Hrec.
Qed.

(** X3. The four nodes of an element are four different nodes of the grid:
    none is written twice in a record, each is one of the numbers
    [1 .. (H + 1) * (W + 1)], and none is the virtual node. *)
Theorem mesh_elements_nodes {A} (img : np.ndarray A) H W :
  np.shape img = (H, W) →
  ∃ nodes elems,
    from_intph_img img = Some nodes ∧ mesh_elements img = Some elems ∧
    ∀ rec, rec ∈ elems →
      ∃ e conn, rec = e :: conn ∧ length conn = 4 ∧ NoDup conn ∧
        ∀ n, n ∈ conn → n ∈ node_nums nodes ∧ n ≠ virtual_node nodes.
Proof.
  intros Hsh.
  destruct (mesh_elements_records img H W Hsh) as (elems & Hel & _).
  unfold from_intph_img. rewrite Hsh.
  rewrite GridNodes_init_Some by (simpl; lia).
  eexists _, elems. split; [done|]. split; [done|].
  intros rec (row & col & Hr & Hc & ->)%(elem_of_mesh_elements img H W);
    [|done..].
  eexists _, _. split; [done|]. split; [done|].
  unfold connectivity_written, node_at. split.
  - rewrite !NoDup_cons, !elem_of_cons, !elem_of_nil.
    repeat split; try apply NoDup_nil_2; nia.
  - intros n. rewrite !elem_of_cons, elem_of_nil. simpl.
    rewrite elem_of_seq. intros Hn. nia.
Qed.

Lemma mesh_elements_nodes_witness :
  np.shape img_2x3 = (2, 3) ∧
  ∃ nodes elems,
    from_intph_img img_2x3 = Some nodes ∧ mesh_elements img_2x3 = Some elems.
Proof.
  split; [reflexivity|].
  destruct (mesh_elements_nodes img_2x3 2 3 eq_refl)
    as (nodes & elems & Hn & He & _).
  exists nodes, elems. split; [exact Hn|exact He].
Defined.

(** X4. On an image with at least one pixel every node of the grid is a
    node of some element: the mesh leaves no grid node unused. *)
Theorem mesh_elements_cover {A} (img : np.ndarray A) H W :
  np.shape img = (H, W) → 0 < H → 0 < W →
  ∃ nodes elems,
    from_intph_img img = Some nodes ∧ mesh_elements img = Some elems ∧
    ∀ n, n ∈ node_nums nodes →
      ∃ e conn, e :: conn ∈ elems ∧ n ∈ conn.
Proof.
  intros Hsh HH HW.
  destruct (mesh_elements_records img H W Hsh) as (elems & Hel & _).
  unfold from_intph_img. rewrite Hsh.
  rewrite GridNodes_init_Some by (simpl; lia).
  eexists _, elems. split; [done|]. split; [done|].
  cbn [node_nums prod_list foldr]. intros n Hn%elem_of_seq.
  assert (n - 1 < (H + 1) * (W + 1)) as Hlt by nia.
  destruct (grid_position (n - 1) (H + 1) (W + 1) Hlt) as (Hr & Hc & Heq).
  set (r := (n - 1) `div` (W + 1)) in *.
  set (c := (n - 1) `mod` (W + 1)) in *.
  assert (Hnode : n = node_at W r c) by (unfold node_at; lia).
  set (row := r `min` (H - 1)). set (col := c `min` (W - 1)).
  exists (row * W + col + 1), (connectivity_written W row col). split.
  - apply (elem_of_mesh_elements img H W); [done..|].
    exists row, col. split; [lia|]. split; [lia|done].
  - rewrite Hnode. unfold connectivity_written.
    rewrite !elem_of_cons.
    destruct (decide (r = H)) as [->|], (decide (c = W)) as [->|].
    + right; right; right; left. f_equal; lia.
    + left. replace col with c by lia. f_equal; lia.
    + right; right; left. replace row with r by lia. f_equal; lia.
    + right; left. replace row with r by lia. by replace col with c by lia.
Qed.

Lemma mesh_elements_cover_witness :
  np.shape img_2x3 = (2, 3) ∧ 0 < 2 ∧ 0 < 3 ∧
  ∃ nodes elems,
    from_intph_img img_2x3 = Some nodes ∧ mesh_elements img_2x3 = Some elems.
Proof.
  assert (H2 : 0 < 2) by lia. assert (H3 : 0 < 3) by lia.
  split; [reflexivity|]. split; [exact H2|]. split; [exact H3|].
  destruct (mesh_elements_cover img_2x3 2 3 eq_refl H2 H3)
    as (nodes & elems & Hn & He & _).
  exists nodes, elems. split; [exact Hn|exact He].
Defined.

Lemma zip3_length {A B C D} (f : A → B → C → D) la lb lc n :
  length la = n → length lb = n → length lc = n →
  length (zip3 f la lb lc) = n.
Proof. intros. unfold zip3. rewrite !length_zip_with. lia. Qed.

Lemma zip3_lookup {A B C D} (f : A → B → C → D) la lb lc i a b c :
  la !! i = Some a → lb !! i = Some b → lc !! i = Some c →
  zip3 f la lb lc !! i = Some (f a b c).
Proof.
  intros Ha Hb Hc. unfold zip3. by rewrite !lookup_zip_with, Ha, Hb, Hc.
Qed.

(** X2. The node block of a grid of [h] rows and [w] columns holds
    [h * w + 1] records. The record of the node at [(row, col)] is the one
    at position [row * w + col]; it carries the number [row * w + col + 1]
    and the coordinates [x = scale * col], [y = scale * row]. The last
    record is the virtual node, numbered [h * w + 1], at the coordinates of
    the last node of the grid. *)
Theorem GridNodes_to_inp_records h w nodes scale :
  GridNodes_init [h; w] = Some nodes →
  ∃ recs, GridNodes_to_inp nodes scale = Some recs ∧
    length recs = h * w + 1 ∧
    (∀ row col, row < h → col < w →
       recs !! (row * w + col) =
         Some (NodeRecord (row * w + col + 1)
                 (scale * INR col) (scale * INR row))) ∧
    recs !! (h * w) =
      Some (NodeRecord (h * w + 1)
              (scale * INR (w - 1)) (scale * INR (h - 1))).
Proof.
  intros Hinit.
  destruct (GridNodes_init_inv _ _ Hinit) as [Hsh Hpos].
  simpl in Hpos. assert (0 < h ∧ 0 < w) as [Hh Hw] by nia.
  rewrite GridNodes_init_Some in Hinit by (simpl; lia). simplify_eq.
  unfold GridNodes_to_inp, shape2, np.indices.
  cbn [gn_shape node_nums virtual_node prod_list foldr fst snd
       mbind option_bind].
  rewrite Nat.mul_1_r.
  set (written := zip3 _ _ _ _).
  assert (Hlen : length written = h * w).
  { apply zip3_length; [by rewrite length_seq|..].
    all: unfold np.map; cbn [np.ravel];
      by rewrite length_fmap, length_tabulate. }
  assert (Hrec : ∀ row col, row < h → col < w →
    written !! (row * w + col) =
      Some (NodeRecord (row * w + col + 1)
              (scale * INR col) (scale * INR row))).
  { intros row col Hr Hc. assert (row * w + col < h * w) by nia.
    unfold written. apply zip3_lookup.
    - apply lookup_seq. lia.
    - unfold np.map; cbn [np.ravel].
      by rewrite list_lookup_fmap, lookup_tabulate.
    - unfold np.map; cbn [np.ravel].
      by rewrite list_lookup_fmap, lookup_tabulate. }
  assert (Hlast : last written =
    Some (NodeRecord (h * w) (scale * INR (w - 1)) (scale * INR (h - 1)))).
  { rewrite last_lookup, Hlen.
    replace (Init.Nat.pred (h * w)) with ((h - 1) * w + (w - 1)) by nia.
    rewrite Hrec by lia. do 2 f_equal. nia. }
  rewrite Hlast. cbn [mbind option_bind nr_x nr_y].
  eexists. split; [done|]. split; [|split].
  - rewrite length_app, Hlen. done.
  - intros row col Hr Hc. rewrite lookup_app_l by (rewrite Hlen; nia).
    by apply Hrec.
  - rewrite lookup_app_r by (rewrite Hlen; lia).
    by rewrite Hlen, Nat.sub_diag.
Qed.

Lemma GridNodes_to_inp_records_witness :
  GridNodes_init [3; 4] = Some (grid 3 4) ∧
  ∃ recs, GridNodes_to_inp (grid 3 4) 2 = Some recs ∧ length recs = 3 * 4 + 1.
Proof.
  split; [reflexivity|].
  destruct (GridNodes_to_inp_records 3 4 (grid 3 4) 2 eq_refl)
    as (recs & Hrecs & Hlen & _).
  exists recs. split; [exact Hrecs|exact Hlen].
Defined.

End grid_more.

(** ** Node sets of the sides *)

Section sides_more.

(** The index grids of a grid that is not of rank two do not unpack into
    rows and columns. *)
Lemma from_side_name_rank ident name nodes :
  length (gn_shape nodes) ≠ 2 → from_side_name ident name nodes = None.
Proof.
  unfold from_side_name, shape2. intros Hrank.
  destruct (sides !! name); [|done]. simpl.
  by destruct (gn_shape nodes) as [|? [|? [|? ?]]].
Qed.

(** X6. On a grid of rank two with positive extents [from_side_name]
    returns a node set exactly for the eight names of [sides], and the set
    carries the name it was asked for and the identity of the new object. *)
Theorem from_side_name_is_Some ident name nodes H W :
  gn_shape nodes = [H + 1; W + 1] →
  (is_Some (from_side_name ident name nodes) ↔
     name ∈ ["LeftSurface"; "RightSurface"; "BotmSurface"; "TopSurface";
             "BotmLeft"; "TopLeft"; "BotmRight"; "TopRight"]) ∧
  ∀ ns, from_side_name ident name nodes = Some ns →
        ns_name ns = name ∧ ns_ident ns = ident.
Proof.
  intros Hsh.
  destruct (from_side_name_nodes ident nodes H W Hsh)
    as (H1 & H2 & H3 & H4 & H5 & H6 & H7 & H8).
  split.
  - split.
    + intros [ns Hns]. unfold from_side_name in Hns.
      destruct (sides !! name) as [sl|] eqn:Hsl; [|done].
      apply elem_of_list_to_map_2 in Hsl.
      rewrite !elem_of_cons in Hsl. rewrite !elem_of_cons.
      destruct Hsl as [?|[?|[?|[?|[?|[?|[?|[?|?%elem_of_nil]]]]]]]];
        simplify_eq; tauto.
    + rewrite !elem_of_cons, elem_of_nil.
      intros [->|[->|[->|[->|[->|[->|[->|[->|[]]]]]]]]]; by eexists.
  - intros ns Hns. unfold from_side_name in Hns.
    destruct (sides !! name) as [sl|]; [|done]. cbn [mbind option_bind] in Hns.
    destruct (shape2 nodes) as [sh|]; [|done]. cbn [mbind option_bind] in Hns.
    destruct (np.indices sh) as [row_ind col_ind].
    destruct (getitem_ravel row_ind sl); [|done]. cbn [mbind option_bind] in Hns.
    destruct (getitem_ravel col_ind sl); [|done]. cbn [mbind option_bind] in Hns.
    by injection Hns as <-.
Qed.

Lemma from_side_name_is_Some_witness :
  gn_shape (grid 3 4) = [2 + 1; 3 + 1] ∧
  ∀ ns, from_side_name 7 "TopLeft" (grid 3 4) = Some ns →
        ns_name ns = "TopLeft" ∧ ns_ident ns = 7.
Proof.
  split; [reflexivity|].
  exact (proj2 (from_side_name_is_Some 7 "TopLeft" (grid 3 4) 2 3 eq_refl)).
Defined.

Lemma side_nodes_all nodes H W :
  gn_shape nodes = [H + 1; W + 1] →
  side_nodes "LeftSurface" nodes = (λ r, node_at W r 0) <$> seq 0 (H + 1) ∧
  side_nodes "RightSurface" nodes = (λ r, node_at W r W) <$> seq 0 (H + 1) ∧
  side_nodes "BotmSurface" nodes = (λ c, node_at W 0 c) <$> seq 1 (W - 1) ∧
  side_nodes "TopSurface" nodes = (λ c, node_at W H c) <$> seq 1 (W - 1) ∧
  side_nodes "BotmLeft" nodes = [node_at W 0 0] ∧
  side_nodes "TopLeft" nodes = [node_at W H 0] ∧
  side_nodes "BotmRight" nodes = [node_at W 0 W] ∧
  side_nodes "TopRight" nodes = [node_at W H W].
Proof.
  intros Hsh.
  destruct (from_side_name_nodes 0 nodes H W Hsh)
    as (HL & HR & HB & HT & HBL & HTL & HBR & HTR).
  apply side_nodes_eq in HL, HR, HB, HT, HBL, HTL, HBR, HTR.
  by rewrite HL, HR, HB, HT, HBL, HTL, HBR, HTR.
Qed.

(** X7. The two node sets of each pair of the periodic boundary condition
    correspond position by position: the i-th node of the Right set is the
    node of the last column in the row of the i-th node of the Left set,
    the i-th node of the Top set is the node of the last row in the column
    of the i-th node of the Bottom set, and likewise for the two corners on
    the right. *)
Theorem side_nodes_opposite nodes H W :
  gn_shape nodes = [H + 1; W + 1] →
  side_nodes "RightSurface" nodes
    = (λ n, n + W) <$> side_nodes "LeftSurface" nodes ∧
  side_nodes "TopSurface" nodes
    = (λ n, n + H * (W + 1)) <$> side_nodes "BotmSurface" nodes ∧
  side_nodes "TopRight" nodes
    = (λ n, n + H * (W + 1)) <$> side_nodes "BotmRight" nodes.
Proof.
  intros Hsh.
  destruct (side_nodes_all nodes H W Hsh)
    as (-> & -> & -> & -> & _ & _ & -> & ->).
  rewrite <- !list_fmap_compose. unfold node_at.
  split; [|split].
  - apply list_fmap_ext. intros _ r _. simpl. lia.
  - apply list_fmap_ext. intros _ c _. simpl. lia.
  - simpl. f_equal. lia.
Qed.

Lemma side_nodes_opposite_witness :
  gn_shape (grid 3 4) = [2 + 1; 3 + 1] ∧
  side_nodes "RightSurface" (grid 3 4)
    = (λ n, n + 3) <$> side_nodes "LeftSurface" (grid 3 4).
Proof.
  split; [reflexivity|].
  exact (proj1 (side_nodes_opposite (grid 3 4) 2 3 eq_refl)).
Defined.

(** X8. On a grid with at least two rows and two columns the four edge
    sets hold every node of the rim of the grid once: no node is in two of
    them or twice in one, and a node is in one of them exactly when it
    lies in the first or last row or in the first or last column. *)
Theorem side_nodes_rim nodes H W :
  gn_shape nodes = [H + 1; W + 1] → 0 < H → 0 < W →
  let edges :=
    side_nodes "LeftSurface" nodes ++ side_nodes "RightSurface" nodes ++
    side_nodes "BotmSurface" nodes ++ side_nodes "TopSurface" nodes in
  NoDup edges ∧
  ∀ n, n ∈ edges ↔
    ∃ row col, row ≤ H ∧ col ≤ W ∧
      (row = 0 ∨ row = H ∨ col = 0 ∨ col = W) ∧ n = node_at W row col.
Proof.
  intros Hsh HH HW edges. subst edges.
  destruct (side_nodes_all nodes H W Hsh) as (-> & -> & -> & -> & _).
  assert (Hin : ∀ (f : nat → nat) a k n,
    n ∈ f <$> seq a k ↔ ∃ i, a ≤ i < a + k ∧ n = f i).
  { intros f a k n. rewrite list_elem_of_fmap.
    split; intros (i & ? & ?); exists i; rewrite ?elem_of_seq in *; tauto. }
  split.
  - rewrite !NoDup_app. repeat split.
    + apply NoDup_fmap_2_strong; [|apply NoDup_seq].
      intros x y _ _ Heq. by apply node_at_inj in Heq as [? _]; [|lia..].
    + intros n. rewrite !elem_of_app, !Hin.
      intros (r & Hr & ->) [(r' & Hr' & Heq)|[(c & Hc & Heq)|(c & Hc & Heq)]];
        apply node_at_inj in Heq; lia.
    + apply NoDup_fmap_2_strong; [|apply NoDup_seq].
      intros x y _ _ Heq. by apply node_at_inj in Heq as [? _]; [|lia..].
    + intros n. rewrite !elem_of_app, !Hin.
      intros (r & Hr & ->) [(c & Hc & Heq)|(c & Hc & Heq)];
        apply node_at_inj in Heq; lia.
    + apply NoDup_fmap_2_strong; [|apply NoDup_seq].
      intros x y Hx%elem_of_seq Hy%elem_of_seq Heq.
      by apply node_at_inj in Heq as [_ ?]; [|lia..].
    + intros n. rewrite !Hin.
      intros (c & Hc & ->) (c' & Hc' & Heq).
      apply node_at_inj in Heq; lia.
    + apply NoDup_fmap_2_strong; [|apply NoDup_seq].
      intros x y Hx%elem_of_seq Hy%elem_of_seq Heq.
      by apply node_at_inj in Heq as [_ ?]; [|lia..].
  - intros n. rewrite !elem_of_app, !Hin. split.
    + intros [(r & Hr & ->)|[(r & Hr & ->)|[(c & Hc & ->)|(c & Hc & ->)]]].
      * exists r, 0. repeat split; first [lia | done | tauto].
      * exists r, W. repeat split; first [lia | done | tauto].
      * exists 0, c. repeat split; first [lia | done | tauto].
      * exists H, c. repeat split; first [lia | done | tauto].
    + intros (row & col & Hr & Hc & Hrim & ->).
      destruct (decide (col = 0)) as [->|]; [left; exists row; split; [lia|done]|].
      destruct (decide (col = W)) as [->|];
        [right; left; exists row; split; [lia|done]|].
      destruct Hrim as [->|[->|[?|?]]]; try lia.
      * right; right; left. exists col. split; [lia|done].
      * right; right; right. exists col. split; [lia|done].
Qed.

Lemma side_nodes_rim_witness :
  gn_shape (grid 3 4) = [2 + 1; 3 + 1] ∧ 0 < 2 ∧ 0 < 3 ∧
  NoDup (side_nodes "LeftSurface" (grid 3 4) ++
         side_nodes "RightSurface" (grid 3 4) ++
         side_nodes "BotmSurface" (grid 3 4) ++
         side_nodes "TopSurface" (grid 3 4)).
Proof.
  assert (H2 : 0 < 2) by lia. assert (H3 : 0 < 3) by lia.
  split; [reflexivity|]. split; [exact H2|]. split; [exact H3|].
  exact (proj1 (side_nodes_rim (grid 3 4) 2 3 eq_refl H2 H3)).
Defined.

End sides_more.

(** ** The periodic boundary condition *)

Section periodic_more.

(** X9. On the grid that [GridNodes(shape, scale)] built, the periodic
    boundary condition can be constructed exactly when the grid has two
    dimensions; on a grid of any other rank the construction raises. *)
Theorem PeriodicBoundaryCondition_init_rank next nset first_dof last_dof
    displacement sh nodes :
  GridNodes_init sh = Some nodes →
  is_Some (PeriodicBoundaryCondition_init next nset first_dof last_dof
             displacement nodes) ↔ length sh = 2.
Proof.
  intros Hinit.
  destruct (GridNodes_init_inv _ _ Hinit) as [Hsh Hpos].
  unfold PeriodicBoundaryCondition_init. split.
  - intros [pbc Hpbc]. destruct (decide (length sh = 2)) as [|Hne]; [done|].
    rewrite (from_side_name_rank next "RightSurface" nodes) in Hpbc; [done|].
    by rewrite Hsh.
  - intros Hlen. destruct sh as [|h [|w [|]]]; simplify_eq/=.
    assert (Hsh' : gn_shape nodes = [(h - 1) + 1; (w - 1) + 1]).
    { rewrite Hsh. f_equal; [|f_equal]; nia. }
    destruct (from_side_name_nodes next nodes _ _ Hsh') as (_ & -> & _).
    destruct (from_side_name_nodes (next + 1) nodes _ _ Hsh') as (-> & _).
    destruct (from_side_name_nodes (next + 2) nodes _ _ Hsh')
      as (_ & _ & -> & _).
    destruct (from_side_name_nodes (next + 3) nodes _ _ Hsh')
      as (_ & _ & _ & -> & _).
    destruct (from_side_name_nodes (next + 4) nodes _ _ Hsh')
      as (_ & _ & _ & _ & _ & _ & -> & _).
    destruct (from_side_name_nodes (next + 5) nodes _ _ Hsh')
      as (_ & _ & _ & _ & _ & _ & _ & ->).
    by eexists.
Qed.

Lemma PeriodicBoundaryCondition_init_rank_witness :
  GridNodes_init [2; 2; 2] = Some
    {| gn_shape := [2; 2; 2]; node_nums := seq 1 8; virtual_node := 9 |} ∧
  ¬ is_Some (PeriodicBoundaryCondition_init 0 (OfNode 9) 1 2 0
      {| gn_shape := [2; 2; 2]; node_nums := seq 1 8; virtual_node := 9 |}).
Proof.
  split; [reflexivity|].
  intros Hsome.
  apply (PeriodicBoundaryCondition_init_rank 0 (OfNode 9) 1 2 0 [2; 2; 2] _
           eq_refl) in Hsome.
  discriminate Hsome.
Defined.

Lemma in_range_dof x first_dof last_dof :
  in_range x (first_dof - 1) last_dof
  = bool_decide (first_dof ≤ Z.of_nat (x + 1) ≤ last_dof)%Z.
Proof. unfold in_range. apply bool_decide_ext. lia. Qed.

(** X10. The deck of the periodic boundary condition on a grid of
    [(H + 1, W + 1)] nodes, for any driven range of degrees of freedom.
    Per pair it holds the node set of the first side, the node set of the
    second side and the equations of the degrees of freedom 1 and 2, and it
    ends with the [*Boundary] line of the control node. Every node set is
    written before the equations that name it. An equation of the pair
    (LeftSurface, RightSurface) has the third term of the control node
    exactly when its degree of freedom lies in [first_dof .. last_dof];
    the equations of the other two pairs never have it. *)
Theorem PeriodicBoundaryCondition_deck next nset first_dof last_dof
    displacement nodes H W :
  gn_shape nodes = [H + 1; W + 1] →
  let nset_block name inds := NsetHeader name :: (NsetLine <$> inds) in
  let equality a b dof :=
    [EquationHeader 2; EquationTerm (inl a) dof 1;
     EquationTerm (inl b) dof (-1)] in
  let driven a b dof :=
    if bool_decide (first_dof ≤ Z.of_nat dof ≤ last_dof)%Z
    then [EquationHeader 3; EquationTerm (inl a) dof 1;
          EquationTerm (inl b) dof (-1);
          EquationTerm (target_str nset) dof 1]
    else equality a b dof in
  ∃ pbc,
    PeriodicBoundaryCondition_init next nset first_dof last_dof displacement
      nodes = Some pbc ∧
    PeriodicBoundaryCondition_to_inp pbc = Some (
      nset_block "LeftSurface" ((λ r, node_at W r 0) <$> seq 0 (H + 1)) ++
      nset_block "RightSurface" ((λ r, node_at W r W) <$> seq 0 (H + 1)) ++
      driven "LeftSurface" "RightSurface" 1 ++
      driven "LeftSurface" "RightSurface" 2 ++
      nset_block "BotmSurface" ((λ c, node_at W 0 c) <$> seq 1 (W - 1)) ++
      nset_block "TopSurface" ((λ c, node_at W H c) <$> seq 1 (W - 1)) ++
      equality "BotmSurface" "TopSurface" 1 ++
      equality "BotmSurface" "TopSurface" 2 ++
      nset_block "BotmRight" [node_at W 0 W] ++
      nset_block "TopRight" [node_at W H W] ++
      equality "BotmRight" "TopRight" 1 ++
      equality "BotmRight" "TopRight" 2 ++
      [BoundaryLine (target_str nset) first_dof last_dof displacement]).
Proof.
  intros Hsh nset_block equality driven.
  unfold PeriodicBoundaryCondition_init.
  destruct (from_side_name_nodes next nodes _ _ Hsh) as (_ & -> & _).
  destruct (from_side_name_nodes (next + 1) nodes _ _ Hsh) as (-> & _).
  destruct (from_side_name_nodes (next + 2) nodes _ _ Hsh)
    as (_ & _ & -> & _).
  destruct (from_side_name_nodes (next + 3) nodes _ _ Hsh)
    as (_ & _ & _ & -> & _).
  destruct (from_side_name_nodes (next + 4) nodes _ _ Hsh)
    as (_ & _ & _ & _ & _ & _ & -> & _).
  destruct (from_side_name_nodes (next + 5) nodes _ _ Hsh)
    as (_ & _ & _ & _ & _ & _ & _ & ->).
  cbn [mbind option_bind].
  rewrite Hsh. cbn [length seq fmap list_fmap contains existsb target_eqb
                    ns_ident orb negb].
  rewrite (bool_decide_eq_false_2 (next = next + 1)) by lia.
  rewrite (bool_decide_eq_true_2 (next = next)) by done.
  rewrite (bool_decide_eq_false_2 (next = next + 2)) by lia.
  rewrite (bool_decide_eq_false_2 (next = next + 3)) by lia.
  rewrite (bool_decide_eq_false_2 (next = next + 4)) by lia.
  rewrite (bool_decide_eq_false_2 (next = next + 5)) by lia.
  cbn [orb negb].
  rewrite !in_range_dof.
  eexists. split; [reflexivity|].
  subst driven. cbv beta.
  change (Z.of_nat (0 + 1)) with (Z.of_nat 1).
  change (Z.of_nat (1 + 1)) with (Z.of_nat 2).
  unfold PeriodicBoundaryCondition_to_inp.
  cbn [node_pairs eq_pairs zip zip_with].
  subst nset_block equality.
  destruct (bool_decide (first_dof ≤ Z.of_nat 1 ≤ last_dof)%Z);
    destruct (bool_decide (first_dof ≤ Z.of_nat 2 ≤ last_dof)%Z);
    cbn -[node_at seq]; repeat (rewrite <- app_assoc; cbn -[node_at seq]);
    reflexivity.
Qed.

Lemma PeriodicBoundaryCondition_deck_witness :
  gn_shape (grid 3 4) = [2 + 1; 3 + 1] ∧
  ∃ pbc,
    PeriodicBoundaryCondition_init 0 (OfNode 13) 2 2 0 (grid 3 4) = Some pbc ∧
    is_Some (PeriodicBoundaryCondition_to_inp pbc).
Proof.
  split; [reflexivity|].
  destruct (PeriodicBoundaryCondition_deck 0 (OfNode 13) 2 2 0 (grid 3 4) 2 3
              eq_refl) as (pbc & Hinit & Hdeck).
  exists pbc. split; [exact Hinit|]. eexists. exact Hdeck.
Defined.

End periodic_more.

(** ** The interphase classifier *)

Section classifier_more.

Lemma sorted_Permutation l l' : l ≡ₚ l' → sorted l = sorted l'.
Proof.
  intros Hperm. unfold sorted.
  apply (Sorted_unique Z.le); [apply _ ..| | |].
  - apply Sorted_merge_sort. apply _.
  - apply Sorted_merge_sort. apply _.
  - by rewrite !merge_sort_Permutation.
Qed.

(** X11. The classifiers do not depend on the order in which the
    thicknesses are listed: two lists that hold the same thicknesses, each
    as often as the other, give the same label image. *)
Theorem assign_intph_order m l l' :
  l ≡ₚ l' →
  assign_intph m l = assign_intph m l' ∧
  periodic_assign_intph m l = periodic_assign_intph m l'.
Proof.
  intros Hperm.
  assert (Heq : assign_intph m l = assign_intph m l').
  { intros. unfold assign_intph. by rewrite (sorted_Permutation l l'). }
  split; [done|]. unfold periodic_assign_intph.
  destruct (np.shape m) as [dimx dimy].
  unfold assign_intph. by rewrite (sorted_Permutation l l').
Qed.

Lemma assign_intph_order_witness :
  [3; 1; 2]%Z ≡ₚ [1; 2; 3]%Z ∧
  assign_intph img_3x3 [3; 1; 2]%Z = assign_intph img_3x3 [1; 2; 3]%Z.
Proof.
  assert (Hperm : [3; 1; 2]%Z ≡ₚ [1; 2; 3]%Z).
  { apply (Permutation_cons_app [1; 2]%Z [] 3%Z). reflexivity. }
  split; [exact Hperm|].
  exact (proj1 (assign_intph_order img_3x3 _ _ Hperm)).
Defined.

Lemma foldl_iadd_u1_mod d2 s x :
  (0 ≤ x < 256)%Z →
  foldl (λ x n, iadd_u1 x (dist_gt d2 n)) x s
  = ((x + Z.of_nat (length (filter (λ n, dist_gt d2 n = true) s)))
       `mod` 256)%Z.
Proof.
  revert x. induction s as [|n s IH]; intros x Hx; cbn [foldl].
  - cbn. rewrite Z.add_0_r, Z.mod_small by lia. done.
  - assert (0 ≤ iadd_u1 x (dist_gt d2 n) < 256)%Z as Hstep
      by (unfold iadd_u1; apply Z.mod_pos_bound; lia).
    rewrite (IH _ Hstep). unfold iadd_u1.
    rewrite Zplus_mod_idemp_l. f_equal.
    rewrite filter_cons. destruct (dist_gt d2 n) eqn:Hgt.
    + rewrite decide_True by done. cbn [length u1_of_bool]. lia.
    + rewrite decide_False by done. cbn [u1_of_bool]. lia.
Qed.

(** The label of a pixel for any number of thicknesses: the count wraps
    around at 256. *)
Lemma pixel_label_mod l d2 :
  Forall (λ n, 0 < n)%Z l → (0 ≤ d2)%Z →
  pixel_label l d2
  = (((if decide (d2 = 0%Z) then 0 else 1) + exceeded d2 l) `mod` 256)%Z.
Proof.
  intros Hpos Hd2. unfold pixel_label, sorted.
  assert (Hperm : merge_sort Z.le l ≡ₚ l) by apply merge_sort_Permutation.
  assert (Hu1 : (0 ≤ u1_of_bool (dist_ne_0 d2) ≤ 1)%Z)
    by (destruct (dist_ne_0 d2); simpl; lia).
  rewrite foldl_iadd_u1_mod by lia.
  rewrite (filter_dist_gt d2 (merge_sort Z.le l)) by by rewrite Hperm.
  rewrite Hperm. fold (exceeded d2 l). unfold dist_ne_0.
  case_decide as Hz.
  - by rewrite bool_decide_eq_true_2.
  - by rewrite bool_decide_eq_false_2.
Qed.

(** X12. For any number of positive thicknesses the label of a pixel is
    the count of the classifier reduced modulo 256: the labels are unsigned
    bytes, and [+=] on them wraps around. The count is 0 on the filler and
    otherwise 1 plus the number of thicknesses that the distance to the
    nearest filler pixel strictly exceeds; a pixel of the matrix whose
    count is 256 is labelled 0, as the filler is. *)
Theorem assign_intph_labels_wrap m l H W :
  np.shape m = (H, W) → (∃ q, is_filler m q) →
  Forall (λ n, 0 < n)%Z l →
  ∃ labels, assign_intph m l = Some labels ∧ np.has_shape H W labels ∧
    ∀ r c, r < H → c < W →
      ∃ d2, nearest_filler_sq m (r, c) d2 ∧
        np.item labels r c =
          Some (((if decide (is_filler m (r, c)) then 0 else 1)
                 + exceeded d2 l) `mod` 256)%Z.
Proof.
  intros Hsh Hfill Hpos.
  destruct (distance_transform_edt_spec m H W Hsh Hfill) as (d2 & Hedt & Hd2).
  rewrite assign_intph_eq, Hedt. simpl. eexists. split; [done|]. split.
  - split; [done|]. simpl. rewrite length_fmap. apply length_tabulate.
  - intros r c Hr Hc. exists (d2 r c). split; [done|].
    rewrite item_map, item_tabulate by done. simpl. f_equal.
    rewrite pixel_label_mod by (done || by eapply nearest_filler_sq_nonneg).
    pose proof (nearest_filler_sq_0 _ _ _ (Hd2 r c)).
    repeat case_decide; first [done | tauto].
Qed.

Lemma assign_intph_labels_wrap_witness :
  np.shape img_2x2 = (2, 2) ∧ (∃ q, is_filler img_2x2 q) ∧
  Forall (λ n, 0 < n)%Z [1%Z] ∧
  ∃ labels, assign_intph img_2x2 [1%Z] = Some labels ∧
            np.has_shape 2 2 labels.
Proof.
  assert (Hfill : ∃ q, is_filler img_2x2 q) by (by exists (0, 0)).
  assert (Hpos : Forall (λ n, 0 < n)%Z [1%Z]) by (repeat constructor).
  split; [reflexivity|]. split; [exact Hfill|]. split; [exact Hpos|].
  destruct (assign_intph_labels_wrap img_2x2 [1%Z] 2 2 eq_refl Hfill Hpos)
    as (labels & Heq & Hshape & _).
  exists labels. split; [exact Heq|exact Hshape].
Defined.

Lemma unique_head_0 flat :
  0%Z ∈ flat → (∀ v, v ∈ flat → 0 ≤ v)%Z →
  ∃ rest, unique flat = 0%Z :: rest.
Proof.
  intros H0 Hnn. pose proof (unique_sorted flat) as Hs.
  apply (proj2 (unique_elem_of _ _)) in H0.
  destruct (unique flat) as [|x rest] eqn:Hu; [by apply elem_of_nil in H0|].
  assert (0 ≤ x)%Z as Hx.
  { apply Hnn, unique_elem_of. rewrite Hu. by left. }
  apply elem_of_cons in H0 as [<-|Hin]; [by eexists|].
  apply StronglySorted_inv in Hs as [_ Hall].
  rewrite Forall_forall in Hall. specialize (Hall _ Hin). lia.
Qed.

Lemma unique_length_le flat k :
  (∀ v, v ∈ flat → 0 ≤ v < Z.of_nat k)%Z → length (unique flat) ≤ k.
Proof.
  intros Hb.
  assert (length (unique flat) ≤ length (Z.of_nat <$> seq 0 k)) as Hle;
    [|by rewrite length_fmap, length_seq in Hle].
  apply submseteq_length, NoDup_submseteq; [apply unique_NoDup|].
  intros v Hv. apply (proj1 (unique_elem_of _ _)) in Hv. apply Hb in Hv.
  apply list_elem_of_fmap. exists (Z.to_nat v).
  split; [lia|]. apply elem_of_seq. lia.
Qed.

(** X13. The element sets of the label image that the classifier built,
    for a list of [k <= 254] positive thicknesses: the first set has the
    material code 0 and holds exactly the elements of the filler pixels,
    the element of the pixel [(r, c)] being the element [r * W + c + 1];
    and there are at most [k + 2] sets. *)
Theorem filler_element_set m l H W :
  np.shape m = (H, W) → (∃ q, is_filler m q) →
  Forall (λ n, 0 < n)%Z l → length l ≤ 254 →
  ∃ labels s0 rest,
    assign_intph m l = Some labels ∧
    from_intph_image labels = s0 :: rest ∧
    matl_code s0 = 0%Z ∧
    (∀ r c, r < H → c < W →
       r * W + c + 1 ∈ elements s0 ↔ is_filler m (r, c)) ∧
    length (s0 :: rest) ≤ length l + 2.
Proof.
  intros Hsh Hfill Hpos Hlen.
  destruct (distance_transform_edt_spec m H W Hsh Hfill) as (d2 & Hedt & Hd2).
  rewrite assign_intph_eq, Hedt. cbn [fmap option_fmap option_map].
  set (labels := np.map (pixel_label l) (np.tabulate H W d2)).
  set (flat := np.ravel labels).
  assert (Hflat : ∀ v, v ∈ flat →
    ∃ r c, r < H ∧ c < W ∧ v = pixel_label l (d2 r c)).
  { intros v (d & -> & Hd)%list_elem_of_fmap.
    apply elem_of_tabulate in Hd as (r & c & ? & ? & ->). eauto. }
  assert (Hlook : ∀ r c, r < H → c < W →
    flat !! (r * W + c) = Some (pixel_label l (d2 r c))).
  { intros r c Hr Hc. unfold flat, labels. cbn [np.map np.ravel].
    by rewrite list_lookup_fmap, lookup_tabulate. }
  assert (Hbound : ∀ v, v ∈ flat → (0 ≤ v < Z.of_nat (length l + 2))%Z).
  { intros v (r & c & _ & _ & ->)%Hflat.
    pose proof (pixel_label_bounds l (d2 r c) Hpos Hlen
                  (nearest_filler_sq_nonneg _ _ _ (Hd2 r c))). lia. }
  assert (Hzero : 0%Z ∈ flat).
  { destruct Hfill as [[r c] Hq].
    pose proof (item_Some_lt _ _ _ _ Hq) as [Hr Hc].
    rewrite Hsh in Hr, Hc. simpl in Hr, Hc.
    apply (list_elem_of_lookup_2 _ (r * W + c)). rewrite Hlook by done.
    f_equal. rewrite pixel_label_eq
      by (done || by eapply nearest_filler_sq_nonneg).
    rewrite decide_True; [done|].
    by apply (nearest_filler_sq_0 _ _ _ (Hd2 r c)). }
  destruct (unique_head_0 flat Hzero) as [codes Hcodes].
  { intros v Hv. apply Hbound in Hv. lia. }
  pose proof (unique_length_le flat (length l + 2) Hbound) as Hcount.
  exists labels. unfold from_intph_image. cbv zeta. fold flat.
  rewrite Hcodes in *. rewrite fmap_cons. do 2 eexists.
  split; [done|]. split; [done|]. split; [done|]. split.
  - intros r c Hr Hc. cbn [elements]. rewrite elem_of_elements.
    replace (r * W + c + 1 - 1) with (r * W + c) by lia.
    rewrite Hlook by done.
    rewrite pixel_label_eq by (done || by eapply nearest_filler_sq_nonneg).
    pose proof (nearest_filler_sq_0 _ _ _ (Hd2 r c)) as Hiff.
    pose proof (exceeded_bounds (d2 r c) l).
    assert (length flat = H * W) as ->.
    { unfold flat, labels. cbn [np.map np.ravel].
      rewrite length_fmap. apply length_tabulate. }
    split.
    + intros [_ Heq]. apply Hiff. case_decide; [done|]. simplify_eq. lia.
    + intros Hq%Hiff. rewrite decide_True by done. split; [nia|done].
  - cbn [length] in *. rewrite length_fmap. lia.
Qed.

Lemma filler_element_set_witness :
  np.shape img_2x2 = (2, 2) ∧ (∃ q, is_filler img_2x2 q) ∧
  Forall (λ n, 0 < n)%Z [1%Z] ∧ length [1%Z] ≤ 254 ∧
  ∃ labels s0 rest,
    assign_intph img_2x2 [1%Z] = Some labels ∧
    from_intph_image labels = s0 :: rest ∧ matl_code s0 = 0%Z.
Proof.
  assert (Hfill : ∃ q, is_filler img_2x2 q) by (by exists (0, 0)).
  assert (Hpos : Forall (λ n, 0 < n)%Z [1%Z]) by (repeat constructor).
  assert (Hlen : length [1%Z] ≤ 254) by (simpl; lia).
  split; [reflexivity|]. split; [exact Hfill|].
  split; [exact Hpos|]. split; [exact Hlen|].
  destruct (filler_element_set img_2x2 [1%Z] 2 2 eq_refl Hfill Hpos Hlen)
    as (labels & s0 & rest & Heq & Hsets & Hcode & _).
  exists labels, s0, rest. split; [exact Heq|]. split; [exact Hsets|exact Hcode].
Defined.

End classifier_more.

(** ** The periodic classifier *)

Section periodic_classifier_more.

Lemma tile_3x3 (m : np.ndarray Z) H W :
  np.shape m = (H, W) →
  np.tile m (3, 3)
  = np.tabulate (3 * H) (3 * W)
      (λ r c, np.item_total m (r `mod` H) (c `mod` W)).
Proof. intros Hsh. unfold np.tile. by rewrite Hsh. Qed.

(** The filler pixels of the tiling are the copies of the filler pixels of
    the image. *)
Lemma is_filler_tile m H W q' :
  np.has_shape H W m →
  is_filler (np.tile m (3, 3)) q' ↔
    ∃ q a b, is_filler m q ∧ a < 3 ∧ b < 3 ∧
      q' = (a * H + q.1, b * W + q.2).
Proof.
  intros Hm. pose proof Hm as [Hsh _]. destruct q' as [r' c'].
  unfold is_filler. rewrite (tile_3x3 m H W Hsh). cbn [fst snd]. split.
  - intros Hitem. pose proof (item_Some_lt _ _ _ _ Hitem) as [Hr Hc].
    rewrite shape_tabulate in Hr, Hc. cbn [fst snd] in Hr, Hc.
    rewrite item_tabulate in Hitem by done.
    assert (0 < H) by lia. assert (0 < W) by lia.
    pose proof (Nat.mod_upper_bound r' H). pose proof (Nat.mod_upper_bound c' W).
    destruct (item_has_shape m H W (r' `mod` H) (c' `mod` W) Hm)
      as [v Hv]; [lia..|].
    unfold np.item_total in Hitem. rewrite Hv in Hitem. simplify_eq/=.
    exists (r' `mod` H, c' `mod` W), (r' `div` H), (c' `div` W).
    split; [done|]. cbn [fst snd].
    split; [apply Nat.Div0.div_lt_upper_bound; lia|].
    split; [apply Nat.Div0.div_lt_upper_bound; lia|].
    f_equal.
    + rewrite (Nat.div_mod_eq r' H) at 1. lia.
    + rewrite (Nat.div_mod_eq c' W) at 1. lia.
  - intros ([r c] & a & b & Hq & Ha & Hb & [= -> ->]). cbn [fst snd] in *.
    pose proof (item_Some_lt _ _ _ _ Hq) as [Hr Hc].
    rewrite Hsh in Hr, Hc. cbn [fst snd] in Hr, Hc.
    rewrite item_tabulate by nia.
    replace ((a * H + r) `mod` H) with r
      by (rewrite Nat.add_comm, Nat.Div0.mod_add, Nat.mod_small; lia).
    replace ((b * W + c) `mod` W) with c
      by (rewrite Nat.add_comm, Nat.Div0.mod_add, Nat.mod_small; lia).
    unfold np.item_total. by rewrite Hq.
Qed.

Lemma nearest_image_sq_tile m H W p d2 :
  np.has_shape H W m →
  nearest_filler_sq (np.tile m (3, 3)) (H + p.1, W + p.2) d2 ↔
  nearest_image_sq m H W p d2.
Proof.
  intros Hm. unfold nearest_filler_sq, nearest_image_sq. split.
  - intros [(q' & Hq' & Hd) Hmin]. split.
    + apply (is_filler_tile m H W q' Hm) in Hq'
        as (q & a & b & Hq & Ha & Hb & ->).
      by exists q, a, b.
    + intros q a b Hq Ha Hb. apply Hmin.
      apply (is_filler_tile m H W _ Hm). by exists q, a, b.
  - intros [(q & a & b & Hq & Ha & Hb & Hd) Hmin]. split.
    + exists (a * H + q.1, b * W + q.2). split; [|done].
      apply (is_filler_tile m H W _ Hm). by exists q, a, b.
    + intros q' (q0 & a0 & b0 & Hq0 & Ha0 & Hb0 & ->)%(is_filler_tile m H W _ Hm).
      by apply Hmin.
Qed.

Lemma getslice_middle h w (f : nat → nat → Z) :
  np.getslice (np.tabulate (3 * h) (3 * w) f)
    (s_range h (h + h)) (s_range w (w + w))
  = np.tabulate h w (λ r c, f (h + r) (w + c)).
Proof.
  unfold np.getslice. rewrite shape_tabulate. cbn [fst snd].
  rewrite !slice_bounds_range.
  replace (h `min` (3 * h)) with h by lia.
  replace ((h + h) `min` (3 * h)) with (h + h) by lia.
  replace (w `min` (3 * w)) with w by lia.
  replace ((w + w) `min` (3 * w)) with (w + w) by lia.
  replace (h + h - h) with h by lia. replace (w + w - w) with w by lia.
  apply tabulate_ext. intros r c Hr Hc.
  unfold np.item_total. by rewrite item_tabulate by lia.
Qed.

(** The label image of the periodic classifier, pixel by pixel. *)
Lemma periodic_assign_intph_items m l H W :
  np.has_shape H W m → (∃ q, is_filler m q) →
  ∃ d2 : nat → nat → Z,
    (∀ r c, nearest_image_sq m H W (r, c) (d2 r c)) ∧
    periodic_assign_intph m l
    = Some (np.tabulate H W (λ r c, pixel_label l (d2 r c))).
Proof.
  intros Hm [q Hq]. pose proof Hm as [Hsh _].
  assert (Hfill : ∃ q', is_filler (np.tile m (3, 3)) q').
  { exists (0 * H + q.1, 0 * W + q.2).
    apply (is_filler_tile m H W _ Hm). exists q, 0, 0.
    repeat split; [done|lia..]. }
  assert (Hsh3 : np.shape (np.tile m (3, 3)) = (3 * H, 3 * W)).
  { by rewrite (tile_3x3 m H W Hsh). }
  destruct (distance_transform_edt_spec _ _ _ Hsh3 Hfill)
    as (d2t & Hedt & Hd2t).
  exists (λ r c, d2t (H + r) (W + c)). split.
  - intros r c. apply (nearest_image_sq_tile m H W (r, c) _ Hm). apply Hd2t.
  - rewrite (periodic_assign_intph_eq m l H W Hsh), assign_intph_eq, Hedt.
    cbn [fmap option_fmap option_map]. f_equal.
    rewrite getslice_map, getslice_middle. apply map_tabulate.
Qed.

Lemma nearest_image_sq_nonneg m H W p d2 :
  nearest_image_sq m H W p d2 → (0 ≤ d2)%Z.
Proof. intros [(q & a & b & _ & _ & _ & <-) _]. apply sq_dist_nonneg. Qed.

Lemma nearest_image_sq_0 m H W r c d2 :
  np.has_shape H W m → r < H → c < W →
  nearest_image_sq m H W (r, c) d2 → d2 = 0%Z ↔ is_filler m (r, c).
Proof.
  intros Hm Hr Hc [(q & a & b & Hq & Ha & Hb & Hd) Hmin].
  pose proof (item_Some_lt _ _ _ _ Hq) as [Hqr Hqc].
  destruct Hm as [Hsh _]. rewrite Hsh in Hqr, Hqc. cbn [fst snd] in *.
  split.
  - intros ->. apply sq_dist_0 in Hd. destruct q as [qr qc]. simplify_eq/=.
    assert (a = 1) as -> by nia. assert (b = 1) as -> by nia.
    assert (r = qr) as -> by lia. assert (c = qc) as -> by lia. done.
  - intros Hrc. specialize (Hmin (r, c) 1 1 Hrc). cbn [fst snd] in Hmin.
    replace (1 * H + r) with (H + r) in Hmin by lia.
    replace (1 * W + c) with (W + c) in Hmin by lia.
    rewrite (proj2 (sq_dist_0 (H + r, W + c) (H + r, W + c)) eq_refl) in Hmin.
    pose proof (sq_dist_nonneg (H + r, W + c) (a * H + q.1, b * W + q.2)).
    lia.
Qed.

(** X14. For an image of shape [(H, W)] with a filler pixel and a list of
    [k <= 254] positive thicknesses, the periodic classifier returns a
    label image of the same shape. The label of a pixel is 0 on the filler
    and otherwise 1 plus the number of thicknesses that are strictly
    exceeded by the distance from the pixel to the nearest filler pixel of
    the image repeated around itself, that is, to the nearest of the
    filler pixels and their copies in the eight neighbouring blocks. *)
Theorem periodic_assign_intph_labels m l H W :
  np.has_shape H W m → (∃ q, is_filler m q) →
  Forall (λ n, 0 < n)%Z l → length l ≤ 254 →
  ∃ labels, periodic_assign_intph m l = Some labels ∧
    np.has_shape H W labels ∧
    ∀ r c, r < H → c < W →
      ∃ d2, nearest_image_sq m H W (r, c) d2 ∧
        np.item labels r c =
          Some (if decide (is_filler m (r, c)) then 0
                else 1 + exceeded d2 l)%Z.
Proof.
  intros Hm Hfill Hpos Hlen.
  destruct (periodic_assign_intph_items m l H W Hm Hfill) as (d2 & Hd2 & ->).
  eexists. split; [done|]. split; [apply tabulate_has_shape|].
  intros r c Hr Hc. exists (d2 r c). split; [done|].
  rewrite item_tabulate by done. f_equal.
  rewrite pixel_label_eq by (done || by eapply nearest_image_sq_nonneg).
  pose proof (nearest_image_sq_0 m H W r c _ Hm Hr Hc (Hd2 r c)).
  repeat case_decide; first [done | tauto].
Qed.

Lemma periodic_assign_intph_labels_witness :
  np.has_shape 3 3 img_3x3 ∧ (∃ q, is_filler img_3x3 q) ∧
  Forall (λ n, 0 < n)%Z [1%Z] ∧ length [1%Z] ≤ 254 ∧
  ∃ labels, periodic_assign_intph img_3x3 [1%Z] = Some labels ∧
            np.has_shape 3 3 labels.
Proof.
  assert (Hm : np.has_shape 3 3 img_3x3) by (split; reflexivity).
  assert (Hfill : ∃ q, is_filler img_3x3 q) by (by exists (1, 1)).
  assert (Hpos : Forall (λ n, 0 < n)%Z [1%Z]) by (repeat constructor).
  assert (Hlen : length [1%Z] ≤ 254) by (simpl; lia).
  split; [exact Hm|]. split; [exact Hfill|].
  split; [exact Hpos|]. split; [exact Hlen|].
  destruct (periodic_assign_intph_labels img_3x3 [1%Z] 3 3 Hm Hfill Hpos Hlen)
    as (labels & Heq & Hshape & _).
  exists labels. split; [exact Heq|exact Hshape].
Defined.

(** X15. The periodic classifier never labels a pixel further from the
    filler than the classifier does: on an image with a filler pixel, for
    [k <= 254] positive thicknesses, both return a label image, and at
    every pixel the label of the periodic classifier is at most the label
    of the classifier. *)
Theorem periodic_assign_intph_le m l H W :
  np.has_shape H W m → (∃ q, is_filler m q) →
  Forall (λ n, 0 < n)%Z l → length l ≤ 254 →
  ∃ periodic plain,
    periodic_assign_intph m l = Some periodic ∧
    assign_intph m l = Some plain ∧
    ∀ r c, r < H → c < W →
      ∃ v v', np.item periodic r c = Some v ∧ np.item plain r c = Some v' ∧
        (v ≤ v')%Z.
Proof.
  intros Hm Hfill Hpos Hlen. pose proof Hm as [Hsh _].
  destruct (periodic_assign_intph_items m l H W Hm Hfill) as (d2p & Hd2p & ->).
  destruct (distance_transform_edt_spec m H W Hsh Hfill) as (d2 & Hedt & Hd2).
  rewrite assign_intph_eq, Hedt. cbn [fmap option_fmap option_map].
  do 2 eexists. split; [done|]. split; [done|].
  intros r c Hr Hc. do 2 eexists.
  split; [by apply item_tabulate|].
  split; [by rewrite item_map, item_tabulate|].
  apply pixel_label_mono; [done..|].
  split; [by eapply nearest_image_sq_nonneg|].
  destruct (Hd2 r c) as [(q & Hq & <-) _].
  destruct (Hd2p r c) as [_ Hmin].
  specialize (Hmin q 1 1 Hq). cbn [fst snd] in Hmin.
  unfold sq_dist in *. cbn [fst snd] in *. lia.
Qed.

Lemma periodic_assign_intph_le_witness :
  np.has_shape 2 2 img_2x2 ∧ (∃ q, is_filler img_2x2 q) ∧
  Forall (λ n, 0 < n)%Z [1%Z] ∧ length [1%Z] ≤ 254 ∧
  ∃ periodic plain,
    periodic_assign_intph img_2x2 [1%Z] = Some periodic ∧
    assign_intph img_2x2 [1%Z] = Some plain.
Proof.
  assert (Hm : np.has_shape 2 2 img_2x2) by (split; reflexivity).
  assert (Hfill : ∃ q, is_filler img_2x2 q) by (by exists (0, 0)).
  assert (Hpos : Forall (λ n, 0 < n)%Z [1%Z]) by (repeat constructor).
  assert (Hlen : length [1%Z] ≤ 254) by (simpl; lia).
  split; [exact Hm|]. split; [exact Hfill|].
  split; [exact Hpos|]. split; [exact Hlen|].
  destruct (periodic_assign_intph_le img_2x2 [1%Z] 2 2 Hm Hfill Hpos Hlen)
    as (periodic & plain & Hp & Ha & _).
  exists periodic, plain. split; [exact Hp|exact Ha].
Defined.

End periodic_classifier_more.

(** ** The viscoelastic table *)

Section viscoelastic_more.

Lemma ln_10_pos : (0 < ln 10)%R.
Proof. rewrite <- ln_1. apply ln_increasing; lra. Qed.

Lemma log10_lt x y : (0 < x)%R → (x < y)%R → (log10 x < log10 y)%R.
Proof.
  intros Hx Hxy. unfold log10, Rdiv. apply Rmult_lt_compat_r.
  - apply Rinv_0_lt_compat, ln_10_pos.
  - by apply ln_increasing.
Qed.

Lemma pow10_lt x y : (x < y)%R → (pow10 x < pow10 y)%R.
Proof. intros. unfold pow10. apply Rpower_lt; lra. Qed.

Lemma pow10_pos x : (0 < pow10 x)%R.
Proof. unfold pow10, Rpower. apply exp_pos. Qed.

Lemma pow10_minus x s : (0 < x)%R → pow10 (log10 x - s) = (x / pow10 s)%R.
Proof.
  intros Hx. unfold pow10, Rminus.
  rewrite Rpower_plus, Rpower_Ropp. fold (pow10 (log10 x)).
  by rewrite pow10_log10.
Qed.

(** The position [np.argmax] returns holds an item that no item exceeds
    and that is greater than every item before it. *)
Lemma argmax_from_spec l : ∀ pre best_i best,
  pre !! best_i = Some best →
  (∀ j t, pre !! j = Some t → (t <= best)%R) →
  (∀ j t, j < best_i → pre !! j = Some t → (t < best)%R) →
  let k := argmax_from best_i best (length pre) l in
  ∃ top, (pre ++ l) !! k = Some top ∧
    (∀ j t, (pre ++ l) !! j = Some t → (t <= top)%R) ∧
    (∀ j t, j < k → (pre ++ l) !! j = Some t → (t < top)%R).
Proof.
  induction l as [|x l IH]; intros pre bi b Hb Hall Hbefore; cbn [argmax_from].
  - rewrite app_nil_r. by exists b.
  - assert (Hlen : S (length pre) = length (pre ++ [x]))
      by (rewrite length_app; simpl; lia).
    rewrite (cons_middle x pre l), app_assoc, Hlen.
    destruct (Rlt_dec b x) as [Hlt|Hge].
    + apply IH.
      * by rewrite lookup_app_r, Nat.sub_diag.
      * intros j t Hj. apply lookup_app_Some in Hj as [Hj|[_ Hj]].
        -- apply Hall in Hj. lra.
        -- apply list_lookup_singleton_Some in Hj as [_ ->]. lra.
      * intros j t Hlt' Hj. rewrite lookup_app_l in Hj by done.
        apply Hall in Hj. lra.
    + apply IH.
      * apply lookup_app_l_Some. done.
      * intros j t Hj. apply lookup_app_Some in Hj as [Hj|[_ Hj]].
        -- by eapply Hall.
        -- apply list_lookup_singleton_Some in Hj as [_ ->]. lra.
      * intros j t Hlt' Hj. apply lookup_lt_Some in Hb as Hbi.
        rewrite lookup_app_l in Hj by lia. by eapply Hbefore.
Qed.

Lemma argmax_spec l i :
  argmax l = Some i →
  ∃ top, l !! i = Some top ∧
    (∀ j t, l !! j = Some t → (t <= top)%R) ∧
    (∀ j t, j < i → l !! j = Some t → (t < top)%R).
Proof.
  destruct l as [|x l]; [done|]. cbn [argmax]. intros [= <-].
  apply (argmax_from_spec l [x] 0 x); [done| |].
  - intros [|j] t Hj; simplify_eq/=. lra.
  - intros j t Hj. lia.
Qed.

(** The array [apply_shift] returns, in terms of the pivot: the samples
    before the pivot are scaled about it by the left factor, the pivot and
    the samples after it by the right factor, on the logarithmic axis. *)
Lemma apply_shift_eq self i xi :
  argmax (zip_with Rdiv (imag <$> youngs_cplx self)
                        (real <$> youngs_cplx self)) = Some i →
  freq self !! i = Some xi →
  apply_shift self = Some (
    ((λ x, pow10 (left_broadening self * (log10 x - log10 xi)
                  + (log10 xi - shift self)))%R <$> take i (freq self)) ++
    ((λ x, pow10 (right_broadening self * (log10 x - log10 xi)
                  + (log10 xi - shift self)))%R <$> drop i (freq self))).
Proof.
  intros Hi Hxi. unfold apply_shift. rewrite Hi. cbn [mbind option_bind].
  rewrite list_lookup_fmap, Hxi. cbn [fmap option_fmap option_map mbind option_bind].
  f_equal.
  apply lookup_lt_Some in Hxi as Hlt.
  set (logf := (λ x, log10 x - shift self)%R <$> freq self).
  set (f := (log10 xi - shift self)%R).
  assert (Htake : length ((λ x, left_broadening self * (x - f) + f)%R
                            <$> take i logf) = i).
  { unfold logf. rewrite length_fmap, length_take, length_fmap. lia. }
  rewrite take_app_length' by done. rewrite drop_app_length' by done.
  rewrite fmap_app. unfold logf. rewrite <- fmap_take, <- fmap_drop.
  rewrite <- !list_fmap_compose. f_equal.
  - apply list_fmap_ext. intros _ x _. simpl. f_equal. unfold f. ring.
  - apply list_fmap_ext. intros _ x _. simpl. f_equal. unfold f. ring.
Qed.

(** X16. With both broadening factors 1 the transform is a pure shift:
    every frequency is divided by [10 ** shift]. *)
Theorem apply_shift_pure_shift self :
  left_broadening self = 1%R → right_broadening self = 1%R →
  Forall (λ x, 0 < x)%R (freq self) →
  youngs_cplx self ≠ [] → length (freq self) = length (youngs_cplx self) →
  apply_shift self = Some ((λ x, x / pow10 (shift self))%R <$> freq self).
Proof.
  intros Hl Hr Hpos Hne Hlen.
  set (tand := zip_with Rdiv (imag <$> youngs_cplx self)
                             (real <$> youngs_cplx self)).
  assert (Htand : length tand = length (youngs_cplx self)).
  { unfold tand. rewrite length_zip_with, !length_fmap. lia. }
  destruct (argmax_is_Some tand) as [i Hi].
  { intros Hnil. rewrite Hnil in Htand. destruct (youngs_cplx self); done. }
  apply argmax_lt in Hi as Hlt.
  destruct (lookup_lt_is_Some_2 (freq self) i) as [xi Hxi]; [lia|].
  rewrite (apply_shift_eq self i xi Hi Hxi), Hl, Hr.
  rewrite <- (take_drop i (freq self)) at 3. rewrite fmap_app.
  rewrite <- (take_drop i (freq self)) in Hpos.
  apply Forall_app in Hpos as [Hpos1 Hpos2].
  do 2 f_equal.
  - apply Forall_fmap_ext_1. eapply Forall_impl; [exact Hpos1|].
    intros x Hx. cbv beta. rewrite <- (pow10_minus x) by done. f_equal. ring.
  - apply Forall_fmap_ext_1. eapply Forall_impl; [exact Hpos2|].
    intros x Hx. cbv beta. rewrite <- (pow10_minus x) by done. f_equal. ring.
Qed.

Lemma apply_shift_pure_shift_witness :
  left_broadening two_samples = 1%R ∧ right_broadening two_samples = 1%R ∧
  Forall (λ x, 0 < x)%R (freq two_samples) ∧
  youngs_cplx two_samples ≠ [] ∧
  length (freq two_samples) = length (youngs_cplx two_samples) ∧
  apply_shift two_samples
  = Some ((λ x, x / pow10 (shift two_samples))%R <$> freq two_samples).
Proof.
  assert (Hpos : Forall (λ x, 0 < x)%R (freq two_samples)).
  { repeat constructor; simpl; lra. }
  assert (Hne : youngs_cplx two_samples ≠ []) by discriminate.
  split; [reflexivity|]. split; [reflexivity|].
  split; [exact Hpos|]. split; [exact Hne|]. split; [reflexivity|].
  exact (apply_shift_pure_shift two_samples eq_refl eq_refl Hpos Hne eq_refl).
Defined.

(** X17. Over the real numbers, for moduli whose real parts are not
    zero: the sample at the peak of the loss tangent is the pivot of the
    broadening. [apply_shift] picks the first sample whose ratio of
    imaginary to real part is the largest, and whatever the broadening
    factors are, the frequency of that sample is only shifted, that is,
    divided by [10 ** shift]. *)
Theorem apply_shift_peak self :
  Forall (λ z, real z ≠ 0%R) (youngs_cplx self) →
  Forall (λ x, 0 < x)%R (freq self) →
  youngs_cplx self ≠ [] → length (freq self) = length (youngs_cplx self) →
  let tand := zip_with Rdiv (imag <$> youngs_cplx self)
                            (real <$> youngs_cplx self) in
  ∃ i top xi fs,
    tand !! i = Some top ∧
    (∀ j t, tand !! j = Some t → (t <= top)%R) ∧
    (∀ j t, j < i → tand !! j = Some t → (t < top)%R) ∧
    freq self !! i = Some xi ∧
    apply_shift self = Some fs ∧
    fs !! i = Some (xi / pow10 (shift self))%R.
Proof.
  intros _ Hpos Hne Hlen tand.
  assert (Htand : length tand = length (youngs_cplx self)).
  { unfold tand. rewrite length_zip_with, !length_fmap. lia. }
  destruct (argmax_is_Some tand) as [i Hi].
  { intros Hnil. rewrite Hnil in Htand. destruct (youngs_cplx self); done. }
  apply argmax_lt in Hi as Hlt.
  destruct (argmax_spec tand i Hi) as (top & Htop & Hmax & Hfirst).
  destruct (lookup_lt_is_Some_2 (freq self) i) as [xi Hxi]; [lia|].
  exists i, top, xi. eexists.
  split; [done|]. split; [done|]. split; [done|]. split; [done|].
  split; [by apply apply_shift_eq|].
  assert (0 < xi)%R as Hxipos.
  { rewrite Forall_forall in Hpos. apply Hpos.
    by eapply list_elem_of_lookup_2. }
  rewrite lookup_app_r by (rewrite length_fmap, length_take; lia).
  rewrite length_fmap, length_take.
  replace (i - i `min` length (freq self)) with 0 by lia.
  rewrite list_lookup_fmap, lookup_drop, Nat.add_0_r, Hxi.
  cbn [fmap option_fmap option_map]. f_equal.
  rewrite <- (pow10_minus xi) by done. f_equal. ring.
Qed.

Lemma apply_shift_peak_witness :
  Forall (λ z, real z ≠ 0%R) (youngs_cplx two_samples) ∧
  Forall (λ x, 0 < x)%R (freq two_samples) ∧
  youngs_cplx two_samples ≠ [] ∧
  length (freq two_samples) = length (youngs_cplx two_samples) ∧
  ∃ i xi fs, freq two_samples !! i = Some xi ∧
    apply_shift two_samples = Some fs ∧
    fs !! i = Some (xi / pow10 (shift two_samples))%R.
Proof.
  assert (Hpos : Forall (λ x, 0 < x)%R (freq two_samples)).
  { repeat constructor; simpl; lra. }
  assert (Hne : youngs_cplx two_samples ≠ []) by discriminate.
  assert (Hre : Forall (λ z, real z ≠ 0%R) (youngs_cplx two_samples)).
  { repeat constructor; simpl; lra. }
  split; [exact Hre|].
  split; [exact Hpos|]. split; [exact Hne|]. split; [reflexivity|].
  destruct (apply_shift_peak two_samples Hre Hpos Hne eq_refl)
    as (i & top & xi & fs & _ & _ & _ & Hxi & Hfs & Hi).
  exists i, xi, fs. split; [exact Hxi|]. split; [exact Hfs|exact Hi].
Defined.

Lemma StronglySorted_pos_lt (l : list R) :
  StronglySorted Rlt l → Forall (λ x, 0 < x)%R l →
  StronglySorted (λ x y, 0 < x ∧ x < y)%R l.
Proof.
  induction 1 as [|x l Hs IH Hall]; intros Hpos; [constructor|].
  apply Forall_cons in Hpos as [Hx Hpos].
  constructor; [by apply IH|].
  eapply Forall_impl; [exact Hall|]. intros y Hy. done.
Qed.

(** X18. Over the real numbers, [apply_shift] keeps a table in order:
    when the frequencies are positive and strictly increasing and both
    broadening factors are positive, the frequencies it returns are
    positive and strictly increasing. In binary64 close frequencies can
    round to one number; that is outside this statement. *)
Theorem apply_shift_increasing self :
  (0 < left_broadening self)%R → (0 < right_broadening self)%R →
  Forall (λ x, 0 < x)%R (freq self) → StronglySorted Rlt (freq self) →
  youngs_cplx self ≠ [] → length (freq self) = length (youngs_cplx self) →
  ∃ fs, apply_shift self = Some fs ∧
    length fs = length (freq self) ∧
    Forall (λ x, 0 < x)%R fs ∧ StronglySorted Rlt fs.
Proof.
  intros Hl Hr Hpos Hsorted Hne Hlen.
  set (tand := zip_with Rdiv (imag <$> youngs_cplx self)
                             (real <$> youngs_cplx self)).
  assert (Htand : length tand = length (youngs_cplx self)).
  { unfold tand. rewrite length_zip_with, !length_fmap. lia. }
  destruct (argmax_is_Some tand) as [i Hi].
  { intros Hnil. rewrite Hnil in Htand. destruct (youngs_cplx self); done. }
  apply argmax_lt in Hi as Hlt.
  destruct (lookup_lt_is_Some_2 (freq self) i) as [xi Hxi]; [lia|].
  rewrite (apply_shift_eq self i xi Hi Hxi). eexists. split; [done|].
  assert (0 < xi)%R as Hxipos.
  { rewrite Forall_forall in Hpos. apply Hpos.
    by eapply list_elem_of_lookup_2. }
  split; [|split].
  - rewrite length_app, !length_fmap, length_take, length_drop. lia.
  - apply Forall_app. split; apply Forall_fmap, Forall_forall;
      intros x _; apply pow10_pos.
  - pose proof (StronglySorted_pos_lt _ Hsorted Hpos) as Hs.
    rewrite <- (take_drop i (freq self)) in Hs.
    apply StronglySorted_app in Hs as (Hcross & Hs1 & Hs2).
    assert (Hdrop : drop i (freq self) = xi :: drop (S i) (freq self))
      by by apply drop_S.
    assert (Hafter : ∀ y, y ∈ drop i (freq self) → (0 < y ∧ xi <= y)%R).
    { intros y Hy. rewrite Hdrop in Hy, Hs2.
      apply elem_of_cons in Hy as [->|Hy]; [lra|].
      apply StronglySorted_inv in Hs2 as [_ Hall].
      rewrite Forall_forall in Hall. specialize (Hall y Hy). lra. }
    assert (Hbefore : ∀ x, x ∈ take i (freq self) → (0 < x ∧ x < xi)%R).
    { intros x Hx. apply (Hcross x xi Hx). rewrite Hdrop. by left. }
    apply StronglySorted_app_2.
    + intros ? ? (x & -> & Hx)%list_elem_of_fmap (y & -> & Hy)%list_elem_of_fmap.
      apply Hbefore in Hx as [Hx0 Hx]. apply Hafter in Hy as [Hy0 Hy].
      apply pow10_lt.
      pose proof (log10_lt x xi Hx0 Hx).
      assert (log10 xi <= log10 y)%R.
      { destruct Hy as [Hy|<-]; [|lra]. left. by apply log10_lt. }
      nra.
    + eapply StronglySorted_fmap; [|exact Hs1].
      intros x y [Hx Hxy]. cbv beta. apply pow10_lt.
      pose proof (log10_lt x y Hx Hxy). nra.
    + eapply StronglySorted_fmap; [|exact Hs2].
      intros x y [Hx Hxy]. cbv beta. apply pow10_lt.
      pose proof (log10_lt x y Hx Hxy). nra.
Qed.

Lemma apply_shift_increasing_witness :
  (0 < left_broadening two_samples)%R ∧ (0 < right_broadening two_samples)%R ∧
  Forall (λ x, 0 < x)%R (freq two_samples) ∧
  StronglySorted Rlt (freq two_samples) ∧
  youngs_cplx two_samples ≠ [] ∧
  length (freq two_samples) = length (youngs_cplx two_samples) ∧
  ∃ fs, apply_shift two_samples = Some fs ∧ StronglySorted Rlt fs.
Proof.
  assert (Hl : (0 < left_broadening two_samples)%R) by (simpl; lra).
  assert (Hr : (0 < right_broadening two_samples)%R) by (simpl; lra).
  assert (Hpos : Forall (λ x, 0 < x)%R (freq two_samples)).
  { repeat constructor; simpl; lra. }
  assert (Hs : StronglySorted Rlt (freq two_samples)).
  { repeat constructor; simpl; lra. }
  assert (Hne : youngs_cplx two_samples ≠ []) by discriminate.
  split; [exact Hl|]. split; [exact Hr|]. split; [exact Hpos|].
  split; [exact Hs|]. split; [exact Hne|]. split; [reflexivity|].
  destruct (apply_shift_increasing two_samples Hl Hr Hpos Hs Hne eq_refl)
    as (fs & Hfs & _ & _ & Hsorted).
  exists fs. split; [exact Hfs|exact Hsorted].
Defined.

(** X19. Over the real numbers, the table [to_inp] writes holds the
    moduli that [normalize_modulus] computes: for a reference sample with
    a real part that is not zero and a Poisson ratio other than -1 and
    1/2, the shear columns of the rows are the normalized shear modulus,
    the bulk columns are the normalized bulk modulus, and the two are
    equal, as the Poisson ratio cancels in both. In binary64 the two paths
    round differently and agree only up to rounding; that is outside this
    statement. *)
Theorem normalize_modulus_table self z0 zs :
  youngs_cplx self = z0 :: zs → real z0 ≠ 0%R →
  poisson self ≠ (-1)%R → (2 * poisson self)%R ≠ 1%R →
  length (freq self) = length (youngs_cplx self) →
  ∃ wgstar wkstar rows,
    normalize_modulus self = Some (wgstar, wkstar) ∧
    wgstar = wkstar ∧
    ViscoelasticMaterial_to_inp self = Some rows ∧
    (λ row, Complex (wgr row) (wgi row)) <$> rows = wgstar ∧
    (λ row, Complex (wkr row) (wki row)) <$> rows = wkstar.
Proof.
  intros Hy Hre Hp1 Hp2 Hlen.
  rewrite (normalize_modulus_columns self z0 zs Hy Hre Hp1 Hp2).
  destruct (apply_shift_total self) as (fs & Hfs & Hfslen);
    [by rewrite Hy|done|].
  unfold ViscoelasticMaterial_to_inp.
  assert (H0 : youngs_cplx self !! 0 = Some z0) by (by rewrite Hy).
  rewrite Hfs, H0. cbn [fmap option_fmap option_map mbind option_bind].
  do 3 eexists. split; [done|]. split; [done|]. split; [done|].
  set (rows := zip5 _ _ _ _ _ _).
  assert (Hrowslen : length rows = length (youngs_cplx self)).
  { apply zip5_length; rewrite ?length_fmap; congruence. }
  assert (Hrows : ∀ i row, rows !! i = Some row →
    ∃ z f, youngs_cplx self !! i = Some z ∧
      row = Row (imag z / real z0) (1 - real z / real z0)
                (imag z / real z0) (1 - real z / real z0) f).
  { intros i row (a & b & c & d & e & Ha & Hb & Hc & Hd & He & ->)
      %zip5_lookup_inv.
    rewrite list_lookup_fmap in Ha, Hb, Hc, Hd.
    destruct (youngs_cplx self !! i) as [z|]; simplify_eq/=.
    by exists z, e. }
  split.
  - apply (list_eq_same_length _ _ (length (youngs_cplx self)));
      rewrite ?length_fmap; [done..|].
    intros i x y _ Hx Hy'. rewrite list_lookup_fmap in Hx.
    rewrite list_lookup_fmap in Hy'.
    destruct (rows !! i) as [row|] eqn:Hrow; simplify_eq/=.
    destruct (Hrows i row Hrow) as (z & f & Hz & ->).
    rewrite Hz in Hy'. by simplify_eq/=.
  - apply (list_eq_same_length _ _ (length (youngs_cplx self)));
      rewrite ?length_fmap; [done..|].
    intros i x y _ Hx Hy'. rewrite list_lookup_fmap in Hx.
    rewrite list_lookup_fmap in Hy'.
    destruct (rows !! i) as [row|] eqn:Hrow; simplify_eq/=.
    destruct (Hrows i row Hrow) as (z & f & Hz & ->).
    rewrite Hz in Hy'. by simplify_eq/=.
Qed.

Lemma normalize_modulus_table_witness :
  youngs_cplx two_samples = [Complex 2 1; Complex 4 3] ∧
  real (Complex 2 1) ≠ 0%R ∧
  poisson two_samples ≠ (-1)%R ∧ (2 * poisson two_samples)%R ≠ 1%R ∧
  length (freq two_samples) = length (youngs_cplx two_samples) ∧
  ∃ wgstar wkstar,
    normalize_modulus two_samples = Some (wgstar, wkstar) ∧ wgstar = wkstar.
Proof.
  assert (Hre : real (Complex 2 1) ≠ 0%R) by (simpl; lra).
  assert (Hp1 : poisson two_samples ≠ (-1)%R) by (simpl; lra).
  assert (Hp2 : (2 * poisson two_samples)%R ≠ 1%R) by (simpl; lra).
  split; [reflexivity|]. split; [exact Hre|]. split; [exact Hp1|].
  split; [exact Hp2|]. split; [reflexivity|].
  destruct (normalize_modulus_table two_samples (Complex 2 1) [Complex 4 3]
              eq_refl Hre Hp1 Hp2 eq_refl)
    as (wgstar & wkstar & rows & Hn & Heq & _).
  exists wgstar, wkstar. split; [exact Hn|exact Heq].
Defined.

End viscoelastic_more.

(** ** Searching and loading *)

Section helpers_more.

Lemma StronglySorted_lookup_le (arr : list Z) i j x y :
  StronglySorted Z.le arr → i ≤ j →
  arr !! i = Some x → arr !! j = Some y → (x ≤ y)%Z.
Proof.
  intros Hs. revert i j. induction Hs as [|a l Hs IH Hall]; intros i j Hij Hi Hj.
  - done.
  - destruct i as [|i], j as [|j]; simplify_eq/=; [lia| |lia|].
    + rewrite Forall_forall in Hall. apply Hall.
      by eapply list_elem_of_lookup_2.
    + apply (IH i j); [lia|done..].
Qed.

(** The binary search closes in on the first position whose item is not
    below the key. *)
Lemma bisect_left_spec arr val : StronglySorted Z.le arr →
  ∀ rounds lo hi,
    lo ≤ hi ≤ length arr → hi - lo ≤ rounds →
    (∀ j x, j < lo → arr !! j = Some x → (x < val)%Z) →
    (∀ j x, hi ≤ j → arr !! j = Some x → (val ≤ x)%Z) →
    let k := bisect_left rounds arr val lo hi in
    k ≤ length arr ∧
    (∀ j x, j < k → arr !! j = Some x → (x < val)%Z) ∧
    (∀ j x, k ≤ j → arr !! j = Some x → (val ≤ x)%Z).
Proof.
  intros Hs. induction rounds as [|rounds IH];
    intros lo hi Hlohi Hrounds Hbelow Habove; cbn [bisect_left].
  - assert (lo = hi) as -> by lia. split; [lia|done].
  - case_decide as Hlt.
    + set (mid := lo + (hi - lo) `div` 2).
      pose proof (Nat.Div0.div_lt_upper_bound (hi - lo) 2 (hi - lo)
                    ltac:(lia)) as Hhalf.
      assert (lo ≤ mid < hi) as Hmid by (unfold mid; lia).
      destruct (lookup_lt_is_Some_2 arr mid) as [x Hx]; [lia|].
      rewrite Hx. case_decide as Hcmp.
      * apply IH; [lia|lia| |done].
        intros j y Hj Hy.
        pose proof (StronglySorted_lookup_le arr j mid y x Hs
                      ltac:(lia) Hy Hx). lia.
      * apply IH; [lia|unfold mid in *; lia|done|].
        intros j y Hj Hy.
        pose proof (StronglySorted_lookup_le arr mid j x y Hs
                      ltac:(lia) Hx Hy). lia.
    + assert (lo = hi) as -> by lia. split; [lia|done].
Qed.

(** X20. [in_sorted] decides membership in a sorted array: on an array in
    non-decreasing order it returns true exactly when the value is an item
    of the array. *)
Theorem in_sorted_correct arr val :
  Sorted Z.le arr → in_sorted arr val = true ↔ val ∈ arr.
Proof.
  intros Hs%(Sorted_StronglySorted Z.le). unfold in_sorted, searchsorted.
  destruct (bisect_left_spec arr val Hs (length arr) 0 (length arr))
    as (Hk & Hbelow & Habove); [lia|lia| | |].
  { intros j x Hj. lia. }
  { intros j x Hj Hx%lookup_lt_Some. lia. }
  cbv zeta. set (k := bisect_left _ _ _ _ _) in *. split.
  - case_decide; [|done]. intros Heq%bool_decide_eq_true.
    by eapply list_elem_of_lookup_2.
  - intros [j Hj]%list_elem_of_lookup.
    destruct (decide (j < k)) as [Hjk|Hjk].
    { specialize (Hbelow j val Hjk Hj). lia. }
    apply lookup_lt_Some in Hj as Hjlen.
    rewrite decide_True by lia. apply bool_decide_eq_true.
    destruct (lookup_lt_is_Some_2 arr k) as [y Hy]; [lia|].
    rewrite Hy. f_equal.
    pose proof (Habove k y ltac:(lia) Hy).
    pose proof (StronglySorted_lookup_le arr k j y val Hs ltac:(lia) Hy Hj).
    lia.
Qed.

Lemma in_sorted_correct_witness :
  Sorted Z.le [1; 3; 3; 7]%Z ∧
  (in_sorted [1; 3; 3; 7]%Z 7 = true ↔ 7%Z ∈ [1; 3; 3; 7]%Z).
Proof.
  assert (Hs : Sorted Z.le [1; 3; 3; 7]%Z).
  { repeat constructor; lia. }
  split; [exact Hs|]. exact (in_sorted_correct [1; 3; 3; 7]%Z 7 Hs).
Defined.

Lemma take_at_fmap {A} (a : list A) (d : A) (ind : list nat) :
  Forall (λ i, i < length a) ind →
  take_at a ind = Some ((λ i, default d (a !! i)) <$> ind).
Proof.
  unfold take_at. intros Hind. apply mapM_Some_2.
  induction Hind as [|i ind Hi _ IH]; [constructor|].
  rewrite fmap_cons. constructor; [|done].
  destruct (lookup_lt_is_Some_2 a i Hi) as [x Hx]. by rewrite Hx.
Qed.

Lemma fmap_lookup_seq {A} (l : list A) (d : A) :
  (λ i, default d (l !! i)) <$> seq 0 (length l) = l.
Proof.
  apply list_eq. intros i. rewrite list_lookup_fmap.
  destruct (decide (i < length l)) as [Hi|Hi].
  - rewrite lookup_seq_lt by done. simpl.
    destruct (lookup_lt_is_Some_2 l i Hi) as [x Hx]. by rewrite Hx.
  - rewrite lookup_seq_ge by lia. simpl. symmetry.
    apply lookup_ge_None_2. lia.
Qed.

Lemma StronglySorted_Rle_Rlt (l : list R) :
  StronglySorted Rle l → NoDup l → StronglySorted Rlt l.
Proof.
  induction 1 as [|x l Hs IH Hall]; intros Hnd; [constructor|].
  apply NoDup_cons in Hnd as [Hx Hnd]. constructor; [by apply IH|].
  apply Forall_forall. intros y Hy.
  assert (x ≠ y) by (intros ->; done).
  rewrite Forall_forall in Hall. specialize (Hall y Hy).
  destruct Hall as [Hlt|Heq]; [done|by destruct H].
Qed.

(** X21. [load_viscoelasticity] puts the samples in the order of their
    frequencies: for a file of two samples or more it returns the
    frequencies in non-decreasing order and the moduli beside them, sample
    by sample the rows of the file in another order. The frequencies are
    strictly increasing exactly when no frequency occurs twice in the
    file: a repeated frequency is kept. *)
Theorem load_viscoelasticity_sorted rows :
  2 ≤ length rows →
  ∃ freq youngs,
    load_viscoelasticity rows = Some (freq, youngs) ∧
    length freq = length rows ∧ length youngs = length rows ∧
    zip_with (λ f z, (f, real z, imag z)) freq youngs ≡ₚ rows ∧
    StronglySorted Rle freq ∧
    (StronglySorted Rlt freq ↔ NoDup ((λ row, row.1.1) <$> rows)).
Proof.
  intros Hlen. unfold load_viscoelasticity.
  rewrite option_guard_True by done. cbn [mbind option_bind]. cbv zeta.
  set (freq := (λ row : R * R * R, row.1.1) <$> rows).
  set (youngs := zip_with Complex _ _).
  assert (Hyoungs : youngs = (λ row : R * R * R, Complex row.1.2 row.2) <$> rows).
  { unfold youngs. by rewrite zip_with_fmap_l, zip_with_fmap_r, zip_with_diag. }
  set (sortind := argsort freq).
  assert (Hperm : sortind ≡ₚ seq 0 (length rows)).
  { unfold sortind, argsort. rewrite merge_sort_Permutation.
    unfold freq. by rewrite length_fmap. }
  assert (Hrange : Forall (λ i, i < length rows) sortind).
  { rewrite Hperm. apply Forall_forall. intros i Hi%elem_of_seq. lia. }
  rewrite (take_at_fmap freq 0%R sortind)
    by (unfold freq; by rewrite length_fmap).
  rewrite (take_at_fmap youngs (Complex 0 0) sortind)
    by (rewrite Hyoungs; by rewrite length_fmap).
  cbn [mbind option_bind].
  do 2 eexists. split; [done|].
  assert (Hsorted : StronglySorted Rle
            ((λ i, default 0%R (freq !! i)) <$> sortind)).
  { apply (StronglySorted_fmap _
             (λ i j, default 0%R (freq !! i) <= default 0%R (freq !! j))%R);
      [done|].
    apply StronglySorted_merge_sort.
    - intros i j k. apply Rle_trans.
    - intros i j. destruct (Rle_dec (default 0%R (freq !! i))
                                     (default 0%R (freq !! j))); [by left|].
      right. lra. }
  assert (Hfreq : (λ i, default 0%R (freq !! i)) <$> sortind ≡ₚ freq).
  { rewrite Hperm. unfold freq at 2.
    rewrite <- (length_fmap (λ row : R * R * R, row.1.1) rows).
    fold freq. by rewrite fmap_lookup_seq. }
  split; [by rewrite length_fmap, Hperm, length_seq|].
  split; [by rewrite length_fmap, Hperm, length_seq|].
  split; [|split; [done|]].
  - rewrite zip_with_fmap_l, zip_with_fmap_r, zip_with_diag.
    transitivity ((λ i, default (0, 0, 0)%R (rows !! i)) <$> sortind).
    + match goal with |- ?a ≡ₚ ?b => assert (a = b) as ->; [|done] end.
      apply Forall_fmap_ext_1.
      eapply Forall_impl; [exact Hrange|]. intros i Hi. cbv beta.
      destruct (lookup_lt_is_Some_2 rows i Hi) as [[[a b] c] Hrow].
      unfold freq. rewrite Hyoungs, !list_lookup_fmap, Hrow. done.
    + rewrite Hperm. by rewrite fmap_lookup_seq.
  - rewrite <- Hfreq. fold freq. split.
    + intros Hlt. clear -Hlt.
      induction Hlt as [|x l _ IH Hall]; [constructor|].
      apply NoDup_cons. split; [|done].
      intros Hx. rewrite Forall_forall in Hall. specialize (Hall x Hx). lra.
    + by apply StronglySorted_Rle_Rlt.
Qed.

Lemma load_viscoelasticity_sorted_witness :
  2 ≤ length [(10, 4, 3); (1, 2, 1)]%R ∧
  ∃ freq youngs,
    load_viscoelasticity [(10, 4, 3); (1, 2, 1)]%R = Some (freq, youngs) ∧
    StronglySorted Rle freq.
Proof.
  assert (Hlen : 2 ≤ length [(10, 4, 3); (1, 2, 1)]%R) by (simpl; lia).
  split; [exact Hlen|].
  destruct (load_viscoelasticity_sorted [(10, 4, 3); (1, 2, 1)]%R Hlen)
    as (freq & youngs & Hload & _ & _ & _ & Hsorted & _).
  exists freq, youngs. split; [exact Hload|exact Hsorted].
Defined.

End helpers_more.

(** ** The mesh and its element sets *)

Section mesh_sets_more.

(** X22. The element sets number the elements as the mesh builder does:
    for a label image of shape [(H, W)], the members of the element sets
    are the numbers of the elements that the mesh builder writes, and the
    element of the pixel [(row, col)], whose corners are the four grid
    nodes around that pixel, is a member of the set whose material code is
    the label of the pixel. *)
Theorem element_sets_mesh (intph_img : np.ndarray Z) H W :
  np.has_shape H W intph_img →
  ∃ elems, mesh_elements intph_img = Some elems ∧
    (∀ e, (∃ s, s ∈ from_intph_image intph_img ∧ e ∈ elements s) ↔
          (∃ conn, e :: conn ∈ elems)) ∧
    ∀ row col, row < H → col < W →
      ∃ s, s ∈ from_intph_image intph_img ∧
        np.item intph_img row col = Some (matl_code s) ∧
        row * W + col + 1 ∈ elements s ∧
        (row * W + col + 1) :: connectivity_written W row col ∈ elems.
Proof.
  intros Himg. pose proof Himg as [Hsh Hlen].
  destruct (mesh_elements_records intph_img H W Hsh)
    as (elems & Hel & Hlenel & Hrec).
  exists elems. split; [done|].
  assert (Hpixel : ∀ row col, row < H → col < W →
    ∃ s, s ∈ from_intph_image intph_img ∧
      np.item intph_img row col = Some (matl_code s) ∧
      row * W + col + 1 ∈ elements s ∧
      (row * W + col + 1) :: connectivity_written W row col ∈ elems).
  { intros row col Hr Hc.
    assert (row * W + col < H * W) as Hlt by nia.
    destruct (lookup_lt_is_Some_2 (np.ravel intph_img) (row * W + col))
      as [v Hv]; [lia|].
    eexists (Build_ElementSet v _). split; [|split; [|split]].
    - unfold from_intph_image. apply list_elem_of_fmap. exists v.
      split; [reflexivity|]. apply unique_elem_of.
      by eapply list_elem_of_lookup_2.
    - unfold np.item. rewrite Hsh. cbn [fst snd matl_code].
      by rewrite decide_True.
    - cbn [elements]. apply elem_of_elements.
      replace (row * W + col + 1 - 1) with (row * W + col) by lia.
      split; [lia|done].
    - eapply list_elem_of_lookup_2. by apply Hrec. }
  split; [|done].
  intros e. split.
  - intros (s & (code & -> & _)%list_elem_of_fmap & He).
    cbn [elements] in He. apply elem_of_elements in He as [He _].
    rewrite Hlen in He.
    assert (e - 1 < H * W) as Hlt by lia.
    destruct (grid_position (e - 1) H W Hlt) as (Hr & Hc & Heq).
    destruct (Hpixel _ _ Hr Hc) as (_ & _ & _ & _ & Hin).
    eexists. replace e with ((e - 1) `div` W * W + (e - 1) `mod` W + 1) at 1
      by lia. exact Hin.
  - intros (conn & (row & col & Hr & Hc & [= -> ->])
              %(elem_of_mesh_elements intph_img H W)); [|done..].
    destruct (Hpixel _ _ Hr Hc) as (s & Hs & _ & He & _). by exists s.
Qed.

Lemma element_sets_mesh_witness :
  np.has_shape 2 3 img_2x3 ∧
  ∃ elems, mesh_elements img_2x3 = Some elems ∧
    ∃ s, s ∈ from_intph_image img_2x3 ∧
      np.item img_2x3 1 2 = Some (matl_code s) ∧ 1 * 3 + 2 + 1 ∈ elements s.
Proof.
  assert (Hsh : np.has_shape 2 3 img_2x3) by (split; reflexivity).
  assert (H1 : 1 < 2) by lia. assert (H2 : 2 < 3) by lia.
  split; [exact Hsh|].
  destruct (element_sets_mesh img_2x3 2 3 Hsh) as (elems & Hel & _ & Hpixel).
  destruct (Hpixel 1 2 H1 H2) as (s & Hs & Hcode & He & _).
  exists elems. split; [exact Hel|].
  exists s. split; [exact Hs|]. split; [exact Hcode|exact He].
Defined.

End mesh_sets_more.

(** ** The classifier on array objects *)

Section image_objects_more.

(** X23. [assign_intph] on array objects: the call builds new buffers and
    writes to no buffer that was there before it, although it adds up the
    labels in place; the array it returns owns a buffer of its own, which
    holds the labels; and the image it was given shows the same items
    after the call as before. *)
Theorem assign_intph_fresh unspecified mv b l σ :
  σ !! Img.base mv = Some b →
  (∃ q, is_filler (Img.window b mv) q) →
  ∃ result τ labels,
    Img.assign_intph unspecified mv l σ = (mem.Returned result, τ) ∧
    assign_intph (Img.window b mv) l = Some labels ∧
    σ `prefix_of` τ ∧
    length σ ≤ Img.base result ∧
    Img.value result τ = (mem.Returned labels, τ) ∧
    Img.value mv τ = (mem.Returned (Img.window b mv), τ).
Proof.
  intros Hb Hfill.
  set (m := Img.window b mv) in *.
  destruct (distance_transform_edt_spec m (np.shape m).1 (np.shape m).2)
    as (d2 & Hedt & _); [by destruct (np.shape m)|done|].
  destruct (run_assign_intph unspecified mv b l σ Hb)
    as (d & labels & temps & Hshape & Hrun & Hlink).
  fold m in Hlink.
  assert (Hpure : assign_intph m l = Some labels).
  { rewrite assign_intph_eq, Hedt. cbn [fmap option_fmap option_map].
    f_equal. symmetry. apply Hlink. by rewrite assign_intph_eq, Hedt. }
  do 3 eexists. split; [exact Hrun|]. split; [exact Hpure|].
  split; [by apply prefix_app_r|]. split; [simpl; lia|]. split.
  - rewrite (run_value _ labels).
    + destruct (Img.extent mv) as [h w]. by rewrite window_whole.
    + cbn [Img.base]. rewrite lookup_app_r by lia.
      by replace (S (length σ) - length σ) with 1 by lia.
  - apply run_value. by apply lookup_app_l_Some.
Qed.

Lemma assign_intph_fresh_witness :
  [img_2x2] !! Img.base (Img.Array 0 (0, 0) (2, 2)) = Some img_2x2 ∧
  (∃ q, is_filler (Img.window img_2x2 (Img.Array 0 (0, 0) (2, 2))) q) ∧
  ∃ result τ,
    Img.assign_intph (λ _ _ _, 0%Z) (Img.Array 0 (0, 0) (2, 2)) [1%Z]
      [img_2x2]
    = (mem.Returned result, τ) ∧
    [img_2x2] `prefix_of` τ.
Proof.
  assert (Hfill : ∃ q, is_filler
            (Img.window img_2x2 (Img.Array 0 (0, 0) (2, 2))) q)
    by (by exists (0, 0)).
  split; [reflexivity|]. split; [exact Hfill|].
  destruct (assign_intph_fresh (λ _ _ _, 0%Z) (Img.Array 0 (0, 0) (2, 2))
              img_2x2 [1%Z] [img_2x2] eq_refl Hfill)
    as (result & τ & labels & Hrun & _ & Hprefix & _).
  exists result, τ. split; [exact Hrun|exact Hprefix].
Defined.

End image_objects_more.
